(** * mygrations: the MySQL schema model and the migration planner

    A shallow embedding of
      - [mygrations/formats/mysql/definitions/table.py]  (class [table])
      - [mygrations/formats/mysql/mygrations/mygration.py] (class [mygration])
    Python objects become records, [OrderedDict]s become association lists
    whose order is the insertion order, and a method that mutates [self] and
    may raise becomes a function [table -> (exn + A) * table]: the second
    component is the state of the object when the call returns or raises. *)

From Stdlib Require Import List String ZArith Bool Arith Lia.
From Stdlib Require Import Permutation.
Import ListNotations.
Open Scope string_scope.

(** ** Python exceptions met in the two files *)

Inductive exn : Type :=
| AttributeError
| NameError
| ValueError
| KeyError
| IndexError
| TypeError.

(** ** [collections.OrderedDict] with string keys *)

Module OrderedDict.
Section Ops.
Context {V : Type}.

Definition t := list (string * V).

Definition keys (d : t) : list string := map fst d.
Definition values (d : t) : list V := map snd d.

(** [d.get(k)] *)
Fixpoint get (k : string) (d : t) : option V :=
  match d with
  | [] => None
  | (k', v) :: d' => if String.eqb k k' then Some v else get k d'
  end.

(** [k in d] *)
Definition mem (k : string) (d : t) : bool :=
  match get k d with Some _ => true | None => false end.

(** [d[k] = v]: an existing key keeps its place, a new key goes last. *)
Fixpoint set (k : string) (v : V) (d : t) : t :=
  match d with
  | [] => [(k, v)]
  | (k', v') :: d' =>
      if String.eqb k k' then (k', v) :: d' else (k', v') :: set k v d'
  end.

(** [d.pop(k, None)] (the popped value is never used by the callers) *)
Fixpoint pop (k : string) (d : t) : t :=
  match d with
  | [] => []
  | (k', v') :: d' => if String.eqb k k' then d' else (k', v') :: pop k d'
  end.

(** [d.move_to_end(k, last=False)] for a key that is present *)
Definition move_to_front (k : string) (d : t) : t :=
  match get k d with
  | Some v => (k, v) :: pop k d
  | None => d
  end.
End Ops.
Arguments t : clear implicits.
End OrderedDict.

Definition odict (V : Type) : Type := OrderedDict.t V.

(** ** Schema entities *)

(** Modelled from the spec: the classes [column], [index] and [constraint]
    are not part of the two files; their fields are the ones the
    specification lists. *)
Record column : Type := mk_column {
  col_name : string;
  col_type : string;
  col_length : option Z;
  col_unsigned : bool;
  col_null : bool;
  col_default : option string;
  col_auto_increment : bool;
  col_character_set : option string;
  col_collation : option string
}.

Inductive index_type : Type := Primary | Unique | Regular | Fulltext.

Record index : Type := mk_index {
  idx_name : string;
  idx_columns : list string;
  idx_type : index_type
}.

Inductive fk_action : Type := Restrict | Cascade | SetNull | NoAction.

Record constraint : Type := mk_constraint {
  con_name : string;
  con_local_columns : list string;
  con_foreign_table : string;
  con_foreign_columns : list string;
  con_on_delete : fk_action;
  con_on_update : fk_action
}.

(** A seed row: column name to SQL literal. *)
Definition row : Type := odict string.

(** The state of a [table] object.  [tbl_rows] and [tbl_indexed_columns]
    start out as [None] (the class attributes [_rows] and
    [_indexed_columns]); [tbl_indexed_columns] is the Python [set] kept by
    [column_is_indexed], held as a list read through membership only. *)
Record table : Type := mk_table {
  tbl_name : string;
  tbl_options : list string;
  tbl_columns : odict column;
  tbl_indexes : odict index;
  tbl_constraints : odict constraint;
  tbl_primary : string;
  tbl_rows : option (list (Z * row));
  tbl_errors : list string;
  tbl_warnings : list string;
  tbl_auto_increment : Z;
  tbl_indexed_columns : option (list string)
}.

(** [table( name )] *)
Definition new_table (name : string) : table :=
  {| tbl_name := name; tbl_options := []; tbl_columns := [];
     tbl_indexes := []; tbl_constraints := []; tbl_primary := "";
     tbl_rows := None; tbl_errors := []; tbl_warnings := [];
     tbl_auto_increment := 1; tbl_indexed_columns := None |}.

Definition with_columns (cs : odict column) (t : table) : table :=
  {| tbl_name := tbl_name t; tbl_options := tbl_options t; tbl_columns := cs;
     tbl_indexes := tbl_indexes t; tbl_constraints := tbl_constraints t;
     tbl_primary := tbl_primary t; tbl_rows := tbl_rows t;
     tbl_errors := tbl_errors t; tbl_warnings := tbl_warnings t;
     tbl_auto_increment := tbl_auto_increment t;
     tbl_indexed_columns := tbl_indexed_columns t |}.

Definition with_indexes (ix : odict index) (t : table) : table :=
  {| tbl_name := tbl_name t; tbl_options := tbl_options t;
     tbl_columns := tbl_columns t; tbl_indexes := ix;
     tbl_constraints := tbl_constraints t; tbl_primary := tbl_primary t;
     tbl_rows := tbl_rows t; tbl_errors := tbl_errors t;
     tbl_warnings := tbl_warnings t;
     tbl_auto_increment := tbl_auto_increment t;
     tbl_indexed_columns := tbl_indexed_columns t |}.

Definition with_constraints (cs : odict constraint) (t : table) : table :=
  {| tbl_name := tbl_name t; tbl_options := tbl_options t;
     tbl_columns := tbl_columns t; tbl_indexes := tbl_indexes t;
     tbl_constraints := cs; tbl_primary := tbl_primary t;
     tbl_rows := tbl_rows t; tbl_errors := tbl_errors t;
     tbl_warnings := tbl_warnings t;
     tbl_auto_increment := tbl_auto_increment t;
     tbl_indexed_columns := tbl_indexed_columns t |}.

Definition with_indexed_columns (s : option (list string)) (t : table)
  : table :=
  {| tbl_name := tbl_name t; tbl_options := tbl_options t;
     tbl_columns := tbl_columns t; tbl_indexes := tbl_indexes t;
     tbl_constraints := tbl_constraints t; tbl_primary := tbl_primary t;
     tbl_rows := tbl_rows t; tbl_errors := tbl_errors t;
     tbl_warnings := tbl_warnings t;
     tbl_auto_increment := tbl_auto_increment t;
     tbl_indexed_columns := s |}.

Definition with_rows (rs : option (list (Z * row))) (t : table) : table :=
  {| tbl_name := tbl_name t; tbl_options := tbl_options t;
     tbl_columns := tbl_columns t; tbl_indexes := tbl_indexes t;
     tbl_constraints := tbl_constraints t; tbl_primary := tbl_primary t;
     tbl_rows := rs; tbl_errors := tbl_errors t;
     tbl_warnings := tbl_warnings t;
     tbl_auto_increment := tbl_auto_increment t;
     tbl_indexed_columns := tbl_indexed_columns t |}.

Definition with_auto_increment (n : Z) (t : table) : table :=
  {| tbl_name := tbl_name t; tbl_options := tbl_options t;
     tbl_columns := tbl_columns t; tbl_indexes := tbl_indexes t;
     tbl_constraints := tbl_constraints t; tbl_primary := tbl_primary t;
     tbl_rows := tbl_rows t; tbl_errors := tbl_errors t;
     tbl_warnings := tbl_warnings t;
     tbl_auto_increment := n;
     tbl_indexed_columns := tbl_indexed_columns t |}.

(** ** Methods of [table] as state transformers that may raise *)

Definition M (A : Type) : Type := table -> (exn + A) * table.

Definition ret {A} (a : A) : M A := fun t => (inr a, t).
Definition raise {A} (e : exn) : M A := fun t => (inl e, t).
Definition bind {A B} (m : M A) (k : A -> M B) : M B :=
  fun t => match m t with
           | (inl e, t') => (inl e, t')
           | (inr a, t') => k a t'
           end.
Definition get_self : M table := fun t => (inr t, t).
Definition modify_self (f : table -> table) : M unit :=
  fun t => (inr tt, f t).
(** Lift a pure computation that may raise. *)
Definition lift {A} (r : exn + A) : M A := fun t => (r, t).

Declare Scope py_scope.
Delimit Scope py_scope with py.
Notation "x <- m ;; k" := (bind m (fun x => k))
  (at level 100, m at next level, right associativity) : py_scope.
Notation "m ;;; k" := (bind m (fun _ => k))
  (at level 100, right associativity) : py_scope.
Open Scope py_scope.

(** Attribute and item access on built-in values.  The columns of an index
    are plain strings, and a [str] has neither a [name] nor a [columns]
    attribute. *)
Definition str_dot_name (s : string) : exn + string := inl AttributeError.
Definition str_dot_columns (s : string) : exn + list string :=
  inl AttributeError.
(** [l[0]] *)
Definition item0 {A} (l : list A) : exn + A :=
  match l with
  | [] => inl IndexError
  | x :: _ => inr x
  end.

Definition in_list (s : string) (l : list string) : bool :=
  existsb (String.eqb s) l.

(** [set.add] and [set.discard] *)
Definition set_add (s : string) (l : list string) : list string :=
  if in_list s l then l else s :: l.
Definition set_discard (s : string) (l : list string) : list string :=
  filter (fun x => negb (String.eqb s x)) l.

(** Pure computations that may raise. *)
Definition ebind {A B} (r : exn + A) (k : A -> exn + B) : exn + B :=
  match r with
  | inl e => inl e
  | inr a => k a
  end.
Notation "x <-e m ;; k" := (ebind m (fun x => k))
  (at level 100, m at next level, right associativity) : py_scope.

(** [d[k]], raising [KeyError] on a missing key *)
Definition getitem {V} (d : odict V) (k : string) : exn + V :=
  match OrderedDict.get k d with
  | Some v => inr v
  | None => inl KeyError
  end.

(** [for x in l: acc = f(acc, x)] where the body may raise *)
Fixpoint efold {A B} (f : A -> B -> exn + A) (l : list B) (acc : A)
  : exn + A :=
  match l with
  | [] => inr acc
  | x :: l' => acc' <-e f acc x ;; efold f l' acc'
  end.

(** ** Operations *)

(** The [position] argument of [table.add_column]: [False] (at the end),
    [True] (first) or the name of the column to go after;
    [table.column_before] produces the last two. *)
Inductive position : Type :=
| PosFalse
| PosTrue
| PosAfter (column_name : string).

(** Modelled from the spec: the operation classes live outside the two
    files.  An operation is the tagged value the specification describes:
    it carries the column, key or constraint it was built from. *)
Inductive sub_operation : Type :=
| AddColumn (c : column) (pos : position)
| ChangeColumn (c : column)
| RemoveColumn (c : column)
| AddKey (k : index)
| ChangeKey (k : index)
| RemoveKey (k : index)
| AddConstraint (c : constraint)
| ChangeConstraint (c : constraint)
| RemoveConstraint (c : constraint).

(** Modelled from the spec: [alter_table( name )] with the sub-operations
    added so far; it is falsy when it has none, and iterating it yields
    its sub-operations. *)
Record alter_table : Type := mk_alter_table {
  alt_table : string;
  alt_operations : list sub_operation
}.

Definition add_operation (a : alter_table) (op : sub_operation)
  : alter_table :=
  {| alt_table := alt_table a; alt_operations := alt_operations a ++ [op] |}.

Definition alter_truthy (a : alter_table) : bool :=
  match alt_operations a with [] => false | _ => true end.

Inductive operation : Type :=
| CreateTable (t : table)
| AlterTable (a : alter_table)
| RemoveTable (name : string).

(** ** [table.column_before] *)

(** [columns.index( name )] *)
Fixpoint list_index (s : string) (l : list string) : option nat :=
  match l with
  | [] => None
  | x :: l' => if String.eqb s x then Some O
               else option_map S (list_index s l')
  end.

Definition column_before (self : table) (column_name : string)
  : exn + position :=
  let columns := OrderedDict.keys (tbl_columns self) in
  if negb (in_list column_name columns) then inl ValueError
  else match list_index column_name columns with
       | None => inl ValueError
       | Some O => inr PosTrue
       | Some (S i) => match nth_error columns i with
                       | Some c => inr (PosAfter c)
                       | None => inl IndexError
                       end
       end.

(** ** [table.create] *)
Definition create (self : table) : operation := CreateTable self.

(** ** [table._differences] *)
Definition _differences {V W} (a : odict V) (b : odict W)
  : list string * list string * list string :=
  (filter (fun key => negb (OrderedDict.mem key a)) (OrderedDict.keys b),
   filter (fun key => negb (OrderedDict.mem key b)) (OrderedDict.keys a),
   filter (fun key => OrderedDict.mem key b) (OrderedDict.keys a)).

(** ** Canonical renderings *)

Definition option_eq_dec {A} (dec : forall a b : A, {a = b} + {a <> b})
  (x y : option A) : {x = y} + {x <> y}.
Proof. decide equality. Defined.

Definition column_eq_dec (a b : column) : {a = b} + {a <> b}.
Proof.
  decide equality;
    first [ apply string_dec | apply bool_dec
          | apply option_eq_dec; first [ apply string_dec | apply Z.eq_dec ] ].
Defined.

Definition index_type_eq_dec (a b : index_type) : {a = b} + {a <> b}.
Proof. decide equality. Defined.

Definition index_eq_dec (a b : index) : {a = b} + {a <> b}.
Proof.
  decide equality;
    first [ apply string_dec | apply index_type_eq_dec
          | apply list_eq_dec; apply string_dec ].
Defined.

Definition fk_action_eq_dec (a b : fk_action) : {a = b} + {a <> b}.
Proof. decide equality. Defined.

Definition constraint_eq_dec (a b : constraint) : {a = b} + {a <> b}.
Proof.
  decide equality;
    first [ apply string_dec | apply fk_action_eq_dec
          | apply list_eq_dec; apply string_dec ].
Defined.

(** Modelled from the spec: the [__str__] methods of [column], [index] and
    [constraint] are missing from the two files.  The specification makes
    the rendering canonical (two entities are unchanged iff their renderings
    are string-equal), so the test [str( a ) == str( b )] is equality of the
    entities' fields. *)
Definition str_eq_column (a b : column) : bool :=
  if column_eq_dec a b then true else false.
Definition str_eq_index (a b : index) : bool :=
  if index_eq_dec a b then true else false.
Definition str_eq_constraint (a b : constraint) : bool :=
  if constraint_eq_dec a b then true else false.

(** ** [table.to]: the per-table diff *)

(** The dict returned with [split_operations = True]: each key is present
    only when its [alter_table] is truthy. *)
Record split_dict : Type := mk_split_dict {
  removed_fks : option alter_table;
  kitchen_sink : option alter_table;
  fks : option alter_table
}.

Inductive to_result : Type :=
| Split (d : split_dict)
| Flat (l : list alter_table).

Definition truthy_key (a : alter_table) : option alter_table :=
  if alter_truthy a then Some a else None.

Definition to (self comparison_table : table) (split_operations : bool)
  : exn + to_result :=
  let '(added_columns, removed_columns, overlap_columns) :=
    _differences (tbl_columns self) (tbl_columns comparison_table) in
  let '(added_keys, removed_keys, overlap_keys) :=
    _differences (tbl_indexes self) (tbl_indexes comparison_table) in
  let '(added_constraints, removed_constraints, overlap_constraints) :=
    _differences (tbl_constraints self) (tbl_constraints comparison_table) in
  let primary_alter := mk_alter_table (tbl_name self) [] in
  primary_alter <-e efold (fun alter new_column =>
      c <-e getitem (tbl_columns comparison_table) new_column ;;
      before <-e column_before comparison_table new_column ;;
      inr (add_operation alter (AddColumn c before)))
    added_columns primary_alter ;;
  primary_alter <-e efold (fun alter overlap_column =>
      a <-e getitem (tbl_columns self) overlap_column ;;
      b <-e getitem (tbl_columns comparison_table) overlap_column ;;
      if str_eq_column a b then inr alter
      else inr (add_operation alter (ChangeColumn b)))
    overlap_columns primary_alter ;;
  primary_alter <-e efold (fun alter removed_column =>
      a <-e getitem (tbl_columns self) removed_column ;;
      inr (add_operation alter (RemoveColumn a)))
    removed_columns primary_alter ;;
  primary_alter <-e efold (fun alter new_key =>
      k <-e getitem (tbl_indexes comparison_table) new_key ;;
      inr (add_operation alter (AddKey k)))
    added_keys primary_alter ;;
  primary_alter <-e efold (fun alter removed_key =>
      k <-e getitem (tbl_indexes self) removed_key ;;
      inr (add_operation alter (RemoveKey k)))
    removed_keys primary_alter ;;
  primary_alter <-e efold (fun alter overlap_key =>
      a <-e getitem (tbl_indexes self) overlap_key ;;
      b <-e getitem (tbl_indexes comparison_table) overlap_key ;;
      if str_eq_index a b then inr alter
      else inr (add_operation alter (ChangeKey b)))
    overlap_keys primary_alter ;;
  let removed_constraints_alter := mk_alter_table (tbl_name self) [] in
  removed_constraints_alter <-e efold (fun alter removed_constraint =>
      c <-e getitem (tbl_constraints self) removed_constraint ;;
      inr (add_operation alter (RemoveConstraint c)))
    removed_constraints removed_constraints_alter ;;
  let constraints := mk_alter_table (tbl_name self) [] in
  constraints <-e efold (fun alter added_constraint =>
      c <-e getitem (tbl_constraints comparison_table) added_constraint ;;
      inr (add_operation alter (AddConstraint c)))
    added_constraints constraints ;;
  constraints <-e efold (fun alter overlap_constraint =>
      a <-e getitem (tbl_constraints self) overlap_constraint ;;
      b <-e getitem (tbl_constraints comparison_table) overlap_constraint ;;
      if str_eq_constraint a b then inr alter
      else inr (add_operation alter (ChangeConstraint b)))
    overlap_constraints constraints ;;
  if split_operations then
    inr (Split {| removed_fks := truthy_key removed_constraints_alter;
                  kitchen_sink := truthy_key primary_alter;
                  fks := truthy_key constraints |})
  else
    let primary_alter :=
      fold_left add_operation (alt_operations constraints) primary_alter in
    let primary_alter :=
      fold_left add_operation (alt_operations removed_constraints_alter)
        primary_alter in
    inr (Flat (if alter_truthy primary_alter then [primary_alter] else [])).

(** ** [table.column_is_indexed] and the mutation methods *)

(** An argument that is either a name or the entity itself
    ([if type( x ) != str: x = x.name]). *)
Inductive str_or (A : Type) : Type :=
| Str (s : string)
| Obj (a : A).
Arguments Str {A} s.
Arguments Obj {A} a.

Definition name_of {A} (name : A -> string) (x : str_or A) : string :=
  match x with
  | Str s => s
  | Obj a => name a
  end.

(** [[ index.columns[0] for index in self._indexes.values() ]] *)
Fixpoint first_columns (l : list index) : exn + list string :=
  match l with
  | [] => inr []
  | index :: l' =>
      c <-e item0 (idx_columns index) ;;
      cs <-e first_columns l' ;;
      inr (c :: cs)
  end.

Definition column_is_indexed (column : str_or column) : M bool :=
  let column := name_of col_name column in
  self <- get_self ;;
  if negb (OrderedDict.mem column (tbl_columns self)) then ret false
  else
    (match tbl_indexed_columns self with
     | None =>
         cs <- lift (first_columns (OrderedDict.values (tbl_indexes self))) ;;
         modify_self (with_indexed_columns (Some (fold_right set_add [] cs)))
     | Some _ => ret tt
     end) ;;;
    self <- get_self ;;
    match tbl_indexed_columns self with
    | Some s => ret (in_list column s)
    | None => raise AttributeError
    end.

(** [not position] and [position == True] *)
Definition py_not (p : position) : bool :=
  match p with
  | PosFalse => true
  | PosTrue => false
  | PosAfter s => String.eqb s ""
  end.
Definition eq_True (p : position) : bool :=
  match p with PosTrue => true | _ => false end.
(** [key == position] for a column name [key] *)
Definition eq_position (key : string) (p : position) : bool :=
  match p with PosAfter s => String.eqb key s | _ => false end.

Definition add_column (column : column) (position : position) : M bool :=
  self <- get_self ;;
  if OrderedDict.mem (col_name column) (tbl_columns self)
  then raise ValueError
  else if py_not position then
    modify_self (fun t => with_columns
      (OrderedDict.set (col_name column) column (tbl_columns t)) t) ;;;
    ret true
  else if eq_True position then
    modify_self (fun t => with_columns
      (OrderedDict.set (col_name column) column (tbl_columns t)) t) ;;;
    modify_self (fun t => with_columns
      (OrderedDict.move_to_front (col_name column) (tbl_columns t)) t) ;;;
    ret true
  else
    let '(new_columns, found) :=
      fold_left (fun '(new_columns, found) '(key, value) =>
          let new_columns := OrderedDict.set key value new_columns in
          if eq_position key position
          then (OrderedDict.set (col_name column) column new_columns, true)
          else (new_columns, found))
        (tbl_columns self) ([], false) in
    if negb found then raise ValueError
    else modify_self (with_columns new_columns) ;;; ret true.

Definition remove_column (column_name : str_or column) : M unit :=
  let column_name := name_of col_name column_name in
  self <- get_self ;;
  if negb (OrderedDict.mem column_name (tbl_columns self))
  then raise ValueError
  else modify_self (fun t => with_columns
         (OrderedDict.pop column_name (tbl_columns t)) t).

Definition change_column (new_column : column) : M unit :=
  self <- get_self ;;
  if negb (OrderedDict.mem (col_name new_column) (tbl_columns self))
  then raise ValueError
  else modify_self (fun t => with_columns
         (OrderedDict.set (col_name new_column) new_column (tbl_columns t)) t).

Definition add_key (key : index) : M unit :=
  self <- get_self ;;
  if OrderedDict.mem (idx_name key) (tbl_indexes self)
  then raise ValueError
  else
    modify_self (fun t => with_indexes
      (OrderedDict.set (idx_name key) key (tbl_indexes t)) t) ;;;
    self <- get_self ;;
    match tbl_indexed_columns self with
    | None => ret tt
    | Some s =>
        c <- lift (item0 (idx_columns key)) ;;
        n <- lift (str_dot_name c) ;;
        modify_self (with_indexed_columns (Some (set_add n s)))
    end.

Definition remove_key (key : str_or index) : M unit :=
  let key := name_of idx_name key in
  self <- get_self ;;
  if negb (OrderedDict.mem key (tbl_indexes self))
  then raise ValueError
  else
    modify_self (fun t => with_indexes
      (OrderedDict.pop key (tbl_indexes t)) t) ;;;
    self <- get_self ;;
    match tbl_indexed_columns self with
    | None => ret tt
    | Some s =>
        columns <- lift (str_dot_columns key) ;;
        c <- lift (item0 columns) ;;
        n <- lift (str_dot_name c) ;;
        modify_self (with_indexed_columns (Some (set_discard n s)))
    end.

Definition change_key (new_key : index) : M unit :=
  self <- get_self ;;
  if negb (OrderedDict.mem (idx_name new_key) (tbl_indexes self))
  then raise ValueError
  else
    (match tbl_indexed_columns self with
     | None => ret tt
     | Some s =>
         old <- lift (getitem (tbl_indexes self) (idx_name new_key)) ;;
         c <- lift (item0 (idx_columns old)) ;;
         n <- lift (str_dot_name c) ;;
         modify_self (with_indexed_columns (Some (set_discard n s)))
     end) ;;;
    modify_self (fun t => with_indexes
      (OrderedDict.set (idx_name new_key) new_key (tbl_indexes t)) t) ;;;
    self <- get_self ;;
    match tbl_indexed_columns self with
    | None => ret tt
    | Some s =>
        c <- lift (item0 (idx_columns new_key)) ;;
        n <- lift (str_dot_name c) ;;
        modify_self (with_indexed_columns (Some (set_add n s)))
    end.

Definition add_constraint (constraint : constraint) : M unit :=
  self <- get_self ;;
  if OrderedDict.mem (con_name constraint) (tbl_constraints self)
  then raise ValueError
  else modify_self (fun t => with_constraints
         (OrderedDict.set (con_name constraint) constraint
            (tbl_constraints t)) t).

Definition remove_constraint (constraint : str_or constraint) : M unit :=
  let constraint := name_of con_name constraint in
  self <- get_self ;;
  if negb (OrderedDict.mem constraint (tbl_constraints self))
  then raise ValueError
  else modify_self (fun t => with_constraints
         (OrderedDict.pop constraint (tbl_constraints t)) t).

Definition change_constraint (new_constraint : constraint) : M unit :=
  self <- get_self ;;
  if negb (OrderedDict.mem (con_name new_constraint) (tbl_constraints self))
  then raise ValueError
  else modify_self (fun t => with_constraints
         (OrderedDict.set (con_name new_constraint) new_constraint
            (tbl_constraints t)) t).

(** ** [table.add_rows] *)

(** The class [rows] is outside the two files; [add_rows] reads four of
    its attributes.  Raw values are the SQL literals as text, and the
    built-in [int] is a parameter: [None] stands for its [ValueError]. *)
Record rows : Type := mk_rows {
  rows_errors : list string;
  rows_columns : list string;
  rows_num_explicit_columns : nat;
  rows_raw_rows : list (list string)
}.

(** What [add_rows] returns: [True], [False], or one of its two messages
    (each is formatted from the table name and the offending row). *)
Inductive add_rows_result : Type :=
| ReturnTrue
| ReturnFalse
| WrongNumberOfValues (values : list string)
| DuplicateRowId (values : list string).

(** [try: body / except ValuerError: row_id = handler].  The name
    [ValuerError] is bound nowhere, so matching any exception raised by the
    body against the clause raises [NameError]; the handler never runs. *)
Definition try_except_ValuerError (body : exn + Z) (handler : Z) : exn + Z :=
  match body with
  | inr row_id => inr row_id
  | inl _ => inl NameError
  end.

Definition row_id_in (row_id : Z) (rs : list (Z * row)) : bool :=
  existsb (fun '(k, _) => Z.eqb row_id k) rs.

(** [self._rows[row_id] = r] *)
Fixpoint rows_set (row_id : Z) (r : row) (rs : list (Z * row))
  : list (Z * row) :=
  match rs with
  | [] => [(row_id, r)]
  | (k, r') :: rs' =>
      if Z.eqb row_id k then (k, r) :: rs' else (k, r') :: rows_set row_id r rs'
  end.

(** [OrderedDict( zip( columns, values ) )] *)
Definition zip_dict (columns values : list string) : row :=
  fold_left (fun d '(k, v) => OrderedDict.set k v d) (combine columns values) [].

Section AddRows.
Variable py_int : string -> option Z.

Definition row_id_of (columns values : list string) : exn + Z :=
  match list_index "id" columns with
  | None => inl ValueError
  | Some id_index =>
      match nth_error values id_index with
      | None => inl IndexError
      | Some v => match py_int v with
                  | Some n => inr n
                  | None => inl ValueError
                  end
      end
  end.

Fixpoint add_rows_loop (explicit : bool) (columns : list string)
  (raw_rows : list (list string)) : M add_rows_result :=
  match raw_rows with
  | [] => ret ReturnTrue
  | values :: raw_rows' =>
      if negb explicit && negb (List.length values =? List.length columns)%nat
      then ret (WrongNumberOfValues values)
      else
        self <- get_self ;;
        row_id <- lift (try_except_ValuerError (row_id_of columns values)
                          (tbl_auto_increment self)) ;;
        modify_self (fun t => with_auto_increment
          (Z.max (tbl_auto_increment t) (row_id + 1)) t) ;;;
        self <- get_self ;;
        let _rows := match tbl_rows self with Some rs => rs | None => [] end in
        if row_id_in row_id _rows then ret (DuplicateRowId values)
        else
          modify_self (with_rows
            (Some (rows_set row_id (zip_dict columns values) _rows))) ;;;
          add_rows_loop explicit columns raw_rows'
  end.

Definition add_rows (rows : rows) : M add_rows_result :=
  match rows_errors rows with
  | _ :: _ => ret ReturnFalse
  | [] =>
      self <- get_self ;;
      (match tbl_rows self with
       | None => modify_self (with_rows (Some []))
       | Some _ => ret tt
       end) ;;;
      self <- get_self ;;
      let explicit := negb (rows_num_explicit_columns rows =? 0)%nat in
      let columns := if explicit then rows_columns rows
                     else OrderedDict.keys (tbl_columns self) in
      add_rows_loop explicit columns (rows_raw_rows rows)
  end.
End AddRows.

(** ** A caller of the key methods

    A sequence of calls made on one table, each of which must return for
    the next one to be made. *)

Inductive key_call : Type :=
| CallAddKey (key : index)
| CallRemoveKey (key : str_or index)
| CallChangeKey (new_key : index)
| CallColumnIsIndexed (column : str_or column).

Definition run_call (c : key_call) : M unit :=
  match c with
  | CallAddKey key => add_key key
  | CallRemoveKey key => remove_key key
  | CallChangeKey new_key => change_key new_key
  | CallColumnIsIndexed column => column_is_indexed column ;;; ret tt
  end.

Fixpoint run_calls (cs : list key_call) : M unit :=
  match cs with
  | [] => ret tt
  | c :: cs' => run_call c ;;; run_calls cs'
  end.

(** The first column of an index. *)
Definition leads (c : string) (index : index) : Prop :=
  hd_error (idx_columns index) = Some c.

(** [c] is a column of the table and the first column of one of its
    indexes. *)
Definition is_indexed (t : table) (c : string) : Prop :=
  OrderedDict.mem c (tbl_columns t) = true /\
  exists index, In index (OrderedDict.values (tbl_indexes t)) /\ leads c index.

(** The cached set, once built, holds exactly the first columns of the
    current indexes. *)
Definition cache_coherent (t : table) : Prop :=
  match tbl_indexed_columns t with
  | None => True
  | Some s => forall c, in_list c s = true <->
      exists index, In index (OrderedDict.values (tbl_indexes t)) /\
                    leads c index
  end.

Definition indexes_nonempty (t : table) : Prop :=
  Forall (fun index => idx_columns index <> [])
    (OrderedDict.values (tbl_indexes t)).

(** ** Example data *)

Definition tasks_id : column :=
  mk_column "id" "INT" (Some 10%Z) true false None true None None.
Definition tasks_name : column :=
  mk_column "name" "VARCHAR" (Some 255%Z) false false (Some "") false None None.

Definition two_columns : table :=
  with_columns [("id", tasks_id); ("name", tasks_name)] (new_table "tasks").

Definition name_key : index := mk_index "name_key" ["name"] Regular.
Definition id_key : index := mk_index "id_key" ["id"] Regular.
Definition name_id_key : index := mk_index "name_key" ["name"; "id"] Regular.

(** [tasks] with the key [name_key], before and after a first call of
    [column_is_indexed( 'name' )] has built the set of indexed columns. *)
Definition keyed_tasks : table :=
  with_indexes [("name_key", name_key)] two_columns.
Definition keyed_tasks_cached : table :=
  snd (column_is_indexed (Str "name") keyed_tasks).

(** A run of key calls on [tasks] that all return; the one query in the
    middle asks about a name that is not a column, which leaves the set of
    indexed columns unbuilt. *)
Definition key_calls : list key_call :=
  [ CallAddKey name_key;
    CallColumnIsIndexed (Str "subject");
    CallChangeKey name_id_key;
    CallAddKey id_key;
    CallRemoveKey (Str "id_key") ].
Definition tasks_after_key_calls : table :=
  with_indexes [("name_key", name_id_key)] two_columns.

(** [tasks] without an [id] column, and one seed row for it. *)
Definition named_only : table :=
  with_columns [("name", tasks_name)] (new_table "tasks").
Definition one_row : rows :=
  {| rows_errors := []; rows_columns := []; rows_num_explicit_columns := 0;
     rows_raw_rows := [["'bob'"]] |}.
Definition one_row_explicit : rows :=
  {| rows_errors := []; rows_columns := ["name"];
     rows_num_explicit_columns := 1; rows_raw_rows := [["'bob'"]] |}.

(** Every stored row id is below the table's [auto_increment]. *)
Definition ids_below_auto_increment (t : table) : Prop :=
  forall k r, In (k, r) (match tbl_rows t with Some rs => rs | None => [] end) ->
              (k < tbl_auto_increment t)%Z.

(** ** The [database] class *)

(** Modelled from the spec: [definitions/database.py] is missing.  A
    database is an ordered mapping from names to tables. *)
Record database : Type := mk_database {
  db_tables : odict table
}.

(** [database()] *)
Definition empty_database : database := {| db_tables := [] |}.

(** [l1] is the leftmost part of [l2]. *)
Fixpoint is_prefix (l1 l2 : list string) : bool :=
  match l1, l2 with
  | [], _ => true
  | x :: l1', y :: l2' => String.eqb x y && is_prefix l1' l2'
  | _ :: _, [] => false
  end.

(** Modelled from the spec: the types whose length is a fixed width, that
    is every type but the character and binary types of variable length
    (VARCHAR, VARBINARY and the TEXT and BLOB families). *)
Definition variable_width_types : list string :=
  ["VARCHAR"; "VARBINARY";
   "TINYTEXT"; "TEXT"; "MEDIUMTEXT"; "LONGTEXT";
   "TINYBLOB"; "BLOB"; "MEDIUMBLOB"; "LONGBLOB"].
Definition fixed_width (type : string) : bool :=
  negb (existsb (String.eqb type) variable_width_types).

(** Modelled from the spec: same base type, same signedness, and same
    length for fixed widths. *)
Definition compatible_types (a b : column) : bool :=
  String.eqb (col_type a) (col_type b) &&
  Bool.eqb (col_unsigned a) (col_unsigned b) &&
  (negb (fixed_width (col_type a)) ||
   if option_eq_dec Z.eq_dec (col_length a) (col_length b)
   then true else false).

Definition compatible_columns (local foreign : odict column)
  (pair : string * string) : bool :=
  match OrderedDict.get (fst pair) local, OrderedDict.get (snd pair) foreign with
  | Some a, Some b => compatible_types a b
  | _, _ => false
  end.

(** Modelled from the spec: why the foreign key [c] of [t] cannot be
    created in [db], if it cannot.  These are the four rules of
    [unfulfilled_fks], in their order: the referenced table is unknown; a
    referenced column is missing; no index has the referenced columns as
    its leftmost columns; a local and a referenced column differ in base
    type, signedness or length. *)
Definition fk_error (db : database) (t : table) (c : constraint)
  : option string :=
  match OrderedDict.get (con_foreign_table c) (db_tables db) with
  | None => Some ("1215: " ++ con_name c ++ " references unknown table")
  | Some foreign =>
      if negb (forallb (fun fc => OrderedDict.mem fc (tbl_columns foreign))
                 (con_foreign_columns c))
      then Some ("1215: " ++ con_name c ++ " references unknown column")
      else if negb (existsb (fun index =>
                      is_prefix (con_foreign_columns c) (idx_columns index))
                    (OrderedDict.values (tbl_indexes foreign)))
      then Some ("1215: " ++ con_name c ++ " references unindexed column")
      else if negb ((List.length (con_local_columns c) =?
                     List.length (con_foreign_columns c))%nat &&
                    forallb (compatible_columns (tbl_columns t)
                               (tbl_columns foreign))
                      (combine (con_local_columns c) (con_foreign_columns c)))
      then Some ("1215: " ++ con_name c ++ " column type mismatch")
      else None
  end.

(** One entry of the mapping returned by [unfulfilled_fks]. *)
Record fk_problem : Type := mk_fk_problem {
  error : string;
  foreign_key : constraint
}.

(** Modelled from the spec: [database.unfulfilled_fks( table )], the
    mapping from the names of the constraints of [table] that cannot be
    created in the database to their error and the constraint. *)
Definition unfulfilled_fks (db : database) (t : table) : odict fk_problem :=
  fold_left (fun bad '(name, c) =>
      match fk_error db t c with
      | Some e => OrderedDict.set name (mk_fk_problem e c) bad
      | None => bad
      end)
    (tbl_constraints t) [].

(** Modelled from the spec: [database.add_table] and
    [database.remove_table] enforce uniqueness and existence like the
    mutation methods of [table]. *)
Definition add_table (t : table) (db : database) : exn + database :=
  if OrderedDict.mem (tbl_name t) (db_tables db) then inl ValueError
  else inr {| db_tables := OrderedDict.set (tbl_name t) t (db_tables db) |}.

Definition remove_table (name : string) (db : database) : exn + database :=
  if negb (OrderedDict.mem name (db_tables db)) then inl ValueError
  else inr {| db_tables := OrderedDict.pop name (db_tables db) |}.

(** ** Applying operations *)

(** Modelled from the spec: the operation classes and
    [database.apply_operation] are missing.  An operation applies itself by
    calling the method of [table] (or of [database]) that it is named
    after. *)
Definition apply_to_table (op : sub_operation) : M unit :=
  match op with
  | AddColumn c pos => add_column c pos ;;; ret tt
  | ChangeColumn c => change_column c
  | RemoveColumn c => remove_column (Obj c)
  | AddKey k => add_key k
  | ChangeKey k => change_key k
  | RemoveKey k => remove_key (Obj k)
  | AddConstraint c => add_constraint c
  | ChangeConstraint c => change_constraint c
  | RemoveConstraint c => remove_constraint (Obj c)
  end.

(** Modelled from the spec: [table.apply_operation] for each
    sub-operation of an [alter_table], in order. *)
Fixpoint apply_all_to_table (ops : list sub_operation) : M unit :=
  match ops with
  | [] => ret tt
  | op :: ops' => apply_to_table op ;;; apply_all_to_table ops'
  end.

(** Modelled from the spec: [CREATE TABLE] adds the table, [DROP TABLE]
    removes it, [ALTER TABLE] applies its sub-operations to the table of
    that name. *)
Definition apply_operation (op : operation) (db : database)
  : exn + database :=
  match op with
  | CreateTable t => add_table t db
  | RemoveTable name => remove_table name db
  | AlterTable a =>
      match OrderedDict.get (alt_table a) (db_tables db) with
      | None => inl ValueError
      | Some t =>
          match apply_all_to_table (alt_operations a) t with
          | (inl e, _) => inl e
          | (inr _, t') =>
              inr {| db_tables :=
                       OrderedDict.set (alt_table a) t' (db_tables db) |}
          end
      end
  end.

(** Replaying a list of operations, in order. *)
Definition apply_operations (ops : list operation) (db : database)
  : exn + database :=
  efold (fun db op => apply_operation op db) ops db.

(** ** The planner: class [mygration] *)

(** [l.remove( x )]: drops the first [x], raises when there is none. *)
Fixpoint list_remove (x : string) (l : list string) : exn + list string :=
  match l with
  | [] => inl ValueError
  | y :: l' =>
      if String.eqb x y then inr l'
      else l'' <-e list_remove x l' ;; inr (y :: l'')
  end.

(** [operations.extend( more )] and [operations.append( op )] on a name
    that holds a list or, after line 156, [None]. *)
Definition py_extend {A} (l : option (list A)) (more : list A)
  : exn + option (list A) :=
  match l with
  | Some l => inr (Some (l ++ more)%list)
  | None => inl AttributeError
  end.
Definition py_append {A} (l : option (list A)) (x : A)
  : exn + option (list A) :=
  py_extend l [x].

(** What [_process] returns: [[ errors_1215, operations ]]. *)
Record plan : Type := mk_plan {
  errors_1215 : list string;
  operations : option (list operation)
}.

(** The objects [_process_adds] works on: its three locals, and the two
    arguments it modifies in place. *)
Record adds_state : Type := mk_adds_state {
  st_errors_1215 : list string;
  st_operations : list operation;
  st_good_tables : list string;
  st_tracking_db : database;
  st_tables_to_add : list string
}.

(** The dict built by [_process_updates]. *)
Record updates_dict : Type := mk_updates_dict {
  upd_fks : list operation;
  upd_kitchen_sink : list operation
}.

(** [operations.extend( ... )] where [operations] is that dict: a [dict]
    has no [extend]. *)
Definition dict_extend (operations : updates_dict) (more : alter_table)
  : exn + updates_dict :=
  inl AttributeError.

(** [database.apply_operation( update_table_name, operation )], called on
    the class and not on [tracking_db]: the two arguments land on [self]
    and [table_name], and [operation] is missing. *)
Definition class_apply_operation (update_table_name : string)
  (operation : sub_operation) : exn + unit :=
  inl TypeError.

(** The locals of [_process] from line 131 on. *)
Record locals : Type := mk_locals {
  l_errors_1215 : list string;
  l_operations : option (list operation);
  l_fk_operations : list operation;
  l_tracking_db : database;
  l_tables_to_add : list string
}.

Section Mygration.
Variable db_to : database.

(** The body of the [for] loop of [_process_adds], lines 211-241. *)
Definition adds_body (new_table_name : string) (st : adds_state)
  : exn + adds_state :=
  new_table <-e getitem (db_tables db_to) new_table_name ;;
  let bad_constraints := unfulfilled_fks (st_tracking_db st) new_table in
  match bad_constraints with
  | [] =>
      tables_to_add <-e list_remove new_table_name (st_tables_to_add st) ;;
      let operations := (st_operations st ++ [create new_table])%list in
      tracking_db <-e add_table new_table (st_tracking_db st) ;;
      inr (mk_adds_state (st_errors_1215 st) operations (st_good_tables st)
             tracking_db tables_to_add)
  | _ :: _ =>
      if in_list new_table_name (st_good_tables st) then inr st
      else
        let broken_constraints := unfulfilled_fks db_to new_table in
        match broken_constraints with
        | [] =>
            inr (mk_adds_state (st_errors_1215 st) (st_operations st)
                   (new_table_name :: st_good_tables st)
                   (st_tracking_db st) (st_tables_to_add st))
        | _ :: _ =>
            tables_to_add <-e
              list_remove new_table_name (st_tables_to_add st) ;;
            inr (mk_adds_state
                   (st_errors_1215 st ++
                    map error (OrderedDict.values broken_constraints))%list
                   (st_operations st) (st_good_tables st)
                   (st_tracking_db st) tables_to_add)
        end
  end.

(** [for new_table_name in tables_to_add:] over the very list the body
    removes from.  The list iterator holds an index [i]: each round it
    yields [tables_to_add[i]] from the list as it is then, and stops once
    [i] is past its end.  The list never grows, so [fuel] rounds, [fuel]
    being its length when the loop starts, are all there can be. *)
Fixpoint sweep (fuel i : nat) (st : adds_state) : exn + adds_state :=
  match fuel with
  | O => inr st
  | S fuel' =>
      match nth_error (st_tables_to_add st) i with
      | None => inr st
      | Some new_table_name =>
          st' <-e adds_body new_table_name st ;;
          sweep fuel' (S i) st'
      end
  end.

(** [while tables_to_add and len( tables_to_add ) != last_number_to_add:] *)
Fixpoint adds_loop (fuel last_number_to_add : nat) (st : adds_state)
  : exn + adds_state :=
  match fuel with
  | O => inr st
  | S fuel' =>
      let n := List.length (st_tables_to_add st) in
      if negb (n =? 0)%nat && negb (n =? last_number_to_add)%nat then
        st' <-e sweep n 0 st ;;
        adds_loop fuel' n st'
      else inr st
  end.

(** Every sweep but the last shortens the list, so one more round than
    the list is long is enough. *)
Definition _process_adds (tracking_db : database)
  (tables_to_add : list string) : exn + adds_state :=
  adds_loop (S (List.length tables_to_add)) 0
    (mk_adds_state [] [] [] tracking_db tables_to_add).

(** [self.db_from.tables] *)
Definition db_from_dot_tables (db_from : option database)
  : exn + odict table :=
  match db_from with
  | Some d => inr (db_tables d)
  | None => inl AttributeError
  end.

Definition _process_updates (db_from : option database)
  (tracking_db : database) (tables_to_update : list string)
  : exn + updates_dict :=
  efold (fun operations update_table_name =>
      target_table <-e getitem (db_tables db_to) update_table_name ;;
      from_tables <-e db_from_dot_tables db_from ;;
      source_table <-e getitem from_tables update_table_name ;;
      more_operations <-e to source_table target_table true ;;
      match more_operations with
      | Flat _ => inl TypeError
      | Split more_operations =>
          operations <-e
            match fks more_operations with
            | Some alter =>
                operations <-e dict_extend operations alter ;;
                _ <-e efold (fun _ operation =>
                        class_apply_operation update_table_name operation)
                      (alt_operations alter) tt ;;
                inr operations
            | None => inr operations
            end ;;
          match kitchen_sink more_operations with
          | Some alter =>
              operations <-e dict_extend operations alter ;;
              _ <-e efold (fun _ operation =>
                      class_apply_operation update_table_name operation)
                    (alt_operations alter) tt ;;
              inr operations
          | None => inr operations
          end
      end)
    tables_to_update (mk_updates_dict [] []).

(** Lines 153-160: the second add pass.  [operations.extend] returns
    [None], which line 156 assigns to [operations]; [retrun] on line 160 is
    an unbound name. *)
Definition second_add_pass (l : locals) : exn + locals :=
  match l_tables_to_add l with
  | [] => inr l
  | _ :: _ =>
      st <-e _process_adds (l_tracking_db l) (l_tables_to_add l) ;;
      let errors_1215 := st_errors_1215 st in
      let more_operations := st_operations st in
      operations <-e
        match more_operations with
        | [] => inr (l_operations l)
        | _ :: _ =>
            _ <-e py_extend (l_operations l) more_operations ;;
            inr None
        end ;;
      match errors_1215 with
      | [] =>
          inr (mk_locals errors_1215 operations (l_fk_operations l)
                 (st_tracking_db st) (st_tables_to_add st))
      | _ :: _ =>
          _ <-e match l_fk_operations l with
                | [] => inr operations
                | _ :: _ => py_extend operations (l_fk_operations l)
                end ;;
          inl NameError
      end
  end.

(** Lines 168-177: tables still to add get created without the foreign
    keys that cannot be added yet; those are queued. *)
Definition break_cycle (table_to_add : string) (l : locals) : exn + locals :=
  new_table <-e getitem (db_tables db_to) table_to_add ;;
  let bad_constraints := unfulfilled_fks (l_tracking_db l) new_table in
  let new_table_copy := new_table in
  let create_fks := mk_alter_table table_to_add [] in
  stripped <-e
    efold (fun '(create_fks, new_table_copy) constraint =>
        let create_fks :=
          add_operation create_fks (AddConstraint (foreign_key constraint)) in
        match remove_constraint (Obj (foreign_key constraint))
                new_table_copy with
        | (inl e, _) => inl e
        | (inr _, new_table_copy) => inr (create_fks, new_table_copy)
        end)
      (OrderedDict.values bad_constraints) (create_fks, new_table_copy) ;;
  let '(create_fks, new_table_copy) := stripped in
  operations <-e py_append (l_operations l) (create new_table_copy) ;;
  inr (mk_locals (l_errors_1215 l) operations
         (l_fk_operations l ++ [AlterTable create_fks])%list
         (l_tracking_db l) (l_tables_to_add l)).

Definition break_cycles (l : locals) : exn + locals :=
  efold (fun l table_to_add => break_cycle table_to_add l)
    (l_tables_to_add l) l.

(** Lines 180-182 *)
Definition drop_table (table_to_remove : string) (l : locals)
  : exn + locals :=
  operations <-e py_append (l_operations l) (RemoveTable table_to_remove) ;;
  tracking_db <-e remove_table table_to_remove (l_tracking_db l) ;;
  inr (mk_locals (l_errors_1215 l) operations (l_fk_operations l)
         tracking_db (l_tables_to_add l)).

Definition drop_tables (tables_to_remove : list string) (l : locals)
  : exn + locals :=
  efold (fun l table_to_remove => drop_table table_to_remove l)
    tables_to_remove l.

(** Lines 185-189 *)
Definition add_back_fks (l : locals) : exn + plan :=
  operations <-e
    match l_fk_operations l with
    | [] => inr (l_operations l)
    | _ :: _ => py_extend (l_operations l) (l_fk_operations l)
    end ;;
  inr (mk_plan (l_errors_1215 l) operations).

(** Lines 162-189: what follows the second add pass. *)
Definition finish (tables_to_remove : list string) (l : locals)
  : exn + plan :=
  l <-e break_cycles l ;;
  l <-e drop_tables tables_to_remove l ;;
  add_back_fks l.

(** [copy.deepcopy( self.db_from ) if self.db_from else database()].  A
    [database] object is taken to be truthy, as an object of a class with
    neither [__bool__] nor [__len__] is, so [self.db_from] is falsy only
    when it is [None]. *)
Definition initial_tracking_db (db_from : option database) : database :=
  match db_from with
  | Some d => d
  | None => empty_database
  end.

(** [_process] from line 124 on, once the target has passed the check of
    lines 119-122 or needs none. *)
Definition _process_checked (db_from : option database) : exn + plan :=
  let tracking_db := initial_tracking_db db_from in
  let db_from_tables :=
    match db_from with Some d => db_tables d | None => [] end in
  let '(tables_to_add, tables_to_remove, tables_to_update) :=
    _differences db_from_tables (db_tables db_to) in
  st <-e _process_adds tracking_db tables_to_add ;;
  let errors_1215 := st_errors_1215 st in
  let operations := Some (st_operations st) in
  let tracking_db := st_tracking_db st in
  let tables_to_add := st_tables_to_add st in
  match errors_1215 with
  | _ :: _ => inr (mk_plan errors_1215 operations)
  | [] =>
      let fk_operations := [] in
      split_operations <-e
        _process_updates db_from tracking_db tables_to_update ;;
      operations <-e
        match upd_kitchen_sink split_operations with
        | [] => inr operations
        | _ :: _ => py_extend operations (upd_kitchen_sink split_operations)
        end ;;
      let fk_operations :=
        match upd_fks split_operations with
        | [] => fk_operations
        | _ :: _ => (fk_operations ++ upd_fks split_operations)%list
        end in
      l <-e second_add_pass
              (mk_locals errors_1215 operations fk_operations tracking_db
                 tables_to_add) ;;
      finish tables_to_remove l
  end.

(** [_process]: with a source database the target is first planned on its
    own ([check = mygration( self.db_to )]), and its 1215 errors, if any,
    are the whole answer. *)
Definition _process (db_from : option database) : exn + plan :=
  match db_from with
  | Some _ =>
      check <-e _process_checked None ;;
      match errors_1215 check with
      | _ :: _ => inr (mk_plan (errors_1215 check) (Some []))
      | [] => _process_checked db_from
      end
  | None => _process_checked None
  end.
End Mygration.

(** [mygration( db_to, db_from )] *)
Definition mygration (db_to : database) (db_from : option database)
  : exn + plan :=
  _process db_to db_from.

(** ** Example schemas, after the repository's tests *)

Definition int_column (name : string) (auto_increment : bool) : column :=
  mk_column name "INT" (Some 10%Z) true false None auto_increment None None.
Definition varchar_column (name : string) : column :=
  mk_column name "VARCHAR" (Some 255%Z) false false (Some "") false None None.
Definition text_column (name : string) : column :=
  mk_column name "TEXT" None false true None false None None.

Definition primary_key : index := mk_index "PRIMARY" ["id"] Primary.
Definition key (name column : string) : index :=
  mk_index name [column] Regular.
Definition fk (name column foreign_table : string) (on_delete : fk_action)
  : constraint :=
  mk_constraint name [column] foreign_table ["id"] on_delete Cascade.

Definition make_table (name : string) (columns : list column)
  (indexes : list index) (constraints : list constraint) : table :=
  with_constraints (map (fun c => (con_name c, c)) constraints)
    (with_indexes (map (fun i => (idx_name i, i)) indexes)
       (with_columns (map (fun c => (col_name c, c)) columns)
          (new_table name))).

Definition make_database (tables : list table) : database :=
  {| db_tables := map (fun t => (tbl_name t, t)) tables |}.

Definition accounts : table :=
  make_table "accounts" [int_column "id" true; varchar_column "name"]
    [primary_key] [].

Definition histories : table :=
  make_table "histories" [int_column "id" true; varchar_column "name"]
    [primary_key] [].

Definition logs : table :=
  make_table "logs" [int_column "id" true; varchar_column "name"]
    [primary_key] [].

(** [tasks] of [test_simple_modify._get_db1], and with [subject] added. *)
Definition tasks : table :=
  make_table "tasks"
    [int_column "id" true; int_column "account_id" false;
     int_column "repeating_task_id" false; varchar_column "name"]
    [primary_key; key "account_id_tasks" "account_id";
     key "repeating_task_id_tasks" "repeating_task_id"]
    [fk "account_id_tasks_fk" "account_id" "accounts" Cascade].

Definition tasks_with_subject : table :=
  make_table "tasks"
    [int_column "id" true; int_column "account_id" false;
     int_column "repeating_task_id" false; varchar_column "name";
     text_column "subject"]
    [primary_key; key "account_id_tasks" "account_id";
     key "repeating_task_id_tasks" "repeating_task_id"]
    [fk "account_id_tasks_fk" "account_id" "accounts" Cascade].

(** The two mutually dependent tables of [test_add_conflicting_fks]. *)
Definition tasks_cyclic : table :=
  make_table "tasks"
    [int_column "id" true; int_column "account_id" false;
     int_column "repeating_task_id" false; varchar_column "name"]
    [primary_key; key "account_id_tasks" "account_id";
     key "repeating_task_id_tasks" "repeating_task_id"]
    [fk "account_id_tasks_fk" "account_id" "accounts" Cascade;
     fk "repeating_task_id_tasks_fk" "repeating_task_id" "repeating_tasks"
       Cascade].

Definition repeating_tasks : table :=
  make_table "repeating_tasks"
    [int_column "id" true; int_column "account_id" false;
     int_column "task_id" false; varchar_column "name"]
    [primary_key; key "account_id_rts" "account_id";
     key "task_id_rts" "task_id"]
    [fk "account_id_tasks_fk" "account_id" "accounts" Cascade;
     fk "task_id_rts" "task_id" "tasks" Cascade].

(** The two versions of [tasks] in [test_all_constraint_adjustments]. *)
Definition tasks_s5_columns : list column :=
  [int_column "id" true; int_column "account_id" false;
   int_column "task_id" false; int_column "repeating_task_id" false;
   varchar_column "name"].
Definition tasks_s5_indexes : list index :=
  [primary_key; key "account_id_tasks" "account_id";
   key "repeating_task_id_tasks" "repeating_task_id"; key "task_id" "task_id"].

Definition tasks_s5_from : table :=
  make_table "tasks" tasks_s5_columns tasks_s5_indexes
    [fk "account_id_tasks_fk" "account_id" "accounts" Cascade;
     fk "task_id_fk" "task_id" "tasks" Cascade].
Definition tasks_s5_to : table :=
  make_table "tasks" tasks_s5_columns tasks_s5_indexes
    [fk "account_id_tasks_fk" "account_id" "accounts" Restrict;
     fk "task_id_2_fk" "task_id" "tasks" Cascade].

(** A table whose foreign key points at a table that exists nowhere. *)
Definition orphans : table :=
  make_table "orphans" [int_column "id" true; int_column "owner_id" false]
    [primary_key; key "owner_id_orphans" "owner_id"]
    [fk "owner_id_fk" "owner_id" "owners" Cascade].

Definition db_tasks_accounts : database := make_database [tasks; accounts].
Definition db_with_subject : database :=
  make_database [tasks_with_subject; accounts; histories].
Definition db_s5_from : database := make_database [tasks_s5_from; accounts].
Definition db_s5_to : database := make_database [tasks_s5_to; accounts].
Definition db_three_plain : database :=
  make_database [accounts; histories; logs].
Definition db_cyclic : database :=
  make_database [tasks_cyclic; repeating_tasks; accounts].
Definition db_orphans : database := make_database [orphans].

(** ** Notions used to state the planner's properties *)

(** A pending table the add pass can do nothing about: its foreign keys
    cannot all be created in [tracking_db] yet, but they can in the
    target. *)
Definition stuck (db_to tracking_db : database) (name : string) : Prop :=
  exists t, getitem (db_tables db_to) name = inr t /\
            unfulfilled_fks tracking_db t <> [] /\
            unfulfilled_fks db_to t = [].

(** Every name recorded in [good_tables] has passed the check against the
    target. *)
Definition good_tables_checked (db_to : database) (st : adds_state) : Prop :=
  forall name t, In name (st_good_tables st) ->
    getitem (db_tables db_to) name = inr t ->
    unfulfilled_fks db_to t = [].

(** *** Well-formed inputs

    An [OrderedDict] has each key once; the parser files tables under
    their names and constraints under theirs. *)

Definition wf_table (t : table) : Prop :=
  NoDup (OrderedDict.keys (tbl_indexes t)) /\
  NoDup (OrderedDict.keys (tbl_constraints t)) /\
  forall k c, In (k, c) (tbl_constraints t) -> con_name c = k.

Definition wf_database (db : database) : Prop :=
  NoDup (OrderedDict.keys (db_tables db)) /\
  forall k t, In (k, t) (db_tables db) -> tbl_name t = k /\ wf_table t.

Definition wf_source (db_from : option database) : Prop :=
  match db_from with
  | Some d => wf_database d
  | None => True
  end.

(** *** Foreign keys added by an operation, and their satisfiability *)

(** The foreign keys an operation adds, each with the name of its table. *)
Definition fks_added_by (op : operation) : list (string * constraint) :=
  match op with
  | CreateTable t =>
      map (fun c => (tbl_name t, c)) (OrderedDict.values (tbl_constraints t))
  | AlterTable a =>
      flat_map (fun o => match o with
                         | AddConstraint c => [(alt_table a, c)]
                         | ChangeConstraint c => [(alt_table a, c)]
                         | _ => []
                         end)
        (alt_operations a)
  | RemoveTable _ => []
  end.

(** The foreign key [snd x] of the table named [fst x] can be created in
    [db]: [unfulfilled_fks] has nothing against it. *)
Definition satisfiable (db : database) (x : string * constraint) : Prop :=
  exists t, OrderedDict.get (fst x) (db_tables db) = Some t /\
            fk_error db t (snd x) = None.

(** Replaying [ops] from [db] succeeds and ends in [db'], and after each
    operation every foreign key added so far ([added] before the run) is
    satisfiable. *)
Fixpoint safe_run (db : database) (added : list (string * constraint))
  (ops : list operation) (db' : database) : Prop :=
  match ops with
  | [] => db' = db
  | op :: ops' =>
      exists db1,
        apply_operation op db = inr db1 /\
        (forall x, In x (added ++ fks_added_by op) -> satisfiable db1 x) /\
        safe_run db1 (added ++ fks_added_by op) ops' db'
  end.

(** The three checks of [fk_error] on a foreign table that exists. *)
Definition fk_holds (local : odict column) (foreign : table) (c : constraint)
  : bool :=
  forallb (fun fc => OrderedDict.mem fc (tbl_columns foreign))
    (con_foreign_columns c) &&
  existsb (fun index => is_prefix (con_foreign_columns c) (idx_columns index))
    (OrderedDict.values (tbl_indexes foreign)) &&
  ((List.length (con_local_columns c) =?
    List.length (con_foreign_columns c))%nat &&
   forallb (compatible_columns local (tbl_columns foreign))
     (combine (con_local_columns c) (con_foreign_columns c))).

(** Two tables that [unfulfilled_fks] cannot tell apart: the same columns
    under the same names, and the same indexes. *)
Definition same_shape (t1 t2 : table) : Prop :=
  (forall k, OrderedDict.get k (tbl_columns t1) =
             OrderedDict.get k (tbl_columns t2)) /\
  (forall index, In index (OrderedDict.values (tbl_indexes t1)) <->
                 In index (OrderedDict.values (tbl_indexes t2))).

(** What holds of the state of an add pass started on [tracking0] with
    [pending0]: its operations replay safely from [tracking0] to its
    tracking database; the pending names are distinct, come from
    [pending0] and are not in the tracking database; the tracking database
    has grown from [tracking0] by names of [pending0] only; as long as no
    error is reported each name of [pending0] is either still pending or
    was created as the target has it; and the operations are
    [CREATE TABLE]s of target tables. *)
Definition pass_invariant (db_to tracking0 : database)
  (pending0 : list string) (st : adds_state) : Prop :=
  safe_run tracking0 [] (st_operations st) (st_tracking_db st) /\
  NoDup (OrderedDict.keys (db_tables (st_tracking_db st))) /\
  NoDup (st_tables_to_add st) /\
  (forall n, In n (st_tables_to_add st) ->
     In n pending0 /\
     OrderedDict.mem n (db_tables (st_tracking_db st)) = false) /\
  (forall k t, OrderedDict.get k (db_tables tracking0) = Some t ->
     OrderedDict.get k (db_tables (st_tracking_db st)) = Some t) /\
  (forall k, In k (OrderedDict.keys (db_tables (st_tracking_db st))) ->
     In k (OrderedDict.keys (db_tables tracking0)) \/ In k pending0) /\
  (st_errors_1215 st = [] ->
   forall n, In n pending0 ->
     In n (st_tables_to_add st) \/
     exists t, OrderedDict.get n (db_tables db_to) = Some t /\
               OrderedDict.get n (db_tables (st_tracking_db st)) = Some t /\
               In (CreateTable t) (st_operations st)) /\
  (forall op, In op (st_operations st) ->
     exists t, op = CreateTable t /\
               OrderedDict.get (tbl_name t) (db_tables db_to) = Some t).

(** [x] is a foreign key of the target: a constraint of the target's
    table of that name. *)
Definition from_target (db_to : database) (x : string * constraint) : Prop :=
  exists t k, OrderedDict.get (fst x) (db_tables db_to) = Some t /\
              In (k, snd x) (tbl_constraints t).

(** Every foreign key of the target points at a table of the target. *)
Definition targets_in_target (db_to : database) : Prop :=
  forall k t kc c,
    OrderedDict.get k (db_tables db_to) = Some t ->
    In (kc, c) (tbl_constraints t) ->
    OrderedDict.mem (con_foreign_table c) (db_tables db_to) = true.

(** The queued [ALTER TABLE] of a table created without the foreign keys
    that [tracking_db] could not take. *)
Definition queued_alter (db_to tracking_db : database) (name : string)
  (op : operation) : Prop :=
  exists t, OrderedDict.get name (db_tables db_to) = Some t /\
    op = AlterTable (mk_alter_table name
           (map (fun pr => AddConstraint (foreign_key pr))
              (OrderedDict.values (unfulfilled_fks tracking_db t)))).

(** [db'] has every table of [db], unchanged. *)
Definition extends (db db' : database) : Prop :=
  forall k t, OrderedDict.get k (db_tables db) = Some t ->
              OrderedDict.get k (db_tables db') = Some t.

(** The well-formedness conditions are decidable. *)
Fixpoint nodupb (l : list string) : bool :=
  match l with
  | [] => true
  | x :: l' => negb (in_list x l') && nodupb l'
  end.

Definition wf_tableb (t : table) : bool :=
  nodupb (OrderedDict.keys (tbl_indexes t)) &&
  nodupb (OrderedDict.keys (tbl_constraints t)) &&
  forallb (fun kc => String.eqb (con_name (snd kc)) (fst kc))
    (tbl_constraints t).

Definition wf_databaseb (db : database) : bool :=
  nodupb (OrderedDict.keys (db_tables db)) &&
  forallb (fun kt => String.eqb (tbl_name (snd kt)) (fst kt) &&
                     wf_tableb (snd kt))
    (db_tables db).

(** A migration with every kind of step: [histories] can be created at
    once, [tasks] and [repeating_tasks] depend on each other, [logs] goes
    away. *)
Definition db_accounts_logs : database := make_database [accounts; logs].
Definition db_cyclic_histories : database :=
  make_database [tasks_cyclic; repeating_tasks; accounts; histories].

Definition tasks_stripped : table :=
  make_table "tasks"
    [int_column "id" true; int_column "account_id" false;
     int_column "repeating_task_id" false; varchar_column "name"]
    [primary_key; key "account_id_tasks" "account_id";
     key "repeating_task_id_tasks" "repeating_task_id"]
    [fk "account_id_tasks_fk" "account_id" "accounts" Cascade].

Definition repeating_tasks_stripped : table :=
  make_table "repeating_tasks"
    [int_column "id" true; int_column "account_id" false;
     int_column "task_id" false; varchar_column "name"]
    [primary_key; key "account_id_rts" "account_id";
     key "task_id_rts" "task_id"]
    [fk "account_id_tasks_fk" "account_id" "accounts" Cascade].

Definition cyclic_histories_operations : list operation :=
  [ CreateTable histories;
    CreateTable tasks_stripped;
    CreateTable repeating_tasks_stripped;
    RemoveTable "logs";
    AlterTable (mk_alter_table "tasks"
      [AddConstraint (fk "repeating_task_id_tasks_fk" "repeating_task_id"
                        "repeating_tasks" Cascade)]);
    AlterTable (mk_alter_table "repeating_tasks"
      [AddConstraint (fk "task_id_rts" "task_id" "tasks" Cascade)]) ].

(** ** [mygration.__len__], [__bool__] and [__iter__]

    The properties [operations] and [errors_1215] of a [mygration] are the
    two fields of [plan]. *)

(** [len( self._operations )]; [len( None )] raises [TypeError]. *)
Definition __len__ (self : plan) : exn + nat :=
  match operations self with
  | Some l => inr (List.length l)
  | None => inl TypeError
  end.

(** [True if len( self._operations ) else False] *)
Definition __bool__ (self : plan) : exn + bool :=
  n <-e __len__ self ;;
  inr (if (n =? 0)%nat then false else true).

(** [self._operations.__iter__()]: the operations, in order; [None] has no
    [__iter__]. *)
Definition __iter__ (self : plan) : exn + list operation :=
  match operations self with
  | Some l => inr l
  | None => inl AttributeError
  end.

(** [msg] is the message of a foreign key of a table of [db] that cannot
    be created in [db] itself. *)
Definition broken_fk_message (db : database) (msg : string) : Prop :=
  exists n t pr,
    OrderedDict.get n (db_tables db) = Some t /\
    In pr (OrderedDict.values (unfulfilled_fks db t)) /\
    error pr = msg.

(** Every table of the tracking database is a table of the target, all of
    whose foreign keys can be created in the target. *)
Definition tracking_from_target (db_to : database) (st : adds_state) : Prop :=
  forall k t,
    OrderedDict.get k (db_tables (st_tracking_db st)) = Some t ->
    OrderedDict.get k (db_tables db_to) = Some t /\
    unfulfilled_fks db_to t = [].

(** Each name of [pending0] is still pending, or its table is in the
    tracking database, or the errors of its foreign keys are reported. *)
Definition accounted_for (db_to : database) (pending0 : list string)
  (st : adds_state) : Prop :=
  forall n, In n pending0 ->
    In n (st_tables_to_add st) \/
    OrderedDict.mem n (db_tables (st_tracking_db st)) = true \/
    exists t,
      OrderedDict.get n (db_tables db_to) = Some t /\
      forall pr, In pr (OrderedDict.values (unfulfilled_fks db_to t)) ->
                 In (error pr) (st_errors_1215 st).

(** What the add pass has created so far: its operations are the
    [CREATE TABLE]s of target tables, and as long as no error is reported
    their names together with the names still pending are the names the
    pass started with. *)
Definition created_so_far (db_to : database) (pending0 : list string)
  (st : adds_state) : Prop :=
  exists created : list table,
    st_operations st = map CreateTable created /\
    (forall t, In t created ->
       OrderedDict.get (tbl_name t) (db_tables db_to) = Some t) /\
    (st_errors_1215 st = [] ->
     Permutation (map tbl_name created ++ st_tables_to_add st) pending0).

(** The table [t] without the foreign keys [cs], and the [ALTER TABLE]
    that adds them to it: the two operations that stand for a table whose
    foreign keys [cs] have to wait. *)
Definition without_fks (cs : list constraint) (t : table) : table :=
  with_constraints
    (filter (fun kc => negb (existsb (fun c => String.eqb (con_name c) (fst kc))
                               cs))
       (tbl_constraints t)) t.

Definition add_fks (cs : list constraint) (t : table) : operation :=
  AlterTable (mk_alter_table (tbl_name t) (map AddConstraint cs)).

(** [t'] has the name, the columns and the indexes of [t], and the same
    foreign keys under the same names (their order may differ). *)
Definition same_definitions (t' t : table) : Prop :=
  tbl_name t' = tbl_name t /\
  tbl_columns t' = tbl_columns t /\
  tbl_indexes t' = tbl_indexes t /\
  forall k, OrderedDict.get k (tbl_constraints t') =
            OrderedDict.get k (tbl_constraints t).

(** ** The operations of a diff, loop by loop

    What each loop of [table.to] adds for one key: nothing or one
    operation. *)
Definition one_op {V} (d : odict V) (mk : V -> sub_operation) (key : string)
  : list sub_operation :=
  match OrderedDict.get key d with
  | Some v => [mk v]
  | None => []
  end.

Definition changed_op {V} (same : V -> V -> bool) (a b : odict V)
  (mk : V -> sub_operation) (key : string) : list sub_operation :=
  match OrderedDict.get key a, OrderedDict.get key b with
  | Some x, Some y => if same x y then [] else [mk y]
  | _, _ => []
  end.

Definition added_column_op (comparison_table : table) (new_column : string)
  : list sub_operation :=
  match OrderedDict.get new_column (tbl_columns comparison_table),
        column_before comparison_table new_column with
  | Some c, inr before => [AddColumn c before]
  | _, _ => []
  end.

(** The operations of [self.to( comparison_table )], in the order the
    unsplit [alter_table] carries them. *)
Definition to_operations (self comparison_table : table)
  : list sub_operation :=
  let '(added_columns, removed_columns, overlap_columns) :=
    _differences (tbl_columns self) (tbl_columns comparison_table) in
  let '(added_keys, removed_keys, overlap_keys) :=
    _differences (tbl_indexes self) (tbl_indexes comparison_table) in
  let '(added_constraints, removed_constraints, overlap_constraints) :=
    _differences (tbl_constraints self) (tbl_constraints comparison_table) in
  (flat_map (added_column_op comparison_table) added_columns ++
   flat_map (changed_op str_eq_column (tbl_columns self)
               (tbl_columns comparison_table) ChangeColumn) overlap_columns ++
   flat_map (one_op (tbl_columns self) RemoveColumn) removed_columns ++
   flat_map (one_op (tbl_indexes comparison_table) AddKey) added_keys ++
   flat_map (one_op (tbl_indexes self) RemoveKey) removed_keys ++
   flat_map (changed_op str_eq_index (tbl_indexes self)
               (tbl_indexes comparison_table) ChangeKey) overlap_keys ++
   flat_map (one_op (tbl_constraints comparison_table) AddConstraint)
     added_constraints ++
   flat_map (changed_op str_eq_constraint (tbl_constraints self)
               (tbl_constraints comparison_table) ChangeConstraint)
     overlap_constraints ++
   flat_map (one_op (tbl_constraints self) RemoveConstraint)
     removed_constraints)%list.

(** Each column, index and constraint is filed once, under its name. *)
Definition well_keyed (t : table) : Prop :=
  NoDup (OrderedDict.keys (tbl_columns t)) /\
  NoDup (OrderedDict.keys (tbl_indexes t)) /\
  NoDup (OrderedDict.keys (tbl_constraints t)) /\
  (forall k c, In (k, c) (tbl_columns t) -> col_name c = k) /\
  (forall k i, In (k, i) (tbl_indexes t) -> idx_name i = k) /\
  (forall k c, In (k, c) (tbl_constraints t) -> con_name c = k).

(** While the operations of a diff are applied: the mapping [d] holds what
    the target [B] holds under the keys already dealt with, and what the
    source [A] holds under the others. *)
Definition synced {V} (B A d : odict V) (done : list string) : Prop :=
  NoDup (OrderedDict.keys d) /\
  forall k, OrderedDict.get k d =
            if in_list k done then OrderedDict.get k B
            else OrderedDict.get k A.

(** A source in which [accounts] has no index yet: [tasks] of the target
    cannot be created before the primary key of [accounts] is added. *)
Definition accounts_unindexed : table :=
  make_table "accounts" [int_column "id" true; varchar_column "name"] [] [].
Definition db_accounts_unindexed : database :=
  make_database [accounts_unindexed].

(** The planner at line 153, as the update phase is meant to leave it for
    that source and the target [db_tasks_accounts]: the primary key of
    [accounts] is planned and applied to the tracking database, and
    [tasks] is still to be added. *)
Definition add_primary_key : operation :=
  AlterTable (mk_alter_table "accounts" [AddKey primary_key]).
Definition after_update_phase : locals :=
  mk_locals [] (Some [add_primary_key]) [] (make_database [accounts])
    ["tasks"].

(* ================================================================== *)
(** * Properties *)

(** ** Association-list facts *)

Lemma mem_set_other {V} (k k' : string) (v : V) (d : odict V) :
  k <> k' ->
  OrderedDict.mem k (OrderedDict.set k' v d) = OrderedDict.mem k d.
Proof.
  intros Hne. unfold OrderedDict.mem.
  induction d as [|[k0 v0] d IH]; simpl.
  - destruct (String.eqb_spec k k'); [contradiction | reflexivity].
  - destruct (String.eqb_spec k' k0); simpl.
    + subst. destruct (String.eqb_spec k k0); [contradiction | reflexivity].
    + destruct (String.eqb_spec k k0); [reflexivity | exact IH].
Qed.

Lemma mem_set_same {V} (k : string) (v : V) (d : odict V) :
  OrderedDict.mem k (OrderedDict.set k v d) = true.
Proof.
  unfold OrderedDict.mem.
  induction d as [|[k0 v0] d IH]; simpl.
  - rewrite String.eqb_refl. reflexivity.
  - destruct (String.eqb_spec k k0); simpl.
    + subst. rewrite String.eqb_refl. reflexivity.
    + destruct (String.eqb_spec k k0); [contradiction | exact IH].
Qed.

(** ** [add_column] *)

Ltac run_M :=
  unfold bind, get_self, modify_self, raise, ret, lift in *; simpl in *.

(** C10.  When [add_column] raises, whatever the reason (the name is taken,
    or the column to go after does not exist), the table it leaves behind
    is the table it was called on: in particular the column mapping has the
    same names in the same order. *)
Theorem add_column_failure_atomic :
  forall (c : column) (pos : position) (t t' : table) (e : exn),
    add_column c pos t = (inl e, t') ->
    t' = t /\ tbl_columns t' = tbl_columns t.
Proof.
  intros c pos t t' e H.
  assert (Heq : t' = t); [| split; [exact Heq | now rewrite Heq]].
  unfold add_column in H. run_M.
  destruct (OrderedDict.mem (col_name c) (tbl_columns t)).
  - now inversion H.
  - destruct (py_not pos); [discriminate|].
    destruct (eq_True pos); [discriminate|].
    match type of H with context [fold_left ?f ?l ?a] =>
      destruct (fold_left f l a) as [new_columns found] end.
    destruct found; simpl in H; [discriminate | now inversion H].
Qed.

Lemma add_column_failure_atomic_witness :
  add_column tasks_id PosFalse two_columns = (inl ValueError, two_columns) /\
  tbl_columns two_columns = [("id", tasks_id); ("name", tasks_name)].
Proof.
  split; [reflexivity|].
  exact (proj2 (add_column_failure_atomic tasks_id PosFalse two_columns
                  two_columns ValueError eq_refl)).
Defined.

(** The two ways [add_column] can raise, and no other. *)
Lemma add_column_raises_iff :
  forall (c : column) (pos : position) (t : table),
    (exists e t', add_column c pos t = (inl e, t')) <->
    (OrderedDict.mem (col_name c) (tbl_columns t) = true \/
     (py_not pos = false /\ eq_True pos = false /\
      forall key, In key (OrderedDict.keys (tbl_columns t)) ->
                  eq_position key pos = false)).
Proof.
  intros c pos t. unfold add_column. run_M.
  destruct (OrderedDict.mem (col_name c) (tbl_columns t)) eqn:Hmem.
  { split; [now left | intros _; now exists ValueError, t]. }
  destruct (py_not pos) eqn:Hnot.
  { split; [intros (e & t' & H); discriminate
           | intros [H | (H & _)]; discriminate]. }
  destruct (eq_True pos) eqn:HT.
  { split; [intros (e & t' & H); discriminate
           | intros [H | (_ & H & _)]; discriminate]. }
  assert (Hfold : forall d acc,
    snd (fold_left (fun '(new_columns, found) '(key, value) =>
          let new_columns := OrderedDict.set key value new_columns in
          if eq_position key pos
          then (OrderedDict.set (col_name c) c new_columns, true)
          else (new_columns, found)) d acc) = false <->
    (snd acc = false /\
     forall key, In key (OrderedDict.keys d) -> eq_position key pos = false)).
  { induction d as [|[k v] d IH]; intros [nc f]; simpl.
    - tauto.
    - destruct (eq_position k pos) eqn:Hk; rewrite IH; simpl.
      + split; [intros [H _]; discriminate|].
        intros [_ H]. specialize (H k (or_introl eq_refl)). congruence.
      + split.
        * intros [Hf H]. split; [exact Hf|]. intros key [<-|Hin]; auto.
        * intros [Hf H]. split; [exact Hf|]. intros key Hin. auto. }
  specialize (Hfold (tbl_columns t) ([], false)).
  match goal with |- context [fold_left ?f ?l ?a] =>
    destruct (fold_left f l a) as [new_columns found] end.
  simpl in Hfold. destruct found; simpl.
  - split; [intros (e & t' & H); discriminate|].
    intros [H | (_ & _ & H)]; [discriminate|].
    assert (true = false) by (apply Hfold; auto). discriminate.
  - split; [|intros _; now exists ValueError, t].
    intros _. right. repeat split; auto. apply Hfold. reflexivity.
Qed.

(** ** The key methods once the set of indexed columns exists *)

Example keyed_tasks_cached_cache :
  column_is_indexed (Str "name") keyed_tasks = (inr true, keyed_tasks_cached) /\
  tbl_indexed_columns keyed_tasks_cached = Some ["name"].
Proof. split; reflexivity. Qed.

(** C7.  On a table whose set of indexed columns has been built, the three
    key methods raise although their preconditions hold: [add_key] of a new
    name and [remove_key] of an existing name raise [AttributeError] after
    having changed the indexes, [change_key] of an existing name raises it
    before changing anything.  ([ValueError] is what a violated precondition
    raises.) *)
Theorem key_methods_raise_with_precondition_met :
  OrderedDict.mem "id_key" (tbl_indexes keyed_tasks_cached) = false /\
  add_key id_key keyed_tasks_cached =
    (inl AttributeError,
     with_indexes [("name_key", name_key); ("id_key", id_key)]
       keyed_tasks_cached) /\
  OrderedDict.mem "name_key" (tbl_indexes keyed_tasks_cached) = true /\
  remove_key (Str "name_key") keyed_tasks_cached =
    (inl AttributeError, with_indexes [] keyed_tasks_cached) /\
  remove_key (Obj name_key) keyed_tasks_cached =
    (inl AttributeError, with_indexes [] keyed_tasks_cached) /\
  change_key name_id_key keyed_tasks_cached =
    (inl AttributeError, keyed_tasks_cached).
Proof. repeat split. Qed.

(** The same on every table: with the set built, a key method whose
    precondition holds never returns. *)
Lemma add_key_cached_raises (key : index) (t : table) (s : list string) :
  tbl_indexed_columns t = Some s ->
  exists e t', add_key key t = (inl e, t').
Proof.
  intros Hs. unfold add_key. run_M.
  destruct (OrderedDict.mem (idx_name key) (tbl_indexes t)); [eauto|].
  rewrite Hs. destruct (idx_columns key); simpl; eauto.
Qed.

Lemma remove_key_cached_raises (key : str_or index) (t : table)
  (s : list string) :
  tbl_indexed_columns t = Some s ->
  exists e t', remove_key key t = (inl e, t').
Proof.
  intros Hs. unfold remove_key. run_M.
  destruct (OrderedDict.mem _ (tbl_indexes t)); simpl; [|eauto].
  rewrite Hs. simpl. eauto.
Qed.

Lemma change_key_cached_raises (new_key : index) (t : table)
  (s : list string) :
  tbl_indexed_columns t = Some s ->
  exists e t', change_key new_key t = (inl e, t').
Proof.
  intros Hs. unfold change_key. run_M.
  destruct (OrderedDict.mem _ (tbl_indexes t)); simpl; [|eauto].
  rewrite Hs. unfold getitem.
  destruct (OrderedDict.get _ _) as [old|]; simpl; [|eauto].
  destruct (idx_columns old); simpl; eauto.
Qed.

(** With the set not built yet the key methods do what their docstrings
    say: they raise [ValueError] exactly on a violated precondition. *)
Lemma add_key_uncached (key : index) (t : table) :
  tbl_indexed_columns t = None ->
  add_key key t =
    if OrderedDict.mem (idx_name key) (tbl_indexes t)
    then (inl ValueError, t)
    else (inr tt, with_indexes
            (OrderedDict.set (idx_name key) key (tbl_indexes t)) t).
Proof.
  intros Hs. unfold add_key. run_M.
  destruct (OrderedDict.mem _ (tbl_indexes t)); [reflexivity|].
  now rewrite Hs.
Qed.

Lemma remove_key_uncached (key : str_or index) (t : table) :
  tbl_indexed_columns t = None ->
  remove_key key t =
    if OrderedDict.mem (name_of idx_name key) (tbl_indexes t)
    then (inr tt, with_indexes
            (OrderedDict.pop (name_of idx_name key) (tbl_indexes t)) t)
    else (inl ValueError, t).
Proof.
  intros Hs. unfold remove_key. run_M.
  destruct (OrderedDict.mem _ (tbl_indexes t)); simpl; [|reflexivity].
  now rewrite Hs.
Qed.

Lemma change_key_uncached (new_key : index) (t : table) :
  tbl_indexed_columns t = None ->
  change_key new_key t =
    if OrderedDict.mem (idx_name new_key) (tbl_indexes t)
    then (inr tt, with_indexes
            (OrderedDict.set (idx_name new_key) new_key (tbl_indexes t)) t)
    else (inl ValueError, t).
Proof.
  intros Hs. unfold change_key. run_M.
  destruct (OrderedDict.mem _ (tbl_indexes t)); simpl; [|reflexivity].
  rewrite Hs. simpl. rewrite Hs. reflexivity.
Qed.

(** The column and constraint methods raise [ValueError] exactly on a
    violated precondition, in every state of the table. *)
Lemma remove_column_spec (column_name : str_or column) (t : table) :
  remove_column column_name t =
    if OrderedDict.mem (name_of col_name column_name) (tbl_columns t)
    then (inr tt, with_columns
            (OrderedDict.pop (name_of col_name column_name) (tbl_columns t)) t)
    else (inl ValueError, t).
Proof.
  unfold remove_column. run_M.
  now destruct (OrderedDict.mem _ (tbl_columns t)).
Qed.

Lemma change_column_spec (new_column : column) (t : table) :
  change_column new_column t =
    if OrderedDict.mem (col_name new_column) (tbl_columns t)
    then (inr tt, with_columns
            (OrderedDict.set (col_name new_column) new_column
               (tbl_columns t)) t)
    else (inl ValueError, t).
Proof.
  unfold change_column. run_M.
  now destruct (OrderedDict.mem _ (tbl_columns t)).
Qed.

Lemma add_constraint_spec (c : constraint) (t : table) :
  add_constraint c t =
    if OrderedDict.mem (con_name c) (tbl_constraints t)
    then (inl ValueError, t)
    else (inr tt, with_constraints
            (OrderedDict.set (con_name c) c (tbl_constraints t)) t).
Proof.
  unfold add_constraint. run_M.
  now destruct (OrderedDict.mem _ (tbl_constraints t)).
Qed.

Lemma remove_constraint_spec (c : str_or constraint) (t : table) :
  remove_constraint c t =
    if OrderedDict.mem (name_of con_name c) (tbl_constraints t)
    then (inr tt, with_constraints
            (OrderedDict.pop (name_of con_name c) (tbl_constraints t)) t)
    else (inl ValueError, t).
Proof.
  unfold remove_constraint. run_M.
  now destruct (OrderedDict.mem _ (tbl_constraints t)).
Qed.

Lemma change_constraint_spec (new_constraint : constraint) (t : table) :
  change_constraint new_constraint t =
    if OrderedDict.mem (con_name new_constraint) (tbl_constraints t)
    then (inr tt, with_constraints
            (OrderedDict.set (con_name new_constraint) new_constraint
               (tbl_constraints t)) t)
    else (inl ValueError, t).
Proof.
  unfold change_constraint. run_M.
  now destruct (OrderedDict.mem _ (tbl_constraints t)).
Qed.

(** ** [column_is_indexed] and its cached set *)

Lemma in_list_In (c : string) (l : list string) :
  in_list c l = true <-> In c l.
Proof.
  unfold in_list. rewrite existsb_exists. split.
  - intros (x & Hin & Heq). apply String.eqb_eq in Heq. now subst.
  - intros Hin. exists c. split; [exact Hin | apply String.eqb_refl].
Qed.

Lemma In_set_add (c x : string) (l : list string) :
  In c (set_add x l) <-> c = x \/ In c l.
Proof.
  unfold set_add. destruct (in_list x l) eqn:Hx.
  - apply in_list_In in Hx. split; [now right | intros [->|H]; assumption].
  - simpl. split; intros [H|H]; auto.
Qed.

Lemma In_fold_set_add (c : string) (cs : list string) :
  In c (fold_right set_add [] cs) <-> In c cs.
Proof.
  induction cs as [|x cs IH]; simpl; [tauto|].
  rewrite In_set_add, IH. split; intros [H|H]; auto.
Qed.

Lemma first_columns_spec (l : list index) (cs : list string) (c : string) :
  first_columns l = inr cs ->
  (In c cs <-> exists index, In index l /\ leads c index).
Proof.
  revert cs. induction l as [|i l IH]; intros cs H; simpl in H.
  - inversion H. simpl. split; [tauto | intros (? & [] & _)].
  - unfold leads in *. destruct (idx_columns i) as [|c0 rest] eqn:Hi;
      simpl in H; [discriminate|].
    destruct (first_columns l) as [e|cs']; simpl in H; [discriminate|].
    inversion H; subst cs. simpl. rewrite (IH cs' eq_refl). split.
    + intros [<-|(j & Hj & Hc)].
      * exists i. rewrite Hi. auto.
      * exists j. auto.
    + intros (j & [<-|Hj] & Hc).
      * rewrite Hi in Hc. simpl in Hc. left. congruence.
      * right. eauto.
Qed.

Lemma first_columns_total (l : list index) :
  Forall (fun index => idx_columns index <> []) l ->
  exists cs, first_columns l = inr cs.
Proof.
  induction 1 as [|i l Hi _ (cs & IH)]; simpl; [eauto|].
  destruct (idx_columns i); [contradiction|]. simpl. rewrite IH. simpl. eauto.
Qed.

(** What a call of [column_is_indexed] that returns leaves behind. *)
Lemma column_is_indexed_returns (column : str_or column) (t t' : table)
  (b : bool) :
  cache_coherent t ->
  column_is_indexed column t = (inr b, t') ->
  cache_coherent t' /\
  tbl_columns t' = tbl_columns t /\ tbl_indexes t' = tbl_indexes t /\
  (b = true <-> is_indexed t (name_of col_name column)).
Proof.
  unfold column_is_indexed, cache_coherent, is_indexed. intros Hc H. run_M.
  destruct (OrderedDict.mem _ (tbl_columns t)) eqn:Hmem; simpl in H.
  2:{ inversion H; subst. repeat split; auto; try discriminate.
      intros [Hm _]. discriminate. }
  destruct (tbl_indexed_columns t) as [s|] eqn:Hs; simpl in H.
  - rewrite Hs in H. inversion H; subst. rewrite Hs.
    repeat split; auto; try apply Hc; try tauto.
    intros [_ Hx]. now apply Hc.
  - destruct (first_columns _) as [e|cs] eqn:Hfc; simpl in H; [discriminate|].
    inversion H; subst; simpl.
    assert (Hcs : forall c, in_list c (fold_right set_add [] cs) = true <->
      exists index, In index (OrderedDict.values (tbl_indexes t)) /\
                    leads c index).
    { intros c. rewrite in_list_In, In_fold_set_add.
      now apply first_columns_spec. }
    repeat split; auto; try apply Hcs; try tauto.
    intros [_ Hx]. now apply Hcs.
Qed.

(** Every call that returns keeps the cached set exact: a key method can
    only return while the set is still unbuilt. *)
Lemma run_call_coherent (c : key_call) (t t' : table) :
  cache_coherent t ->
  run_call c t = (inr tt, t') ->
  cache_coherent t'.
Proof.
  intros Hc H. destruct c as [key|key|new_key|column]; simpl in H.
  - destruct (tbl_indexed_columns t) as [s|] eqn:Hs.
    + destruct (add_key_cached_raises key t s Hs) as (e & t'' & He).
      congruence.
    + rewrite (add_key_uncached key t Hs) in H.
      destruct (OrderedDict.mem _ _); inversion H.
      unfold cache_coherent. simpl. now rewrite Hs.
  - destruct (tbl_indexed_columns t) as [s|] eqn:Hs.
    + destruct (remove_key_cached_raises key t s Hs) as (e & t'' & He).
      congruence.
    + rewrite (remove_key_uncached key t Hs) in H.
      destruct (OrderedDict.mem _ _); inversion H.
      unfold cache_coherent. simpl. now rewrite Hs.
  - destruct (tbl_indexed_columns t) as [s|] eqn:Hs.
    + destruct (change_key_cached_raises new_key t s Hs) as (e & t'' & He).
      congruence.
    + rewrite (change_key_uncached new_key t Hs) in H.
      destruct (OrderedDict.mem _ _); inversion H.
      unfold cache_coherent. simpl. now rewrite Hs.
  - unfold bind in H.
    destruct (column_is_indexed column t) as [[e|b] t''] eqn:Hq;
      [discriminate|].
    unfold ret in H. inversion H; subst.
    now apply (column_is_indexed_returns column t t' b).
Qed.

Lemma run_calls_coherent (cs : list key_call) (t t' : table) :
  cache_coherent t ->
  run_calls cs t = (inr tt, t') ->
  cache_coherent t'.
Proof.
  revert t. induction cs as [|c cs IH]; intros t Hc H; simpl in H.
  - unfold ret in H. now inversion H; subst.
  - unfold bind in H. destruct (run_call c t) as [[e|[]] t1] eqn:Hc1;
      [discriminate|].
    eapply IH; [|exact H]. eapply run_call_coherent; eauto.
Qed.

(** As long as every call returns, the answer stays exact: take a table
    whose cached set is unbuilt or exact, and make any sequence of
    [add_key], [remove_key], [change_key] and [column_is_indexed] calls
    that all return.  Then on the resulting table (every index of which
    names a column) [column_is_indexed( c )] returns [True] iff [c] is a
    column of the table and the first column of one of its current
    indexes.  (A key call returns only while the set is unbuilt.) *)
Lemma column_is_indexed_exact_while_calls_return :
  forall (calls : list key_call) (t0 t1 : table) (column : str_or column),
    cache_coherent t0 ->
    run_calls calls t0 = (inr tt, t1) ->
    indexes_nonempty t1 ->
    exists b t2,
      column_is_indexed column t1 = (inr b, t2) /\
      (b = true <-> is_indexed t1 (name_of col_name column)).
Proof.
  intros calls t0 t1 column Hc0 Hrun Hne.
  assert (Hc1 : cache_coherent t1) by (eapply run_calls_coherent; eauto).
  assert (Hret : exists b t2, column_is_indexed column t1 = (inr b, t2)).
  { unfold column_is_indexed. run_M.
    destruct (OrderedDict.mem _ (tbl_columns t1)); simpl; [|eauto].
    destruct (tbl_indexed_columns t1) as [s|] eqn:Hs; simpl.
    - rewrite Hs. eauto.
    - destruct (first_columns_total _ Hne) as (cs & Hcs).
      rewrite Hcs. simpl. eauto. }
  destruct Hret as (b & t2 & Hq). exists b, t2. split; [exact Hq|].
  now apply (column_is_indexed_returns column t1 t2 b).
Qed.

(** C8.  Once [column_is_indexed] has built the set of indexed columns,
    the key methods leave it stale.  On [tasks(id, name)] with the key
    [name_key(name)] and the set built: [add_key( id_key )], whose
    precondition holds, adds the index and then raises before the set is
    updated, so that [id], now the first column of [id_key], is reported
    as not indexed; [remove_key( 'name_key' )] removes the index and then
    raises, so that [name], which no index covers any more, is still
    reported as indexed. *)
Theorem cache_stale_after_key_call :
  column_is_indexed (Str "name") keyed_tasks = (inr true, keyed_tasks_cached) /\
  add_key id_key keyed_tasks_cached =
    (inl AttributeError,
     with_indexes [("name_key", name_key); ("id_key", id_key)]
       keyed_tasks_cached) /\
  is_indexed
    (with_indexes [("name_key", name_key); ("id_key", id_key)]
       keyed_tasks_cached) "id" /\
  column_is_indexed (Str "id")
    (with_indexes [("name_key", name_key); ("id_key", id_key)]
       keyed_tasks_cached) =
    (inr false,
     with_indexes [("name_key", name_key); ("id_key", id_key)]
       keyed_tasks_cached) /\
  remove_key (Str "name_key") keyed_tasks_cached =
    (inl AttributeError, with_indexes [] keyed_tasks_cached) /\
  ~ is_indexed (with_indexes [] keyed_tasks_cached) "name" /\
  column_is_indexed (Str "name") (with_indexes [] keyed_tasks_cached) =
    (inr true, with_indexes [] keyed_tasks_cached).
Proof.
  split; [reflexivity|]. split; [reflexivity|]. split.
  { split; [reflexivity|]. exists id_key. split; [|reflexivity].
    simpl. right. now left. }
  split; [reflexivity|]. split; [reflexivity|]. split; [|reflexivity].
  intros (_ & index & Hin & _). destruct Hin.
Qed.

(** ** [add_rows] *)

(** C9.  A row without an [id] column makes [add_rows] raise [NameError]
    instead of taking the table's [auto_increment] as its id: the lookup of
    ['id'] raises [ValueError], and the clause meant to catch it names
    [ValuerError].  This holds whether the columns are the table's own or
    are given with the rows, and whatever [int] does. *)
Theorem add_rows_without_id_raises :
  forall py_int,
    add_rows py_int one_row named_only =
      (inl NameError, with_rows (Some []) named_only) /\
    add_rows py_int one_row_explicit named_only =
      (inl NameError, with_rows (Some []) named_only).
Proof. intros py_int. split; reflexivity. Qed.

(** The same for every table and batch: as soon as a row is reached whose
    columns do not include ['id'], the call raises. *)
Lemma add_rows_loop_without_id (py_int : string -> option Z)
  (explicit : bool) (columns values : list string)
  (raw_rows : list (list string)) (t : table) :
  list_index "id" columns = None ->
  (explicit = true \/ List.length values = List.length columns) ->
  add_rows_loop py_int explicit columns (values :: raw_rows) t =
    (inl NameError, t).
Proof.
  intros Hid Hlen. simpl.
  replace (negb explicit && negb (List.length values =? List.length columns)%nat)
    with false.
  - run_M. unfold row_id_of. rewrite Hid. reflexivity.
  - destruct Hlen as [-> | ->]; [reflexivity|].
    rewrite Nat.eqb_refl. now rewrite andb_comm.
Qed.

(** With an [id] that [int] accepts, the second half of the claim holds:
    whatever [add_rows] does, it leaves every stored row id below
    [auto_increment]. *)
Lemma In_rows_set (k id : Z) (r x : row) (rs : list (Z * row)) :
  In (k, r) (rows_set id x rs) -> k = id \/ In (k, r) rs.
Proof.
  induction rs as [|[k0 r0] rs IH]; simpl.
  - intros [H|[]]. left. congruence.
  - destruct (Z.eqb_spec id k0); simpl.
    + intros [H|H]; [left; congruence | right; now right].
    + intros [H|H]; [right; now left|].
      destruct (IH H); [now left | right; now right].
Qed.

Lemma add_rows_loop_ids_below (py_int : string -> option Z)
  (explicit : bool) (columns : list string) (raw_rows : list (list string)) :
  forall t res t',
    ids_below_auto_increment t ->
    add_rows_loop py_int explicit columns raw_rows t = (res, t') ->
    ids_below_auto_increment t'.
Proof.
  induction raw_rows as [|values raw_rows IH]; intros t res t' Hinv H;
    simpl in H.
  - unfold ret in H. now inversion H; subst.
  - destruct (negb explicit && _).
    + unfold ret in H. now inversion H; subst.
    + run_M.
      destruct (try_except_ValuerError _ _) as [e|row_id]; simpl in H.
      * now inversion H; subst.
      * destruct (row_id_in row_id _) eqn:Hdup.
        -- inversion H; subst. intros k r Hin. simpl in *.
           specialize (Hinv k r Hin). lia.
        -- apply IH in H; [exact H|].
           intros k r Hin. simpl in *.
           apply In_rows_set in Hin. destruct Hin as [->|Hin]; [lia|].
           specialize (Hinv k r Hin). lia.
Qed.

Lemma add_rows_ids_below (py_int : string -> option Z) (rs : rows) :
  forall t res t',
    ids_below_auto_increment t ->
    add_rows py_int rs t = (res, t') ->
    ids_below_auto_increment t'.
Proof.
  intros t res t' Hinv H. unfold add_rows in H.
  destruct (rows_errors rs).
  - run_M. destruct (tbl_rows t) eqn:Hr; simpl in H.
    + eapply add_rows_loop_ids_below; [|exact H]. exact Hinv.
    + eapply add_rows_loop_ids_below; [|exact H].
      intros k r Hin. simpl in Hin. contradiction.
  - unfold ret in H. now inversion H; subst.
Qed.

(** ** The planner on the scenarios of the tests *)

(** C3.  [test_simple_add_and_modify]: the target adds the column
    [subject] to [tasks] and the table [histories].  The split diff of
    [tasks] has a [kitchen_sink] part; [_process_updates] then calls
    [extend] on its dict of results and raises, and so does the planner:
    nothing is accumulated, applied or queued. *)
Theorem update_flow_raises :
  to tasks tasks_with_subject true =
    inr (Split {| removed_fks := None;
                  kitchen_sink := Some (mk_alter_table "tasks"
                    [AddColumn (text_column "subject") (PosAfter "name")]);
                  fks := None |}) /\
  _process_updates db_with_subject (Some db_tasks_accounts)
    (make_database [tasks; accounts; histories]) ["tasks"; "accounts"] =
    inl AttributeError /\
  mygration db_with_subject (Some db_tasks_accounts) = inl AttributeError.
Proof. repeat split; vm_compute; reflexivity. Qed.

(** C6.  [test_all_constraint_adjustments]: one foreign key changes its
    [ON DELETE] action, another is renamed.  The split diff holds the
    expected parts, but the planner raises on the [fks] part instead of
    returning two operations. *)
Theorem constraint_change_scenario_raises :
  to tasks_s5_from tasks_s5_to true =
    inr (Split {|
      removed_fks := Some (mk_alter_table "tasks"
        [RemoveConstraint (fk "task_id_fk" "task_id" "tasks" Cascade)]);
      kitchen_sink := None;
      fks := Some (mk_alter_table "tasks"
        [AddConstraint (fk "task_id_2_fk" "task_id" "tasks" Cascade);
         ChangeConstraint
           (fk "account_id_tasks_fk" "account_id" "accounts" Restrict)]) |}) /\
  mygration db_s5_to (Some db_s5_from) = inl AttributeError.
Proof. split; vm_compute; reflexivity. Qed.

(** C5.  Three tables without foreign keys, planned from nothing.  The
    first sweep starts with [accounts; histories; logs] pending; creating
    [accounts] shifts the list under the iterator, which goes on to [logs]:
    [histories] is not examined in that sweep and is created after [logs],
    against the insertion order of the target. *)
Theorem sweep_skips_pending_table :
  sweep db_three_plain 3 0
    (mk_adds_state [] [] [] empty_database ["accounts"; "histories"; "logs"]) =
    inr (mk_adds_state [] [CreateTable accounts; CreateTable logs] []
           (make_database [accounts; logs]) ["histories"]) /\
  mygration db_three_plain None =
    inr (mk_plan []
           (Some [CreateTable accounts; CreateTable logs;
                  CreateTable histories])).
Proof. split; vm_compute; reflexivity. Qed.

(** ** Identity *)

Lemma getitem_of_key {V} (d : odict V) (k : string) :
  In k (OrderedDict.keys d) -> exists v, getitem d k = inr v.
Proof.
  unfold getitem. induction d as [|[k0 v0] d IH]; simpl; [tauto|].
  intros [->|Hin].
  - rewrite String.eqb_refl. eauto.
  - destruct (String.eqb k k0); eauto.
Qed.

Lemma mem_of_key {V} (d : odict V) (k : string) :
  In k (OrderedDict.keys d) <-> OrderedDict.mem k d = true.
Proof.
  unfold OrderedDict.mem. induction d as [|[k0 v0] d IH]; simpl.
  - split; [tauto | discriminate].
  - destruct (String.eqb_spec k k0).
    + subst. split; auto.
    + rewrite <- IH. split; [intros [H|H]; congruence | auto].
Qed.

Lemma differences_self {V} (d : odict V) :
  _differences d d = ([], [], OrderedDict.keys d).
Proof.
  unfold _differences.
  assert (H1 : forall l, (forall k, In k l -> OrderedDict.mem k d = true) ->
               filter (fun key => negb (OrderedDict.mem key d)) l = []).
  { induction l as [|k l IH]; intros H; simpl; [reflexivity|].
    rewrite (H k (or_introl eq_refl)). simpl. apply IH. intros; apply H.
    now right. }
  assert (H2 : forall l, (forall k, In k l -> OrderedDict.mem k d = true) ->
               filter (fun key => OrderedDict.mem key d) l = l).
  { induction l as [|k l IH]; intros H; simpl; [reflexivity|].
    rewrite (H k (or_introl eq_refl)). f_equal. apply IH. intros; apply H.
    now right. }
  rewrite H1, H2; auto; intros k Hk; now apply mem_of_key.
Qed.

(** A loop over keys whose body leaves the accumulator alone. *)
Lemma efold_unchanged {A} (f : A -> string -> exn + A) (l : list string)
  (acc : A) :
  (forall k, In k l -> f acc k = inr acc) ->
  efold f l acc = inr acc.
Proof.
  induction l as [|k l IH]; intros H; simpl; [reflexivity|].
  rewrite (H k (or_introl eq_refl)). simpl. apply IH. intros; apply H.
  now right.
Qed.

Lemma str_eq_column_refl (c : column) : str_eq_column c c = true.
Proof. unfold str_eq_column. now destruct (column_eq_dec c c). Qed.
Lemma str_eq_index_refl (i : index) : str_eq_index i i = true.
Proof. unfold str_eq_index. now destruct (index_eq_dec i i). Qed.
Lemma str_eq_constraint_refl (c : constraint) : str_eq_constraint c c = true.
Proof. unfold str_eq_constraint. now destruct (constraint_eq_dec c c). Qed.

(** A table has no differences with itself. *)
Lemma to_self (t : table) :
  to t t true =
    inr (Split {| removed_fks := None; kitchen_sink := None; fks := None |}).
Proof.
  unfold to. rewrite !differences_self. simpl.
  rewrite (efold_unchanged _ (OrderedDict.keys (tbl_columns t))).
  2:{ intros k Hk. destruct (getitem_of_key _ _ Hk) as (v & ->). simpl.
      now rewrite str_eq_column_refl. }
  simpl. rewrite (efold_unchanged _ (OrderedDict.keys (tbl_indexes t))).
  2:{ intros k Hk. destruct (getitem_of_key _ _ Hk) as (v & ->). simpl.
      now rewrite str_eq_index_refl. }
  simpl. rewrite (efold_unchanged _ (OrderedDict.keys (tbl_constraints t))).
  2:{ intros k Hk. destruct (getitem_of_key _ _ Hk) as (v & ->). simpl.
      now rewrite str_eq_constraint_refl. }
  reflexivity.
Qed.

Lemma process_updates_self (db tracking : database) :
  _process_updates db (Some db) tracking (OrderedDict.keys (db_tables db)) =
    inr (mk_updates_dict [] []).
Proof.
  unfold _process_updates. apply efold_unchanged.
  intros k Hk. destruct (getitem_of_key _ _ Hk) as (t & Ht).
  simpl. rewrite Ht. simpl. rewrite to_self. reflexivity.
Qed.

(** [plan( db, db )] once the check of the target is behind. *)
Lemma process_checked_self (db : database) :
  _process_checked db (Some db) = inr (mk_plan [] (Some [])).
Proof.
  unfold _process_checked. cbv beta iota zeta. rewrite differences_self.
  unfold _process_adds. simpl.
  rewrite process_updates_self. reflexivity.
Qed.

(** With the plan of [db] on its own in hand, [plan( db, db )] is known. *)
Lemma identity_given_check (db : database) (check : plan) :
  mygration db None = inr check ->
  mygration db (Some db) = inr (mk_plan (errors_1215 check) (Some [])).
Proof.
  intros H. unfold mygration, _process in *. rewrite H. simpl.
  destruct (errors_1215 check); [apply process_checked_self | reflexivity].
Qed.

(** C2 as stated fails on a database with a broken foreign key: the check
    of the target reports it. *)
Lemma identity_fails_on_broken_fk :
  mygration db_orphans (Some db_orphans) =
    inr (mk_plan ["1215: owner_id_fk references unknown table"] (Some [])) /\
  ~ (forall db : database,
       mygration db (Some db) = inr (mk_plan [] (Some []))).
Proof.
  split; [vm_compute; reflexivity|].
  intros H. specialize (H db_orphans). vm_compute in H. discriminate.
Qed.

(** ** The add pass *)

Lemma ebind_inr {A B} (r : exn + A) (k : A -> exn + B) (b : B) :
  ebind r k = inr b -> exists a, r = inr a /\ k a = inr b.
Proof. destruct r as [e|a]; simpl; [discriminate | eauto]. Qed.

Ltac ebind_inv H :=
  let a := fresh "a" in
  let Ha := fresh "Ha" in
  apply ebind_inr in H; destruct H as (a & Ha & H).

Lemma list_remove_length (x : string) (l l' : list string) :
  list_remove x l = inr l' -> List.length l = S (List.length l').
Proof.
  revert l'. induction l as [|y l IH]; intros l' H; simpl in H;
    [discriminate|].
  destruct (String.eqb x y).
  - now inversion H.
  - ebind_inv H. inversion H; subst. simpl. f_equal. now apply IH.
Qed.

Section AddPass.
Variable db_to : database.

(** An invariant of the loop body is an invariant of a sweep and of the
    whole pass. *)
Lemma sweep_invariant (P : adds_state -> Prop) :
  (forall name st st', P st -> adds_body db_to name st = inr st' -> P st') ->
  forall fuel i st st', P st -> sweep db_to fuel i st = inr st' -> P st'.
Proof.
  intros Hbody. induction fuel as [|fuel IH]; intros i st st' HP H;
    simpl in H.
  - now inversion H; subst.
  - destruct (nth_error (st_tables_to_add st) i) as [name|].
    + ebind_inv H. eapply IH; [|exact H]. eapply Hbody; eauto.
    + now inversion H; subst.
Qed.

Lemma adds_loop_invariant (P : adds_state -> Prop) :
  (forall name st st', P st -> adds_body db_to name st = inr st' -> P st') ->
  forall fuel last st st',
    P st -> adds_loop db_to fuel last st = inr st' -> P st'.
Proof.
  intros Hbody. induction fuel as [|fuel IH]; intros last st st' HP H;
    simpl in H.
  - now inversion H; subst.
  - destruct (negb _ && negb _).
    + ebind_inv H. eapply IH; [|exact H].
      eapply sweep_invariant; eauto.
    + now inversion H; subst.
Qed.

(** One round of the body: the pending list never grows, and when it
    keeps its length nothing but [good_tables] has changed and the table
    examined is stuck. *)
Lemma adds_body_step (name : string) (st st' : adds_state) :
  good_tables_checked db_to st ->
  adds_body db_to name st = inr st' ->
  good_tables_checked db_to st' /\
  List.length (st_tables_to_add st') <= List.length (st_tables_to_add st) /\
  (List.length (st_tables_to_add st') = List.length (st_tables_to_add st) ->
   st_tables_to_add st' = st_tables_to_add st /\
   st_tracking_db st' = st_tracking_db st /\
   st_operations st' = st_operations st /\
   st_errors_1215 st' = st_errors_1215 st /\
   stuck db_to (st_tracking_db st) name).
Proof.
  intros Hgood H. unfold adds_body in H.
  ebind_inv H. rename a into new_table.
  destruct (unfulfilled_fks (st_tracking_db st) new_table) eqn:Hbad.
  - ebind_inv H. ebind_inv H. inversion H; subst; simpl.
    apply list_remove_length in Ha0. repeat split; auto; lia.
  - destruct (in_list name (st_good_tables st)) eqn:Hin.
    + inversion H; subst. repeat split; auto.
      exists new_table. repeat split; auto; [congruence|].
      apply in_list_In in Hin. eapply Hgood; eauto.
    + destruct (unfulfilled_fks db_to new_table) eqn:Hbroken.
      * inversion H; subst; simpl. repeat split; auto.
        -- intros n t [<-|Hn] Ht; simpl in *; [congruence|].
           eapply Hgood; eauto.
        -- exists new_table. repeat split; auto. congruence.
      * ebind_inv H. inversion H; subst; simpl.
        apply list_remove_length in Ha0. repeat split; auto; lia.
Qed.

Lemma sweep_step (fuel i : nat) (st st' : adds_state) :
  good_tables_checked db_to st ->
  sweep db_to fuel i st = inr st' ->
  good_tables_checked db_to st' /\
  List.length (st_tables_to_add st') <= List.length (st_tables_to_add st) /\
  (List.length (st_tables_to_add st') = List.length (st_tables_to_add st) ->
   st_tables_to_add st' = st_tables_to_add st /\
   st_tracking_db st' = st_tracking_db st /\
   st_operations st' = st_operations st /\
   st_errors_1215 st' = st_errors_1215 st /\
   forall j name, i <= j < i + fuel ->
     nth_error (st_tables_to_add st) j = Some name ->
     stuck db_to (st_tracking_db st) name).
Proof.
  revert i st. induction fuel as [|fuel IH]; intros i st Hgood H;
    simpl in H.
  - inversion H; subst. repeat split; auto. intros; lia.
  - destruct (nth_error (st_tables_to_add st) i) as [name|] eqn:Hi.
    + ebind_inv H. rename a into st1.
      destruct (adds_body_step _ _ _ Hgood Ha) as (Hg1 & Hle1 & Heq1).
      destruct (IH _ _ Hg1 H) as (Hg2 & Hle2 & Heq2).
      split; [exact Hg2|]. split; [lia|]. intros Hlen.
      destruct Heq1 as (E1 & E2 & E3 & E4 & Hs); [lia|].
      destruct Heq2 as (F1 & F2 & F3 & F4 & Hs'); [lia|].
      repeat split; try congruence.
      intros j n Hj Hn. destruct (Nat.eq_dec j i) as [->|Hne].
      * congruence.
      * rewrite <- E2. apply (Hs' j n); [lia | congruence].
    + inversion H; subst. repeat split; auto.
      intros j n Hj Hn. apply nth_error_None in Hi.
      assert (j < List.length (st_tables_to_add st'))
        by (apply nth_error_Some; congruence).
      lia.
Qed.

(** When the pass ends every table still pending is stuck. *)
Lemma adds_loop_ends_stuck (fuel last : nat) (st st' : adds_state) :
  good_tables_checked db_to st ->
  (List.length (st_tables_to_add st) = last ->
   forall name, In name (st_tables_to_add st) ->
                stuck db_to (st_tracking_db st) name) ->
  1 <= fuel ->
  (List.length (st_tables_to_add st) = last \/
   List.length (st_tables_to_add st) < fuel) ->
  adds_loop db_to fuel last st = inr st' ->
  forall name, In name (st_tables_to_add st') ->
               stuck db_to (st_tracking_db st') name.
Proof.
  revert last st. induction fuel as [|fuel IH];
    intros last st Hgood Hlast Hfuel Hlen H; [lia|].
  simpl in H.
  destruct (List.length (st_tables_to_add st) =? 0)%nat eqn:H0; simpl in H.
  { inversion H; subst. apply Nat.eqb_eq in H0.
    destruct (st_tables_to_add st'); [intros n [] | discriminate]. }
  destruct (List.length (st_tables_to_add st) =? last)%nat eqn:Hl;
    simpl in H.
  { inversion H; subst. apply Nat.eqb_eq in Hl. auto. }
  apply Nat.eqb_neq in H0, Hl.
  ebind_inv H. rename a into st1.
  destruct (sweep_step _ _ _ _ Hgood Ha) as (Hg1 & Hle & Heq).
  eapply IH; [exact Hg1 | | | | exact H].
  - intros Hsame n Hn.
    destruct (Heq Hsame) as (E1 & E2 & _ & _ & Hs).
    rewrite E1 in Hn. rewrite E2.
    destruct (In_nth_error _ _ Hn) as (j & Hj).
    apply (Hs j n); [|exact Hj].
    assert (j < List.length (st_tables_to_add st))
      by (apply nth_error_Some; congruence).
    lia.
  - lia.
  - lia.
Qed.

Lemma process_adds_ends_stuck (tracking_db : database)
  (tables_to_add : list string) (st : adds_state) :
  _process_adds db_to tracking_db tables_to_add = inr st ->
  forall name, In name (st_tables_to_add st) ->
               stuck db_to (st_tracking_db st) name.
Proof.
  unfold _process_adds. intros H.
  eapply adds_loop_ends_stuck; [| | | |exact H]; simpl.
  - intros n t [].
  - intros H0. destruct tables_to_add; [intros n [] | discriminate].
  - lia.
  - right. lia.
Qed.

(** A sweep over stuck tables changes nothing but [good_tables]. *)
Lemma sweep_over_stuck (tracking_db : database) (l : list string) :
  (forall name, In name l -> stuck db_to tracking_db name) ->
  forall fuel i good,
    exists good',
      sweep db_to fuel i (mk_adds_state [] [] good tracking_db l) =
        inr (mk_adds_state [] [] good' tracking_db l).
Proof.
  intros Hstuck. induction fuel as [|fuel IH]; intros i good; simpl.
  - eauto.
  - destruct (nth_error l i) as [name|] eqn:Hi; [|eauto].
    destruct (Hstuck name (nth_error_In _ _ Hi)) as (t & Ht & Hbad & Hok).
    unfold adds_body. rewrite Ht. simpl.
    destruct (unfulfilled_fks tracking_db t); [congruence|].
    destruct (in_list name good); simpl; [apply IH|].
    rewrite Hok. apply IH.
Qed.

(** Run again on what an add pass has left, the pass creates nothing,
    reports nothing and changes neither the tracking database nor the
    pending list. *)
Lemma process_adds_again (tracking_db : database) (l : list string) :
  (forall name, In name l -> stuck db_to tracking_db name) ->
  exists good,
    _process_adds db_to tracking_db l =
      inr (mk_adds_state [] [] good tracking_db l).
Proof.
  intros Hstuck. unfold _process_adds.
  destruct l as [|n l]; [simpl; eauto|].
  destruct (sweep_over_stuck tracking_db (n :: l) Hstuck
              (List.length (n :: l)) 0 []) as (good & Hs).
  simpl in Hs. simpl. rewrite Hs. simpl.
  rewrite Nat.eqb_refl. simpl. eauto.
Qed.
End AddPass.

(** ** The second add pass *)

(** The second pass starts from what the first one left, so it finds
    every pending table stuck and emits nothing. *)
Lemma second_pass_emits_nothing (db_to tracking_db : database)
  (tables_to_add : list string) (st : adds_state) :
  _process_adds db_to tracking_db tables_to_add = inr st ->
  exists good,
    _process_adds db_to (st_tracking_db st) (st_tables_to_add st) =
      inr (mk_adds_state [] [] good (st_tracking_db st) (st_tables_to_add st)).
Proof.
  intros H. apply process_adds_again.
  eapply process_adds_ends_stuck; eauto.
Qed.

(** C4.  Lines 153-160 lose the stream they are meant to extend.  Take
    the source [db_accounts_unindexed] and the target [db_tasks_accounts]:
    [tasks] has to wait for the primary key of [accounts], which the
    update phase is to add (the case the comment of lines 146-152 is
    about).  On this input the planner raises in the update phase.  Run
    from the state that phase is meant to leave, the second add pass does
    create [tasks], but line 156 assigns the [None] that [extend] returns
    to [operations]: the operations accumulated so far are gone and those
    of the second pass are not appended, so the planner would answer with
    [None] for its operations, and raise as soon as a later phase appends
    to them. *)
Theorem second_pass_loses_the_stream :
  to accounts_unindexed accounts true =
    inr (Split {| removed_fks := None;
                  kitchen_sink :=
                    Some (mk_alter_table "accounts" [AddKey primary_key]);
                  fks := None |}) /\
  _process_adds db_tasks_accounts db_accounts_unindexed ["tasks"] =
    inr (mk_adds_state [] [] ["tasks"] db_accounts_unindexed ["tasks"]) /\
  mygration db_tasks_accounts (Some db_accounts_unindexed) =
    inl AttributeError /\
  apply_operation add_primary_key db_accounts_unindexed =
    inr (make_database [accounts]) /\
  _process_adds db_tasks_accounts (make_database [accounts]) ["tasks"] =
    inr (mk_adds_state [] [CreateTable tasks] []
           (make_database [accounts; tasks]) []) /\
  second_add_pass db_tasks_accounts after_update_phase =
    inr (mk_locals [] None [] (make_database [accounts; tasks]) []) /\
  finish db_tasks_accounts []
    (mk_locals [] None [] (make_database [accounts; tasks]) []) =
    inr (mk_plan [] None) /\
  finish db_tasks_accounts ["logs"]
    (mk_locals [] None [] (make_database [accounts; tasks]) []) =
    inl AttributeError.
Proof. repeat split; vm_compute; reflexivity. Qed.

(** ** More association-list facts *)

Section OrderedDictFacts.
Context {V : Type}.
Implicit Types (d : odict V) (k : string) (v : V).

Lemma get_set_same k v d :
  OrderedDict.get k (OrderedDict.set k v d) = Some v.
Proof.
  induction d as [|[k0 v0] d IH]; simpl.
  - now rewrite String.eqb_refl.
  - destruct (String.eqb_spec k k0); simpl.
    + subst. now rewrite String.eqb_refl.
    + destruct (String.eqb_spec k k0); [contradiction | exact IH].
Qed.

Lemma get_set_other k k' v d :
  k <> k' ->
  OrderedDict.get k (OrderedDict.set k' v d) = OrderedDict.get k d.
Proof.
  intros Hne. induction d as [|[k0 v0] d IH]; simpl.
  - destruct (String.eqb_spec k k'); [contradiction | reflexivity].
  - destruct (String.eqb_spec k' k0); simpl.
    + subst. destruct (String.eqb_spec k k0); [contradiction | reflexivity].
    + destruct (String.eqb_spec k k0); [reflexivity | exact IH].
Qed.

Lemma get_pop_other k k' d :
  k <> k' ->
  OrderedDict.get k (OrderedDict.pop k' d) = OrderedDict.get k d.
Proof.
  intros Hne. induction d as [|[k0 v0] d IH]; simpl; [reflexivity|].
  destruct (String.eqb_spec k' k0); simpl.
  - subst. destruct (String.eqb_spec k k0); [contradiction | reflexivity].
  - destruct (String.eqb_spec k k0); [reflexivity | exact IH].
Qed.

Lemma get_In k v d : OrderedDict.get k d = Some v -> In (k, v) d.
Proof.
  induction d as [|[k0 v0] d IH]; simpl; [discriminate|].
  destruct (String.eqb_spec k k0).
  - intros H. inversion H; subst. now left.
  - intros H. right. now apply IH.
Qed.

Lemma In_keys k v d : In (k, v) d -> In k (OrderedDict.keys d).
Proof. intros H. apply (in_map fst) in H. exact H. Qed.

Lemma In_values k v d : In (k, v) d -> In v (OrderedDict.values d).
Proof. intros H. apply (in_map snd) in H. exact H. Qed.

Lemma values_In v d : In v (OrderedDict.values d) -> exists k, In (k, v) d.
Proof.
  unfold OrderedDict.values. rewrite in_map_iff.
  intros ([k v'] & Hv & Hin). simpl in Hv. subst. eauto.
Qed.

Lemma In_get k v d :
  NoDup (OrderedDict.keys d) -> In (k, v) d -> OrderedDict.get k d = Some v.
Proof.
  induction d as [|[k0 v0] d IH]; simpl; [tauto|].
  intros Hnd [Heq|Hin].
  - inversion Heq; subst. now rewrite String.eqb_refl.
  - inversion Hnd; subst. destruct (String.eqb_spec k k0).
    + subst. exfalso. apply H1. eapply In_keys; eauto.
    + now apply IH.
Qed.

Lemma get_None k d :
  OrderedDict.get k d = None <-> ~ In k (OrderedDict.keys d).
Proof.
  rewrite mem_of_key. unfold OrderedDict.mem.
  destruct (OrderedDict.get k d); split; congruence.
Qed.

Lemma keys_set_fresh k v d :
  OrderedDict.mem k d = false ->
  OrderedDict.keys (OrderedDict.set k v d) = (OrderedDict.keys d ++ [k])%list.
Proof.
  unfold OrderedDict.mem. induction d as [|[k0 v0] d IH]; simpl;
    [reflexivity|].
  destruct (String.eqb k k0); [discriminate|].
  intros H. simpl. f_equal. now apply IH.
Qed.

Lemma In_pop k k' v d :
  In (k, v) (OrderedDict.pop k' d) -> In (k, v) d.
Proof.
  induction d as [|[k0 v0] d IH]; simpl; [tauto|].
  destruct (String.eqb k' k0); simpl; [now right|].
  intros [H|H]; [now left | right; now apply IH].
Qed.

Lemma keys_pop_incl k k' d :
  In k (OrderedDict.keys (OrderedDict.pop k' d)) ->
  In k (OrderedDict.keys d).
Proof.
  induction d as [|[k0 v0] d IH]; simpl; [tauto|].
  destruct (String.eqb k' k0); simpl; [now right|].
  intros [H|H]; [now left | right; now apply IH].
Qed.

Lemma NoDup_keys_pop k d :
  NoDup (OrderedDict.keys d) -> NoDup (OrderedDict.keys (OrderedDict.pop k d)).
Proof.
  induction d as [|[k0 v0] d IH]; simpl; [auto|].
  intros Hnd. inversion Hnd; subst.
  destruct (String.eqb k k0); simpl; [assumption|].
  constructor; [|now apply IH].
  intros Hin. apply H1. eapply keys_pop_incl; eauto.
Qed.

Lemma not_In_keys_pop k d :
  NoDup (OrderedDict.keys d) ->
  ~ In k (OrderedDict.keys (OrderedDict.pop k d)).
Proof.
  induction d as [|[k0 v0] d IH]; simpl; [tauto|].
  intros Hnd. inversion Hnd; subst.
  destruct (String.eqb_spec k k0); simpl.
  - now subst.
  - intros [H|H]; [congruence | now apply IH].
Qed.

Lemma In_pop_other k k' v d :
  k <> k' -> In (k, v) d -> In (k, v) (OrderedDict.pop k' d).
Proof.
  intros Hne. induction d as [|[k0 v0] d IH]; simpl; [tauto|].
  destruct (String.eqb_spec k' k0); simpl.
  - intros [H|H]; [inversion H; congruence | assumption].
  - intros [H|H]; [now left | right; now apply IH].
Qed.

Lemma NoDup_keys_set_fresh k v d :
  OrderedDict.mem k d = false ->
  NoDup (OrderedDict.keys d) ->
  NoDup (OrderedDict.keys (OrderedDict.set k v d)).
Proof.
  intros Hm Hnd. rewrite keys_set_fresh by assumption.
  apply NoDup_app; [assumption | repeat constructor; auto | ].
  intros x Hx [<-|[]]. apply mem_of_key in Hx. congruence.
Qed.
End OrderedDictFacts.

Section OrderedDictSetFacts.
Context {V : Type}.
Implicit Types (d : odict V) (k : string) (v : V).

Lemma In_set k k' v v' d :
  In (k, v) (OrderedDict.set k' v' d) -> (k = k' /\ v = v') \/ In (k, v) d.
Proof.
  induction d as [|[k0 v0] d IH]; simpl.
  - intros [H|[]]. inversion H. now left.
  - destruct (String.eqb_spec k' k0); simpl.
    + intros [H|H]; [inversion H; subst; now left | right; now right].
    + intros [H|H]; [right; now left|].
      destruct (IH H); [now left | right; now right].
Qed.

Lemma keys_set_present k v d :
  OrderedDict.mem k d = true ->
  OrderedDict.keys (OrderedDict.set k v d) = OrderedDict.keys d.
Proof.
  unfold OrderedDict.mem. induction d as [|[k0 v0] d IH]; simpl;
    [discriminate|].
  destruct (String.eqb k k0); simpl; [reflexivity|].
  intros H. f_equal. now apply IH.
Qed.

Lemma NoDup_keys_set k v d :
  NoDup (OrderedDict.keys d) ->
  NoDup (OrderedDict.keys (OrderedDict.set k v d)).
Proof.
  intros Hnd. destruct (OrderedDict.mem k d) eqn:Hm.
  - now rewrite keys_set_present.
  - now apply NoDup_keys_set_fresh.
Qed.

Lemma In_keys_set k k' v d :
  In k (OrderedDict.keys (OrderedDict.set k' v d)) <->
  k = k' \/ In k (OrderedDict.keys d).
Proof.
  destruct (OrderedDict.mem k' d) eqn:Hm.
  - rewrite keys_set_present by assumption. split; [now right|].
    intros [->|H]; [now apply mem_of_key | assumption].
  - rewrite keys_set_fresh by assumption. rewrite in_app_iff. simpl.
    split; [intros [H|[H|[]]]; auto | intros [H|H]; auto].
Qed.
End OrderedDictSetFacts.

(** ** Foreign-key checks *)

Lemma fk_error_None (db : database) (t : table) (c : constraint) :
  fk_error db t c = None <->
  exists f, OrderedDict.get (con_foreign_table c) (db_tables db) = Some f /\
            fk_holds (tbl_columns t) f c = true.
Proof.
  unfold fk_error, fk_holds. split.
  - intros H.
    destruct (OrderedDict.get (con_foreign_table c) (db_tables db)) as [f|];
      [|discriminate].
    exists f. split; [reflexivity|].
    destruct (forallb _ (con_foreign_columns c)); simpl in *;
      [|discriminate].
    destruct (existsb _ (OrderedDict.values (tbl_indexes f))); simpl in *;
      [|discriminate].
    destruct (_ && _); simpl in *; [reflexivity | discriminate].
  - intros (f & Hf & Hok). rewrite Hf.
    apply andb_true_iff in Hok. destruct Hok as [Hab Hc].
    apply andb_true_iff in Hab. destruct Hab as [Ha Hb].
    rewrite Ha, Hb, Hc. reflexivity.
Qed.

Lemma same_shape_refl (t : table) : same_shape t t.
Proof. split; intros; reflexivity. Qed.

Lemma same_shape_trans (t1 t2 t3 : table) :
  same_shape t1 t2 -> same_shape t2 t3 -> same_shape t1 t3.
Proof.
  intros [C1 I1] [C2 I2]. split; intros.
  - now rewrite C1.
  - now rewrite I1.
Qed.

Lemma same_shape_sym (t1 t2 : table) : same_shape t1 t2 -> same_shape t2 t1.
Proof. intros [C I]. split; intros; [now rewrite C | now rewrite I]. Qed.

Lemma existsb_ext_In {A} (p : A -> bool) (l1 l2 : list A) :
  (forall x, In x l1 <-> In x l2) -> existsb p l1 = existsb p l2.
Proof.
  intros H. apply eq_true_iff_eq. rewrite !existsb_exists.
  split; intros (x & Hx & Hp); exists x; split; try apply H; auto.
Qed.

Lemma forallb_pointwise {A} (p q : A -> bool) (l : list A) :
  (forall x, p x = q x) -> forallb p l = forallb q l.
Proof.
  intros H. induction l as [|x l IH]; simpl; [reflexivity|].
  now rewrite H, IH.
Qed.

Lemma fk_holds_shape (l1 l2 : odict column) (f1 f2 : table) (c : constraint) :
  (forall k, OrderedDict.get k l1 = OrderedDict.get k l2) ->
  same_shape f1 f2 ->
  fk_holds l1 f1 c = fk_holds l2 f2 c.
Proof.
  intros Hl [Hc Hi]. unfold fk_holds. f_equal; [f_equal|f_equal].
  - apply forallb_pointwise. intros fc. unfold OrderedDict.mem.
    now rewrite Hc.
  - now apply existsb_ext_In.
  - apply forallb_pointwise. intros [a b]. unfold compatible_columns. simpl.
    now rewrite Hl, Hc.
Qed.

(** A foreign key stays satisfiable as long as its own table and the
    table it points at keep their shape. *)
Lemma satisfiable_transfer (db db' : database) (x : string * constraint) :
  satisfiable db x ->
  (forall k t, k = fst x \/ k = con_foreign_table (snd x) ->
     OrderedDict.get k (db_tables db) = Some t ->
     exists t', OrderedDict.get k (db_tables db') = Some t' /\
                same_shape t t') ->
  satisfiable db' x.
Proof.
  intros (t & Ht & Herr) Hkeep. apply fk_error_None in Herr.
  destruct Herr as (f & Hf & Hok).
  destruct (Hkeep _ _ (or_introl eq_refl) Ht) as (t' & Ht' & [Hc _]).
  destruct (Hkeep _ _ (or_intror eq_refl) Hf) as (f' & Hf' & Hs).
  exists t'. split; [exact Ht'|]. apply fk_error_None.
  exists f'. split; [exact Hf'|].
  rewrite <- Hok. symmetry. now apply fk_holds_shape.
Qed.

(** What [unfulfilled_fks] holds when it returns. *)
Lemma unfulfilled_fks_spec (db : database) (t : table) :
  NoDup (OrderedDict.keys (unfulfilled_fks db t)) /\
  (forall k pr, In (k, pr) (unfulfilled_fks db t) ->
     In (k, foreign_key pr) (tbl_constraints t) /\
     fk_error db t (foreign_key pr) = Some (error pr)) /\
  (forall k c, In (k, c) (tbl_constraints t) -> fk_error db t c <> None ->
     In k (OrderedDict.keys (unfulfilled_fks db t))).
Proof.
  unfold unfulfilled_fks.
  set (f := fun (bad : odict fk_problem) (kc : string * constraint) =>
              let '(name, c) := kc in
              match fk_error db t c with
              | Some e => OrderedDict.set name (mk_fk_problem e c) bad
              | None => bad
              end).
  assert (H : forall cs acc,
    (forall k c, In (k, c) cs -> In (k, c) (tbl_constraints t)) ->
    NoDup (OrderedDict.keys acc) ->
    (forall k pr, In (k, pr) acc ->
       In (k, foreign_key pr) (tbl_constraints t) /\
       fk_error db t (foreign_key pr) = Some (error pr)) ->
    NoDup (OrderedDict.keys (fold_left f cs acc)) /\
    (forall k pr, In (k, pr) (fold_left f cs acc) ->
       In (k, foreign_key pr) (tbl_constraints t) /\
       fk_error db t (foreign_key pr) = Some (error pr)) /\
    (forall k, In k (OrderedDict.keys acc) ->
       In k (OrderedDict.keys (fold_left f cs acc))) /\
    (forall k c, In (k, c) cs -> fk_error db t c <> None ->
       In k (OrderedDict.keys (fold_left f cs acc)))).
  { induction cs as [|[k0 c0] cs IH]; intros acc Hsub Hnd Hacc; simpl.
    - split; [|split; [|split]]; auto. intros k c [].
    - assert (Hnd' : NoDup (OrderedDict.keys (f acc (k0, c0)))).
      { simpl. destruct (fk_error db t c0); [apply NoDup_keys_set|]; auto. }
      assert (Hacc' : forall k pr, In (k, pr) (f acc (k0, c0)) ->
                In (k, foreign_key pr) (tbl_constraints t) /\
                fk_error db t (foreign_key pr) = Some (error pr)).
      { simpl. destruct (fk_error db t c0) eqn:He; [|exact Hacc].
        intros k pr Hin. apply In_set in Hin.
        destruct Hin as [[-> ->]|Hin]; [|now apply Hacc].
        simpl. split; [apply Hsub; now left | exact He]. }
      assert (Hmono : forall k, In k (OrderedDict.keys acc) ->
                In k (OrderedDict.keys (f acc (k0, c0)))).
      { simpl. destruct (fk_error db t c0); [|auto].
        intros k Hk. apply In_keys_set. now right. }
      destruct (IH (f acc (k0, c0))) as (I1 & I2 & I3 & I4); auto.
      { intros k c Hin. apply Hsub. now right. }
      split; [|split; [|split]]; auto.
      intros k c [Heq|Hin] Hne; [|eauto].
      inversion Heq; subst. apply I3. simpl.
      destruct (fk_error db t c); [|congruence].
      apply In_keys_set. now left. }
  destruct (H (tbl_constraints t) []) as (I1 & I2 & _ & I4); simpl; auto.
  - constructor.
  - intros k pr [].
Qed.

Lemma unfulfilled_fks_nil (db : database) (t : table) :
  unfulfilled_fks db t = [] ->
  forall k c, In (k, c) (tbl_constraints t) -> fk_error db t c = None.
Proof.
  intros Hnil k c Hin.
  destruct (fk_error db t c) eqn:He; [|reflexivity].
  destruct (unfulfilled_fks_spec db t) as (_ & _ & H).
  assert (Hk : In k (OrderedDict.keys (unfulfilled_fks db t)))
    by (apply (H k c); congruence).
  rewrite Hnil in Hk. destruct Hk.
Qed.

(** ** Safe runs *)

Lemma safe_run_app (l1 l2 : list operation) :
  forall db added db1 db2,
    safe_run db added l1 db1 ->
    safe_run db1 (added ++ flat_map fks_added_by l1) l2 db2 ->
    safe_run db added (l1 ++ l2) db2.
Proof.
  induction l1 as [|op l1 IH]; intros db added db1 db2 H1 H2; simpl in *.
  - subst. now rewrite app_nil_r in H2.
  - destruct H1 as (dbm & Hop & Hsat & Hrest).
    exists dbm. repeat split; auto.
    eapply IH; [exact Hrest|]. now rewrite <- app_assoc.
Qed.

Lemma safe_run_end (ops : list operation) :
  forall db added db',
    (forall x, In x added -> satisfiable db x) ->
    safe_run db added ops db' ->
    forall x, In x (added ++ flat_map fks_added_by ops) -> satisfiable db' x.
Proof.
  induction ops as [|op ops IH]; intros db added db' Hadded H x Hx;
    simpl in *.
  - subst. rewrite app_nil_r in Hx. auto.
  - destruct H as (db1 & Hop & Hsat & Hrest).
    rewrite app_assoc in Hx. eapply IH; eauto.
Qed.

(** The statement about prefixes: every prefix of a safe run replays
    without raising, and leaves every foreign key it added satisfiable. *)
Lemma safe_run_prefixes (ops : list operation) :
  forall db added db',
    (forall x, In x added -> satisfiable db x) ->
    safe_run db added ops db' ->
    forall k, exists dbk,
      apply_operations (firstn k ops) db = inr dbk /\
      forall x, In x (added ++ flat_map fks_added_by (firstn k ops)) ->
                satisfiable dbk x.
Proof.
  unfold apply_operations.
  induction ops as [|op ops IH]; intros db added db' Hadded H k.
  - rewrite firstn_nil. simpl. exists db. split; [reflexivity|].
    intros x Hx. rewrite app_nil_r in Hx. auto.
  - destruct k as [|k]; simpl.
    + exists db. split; [reflexivity|].
      intros x Hx. rewrite app_nil_r in Hx. auto.
    + destruct H as (db1 & Hop & Hsat & Hrest). rewrite Hop. simpl.
      destruct (IH db1 _ db' Hsat Hrest k) as (dbk & Hk & Hall).
      exists dbk. split; [exact Hk|].
      intros x Hx. apply Hall. now rewrite <- app_assoc.
Qed.

Lemma add_table_inv (t : table) (db db' : database) :
  add_table t db = inr db' ->
  OrderedDict.mem (tbl_name t) (db_tables db) = false /\
  db_tables db' = OrderedDict.set (tbl_name t) t (db_tables db).
Proof.
  unfold add_table. destruct (OrderedDict.mem _ _); [discriminate|].
  intros H. inversion H. auto.
Qed.

Lemma add_table_get (t : table) (db db' : database) (k : string) (v : table) :
  add_table t db = inr db' ->
  OrderedDict.get k (db_tables db) = Some v ->
  OrderedDict.get k (db_tables db') = Some v.
Proof.
  intros H Hk. destruct (add_table_inv _ _ _ H) as (Hm & ->).
  rewrite get_set_other; [exact Hk|].
  intros ->. unfold OrderedDict.mem in Hm. now rewrite Hk in Hm.
Qed.

Lemma add_table_get_new (t : table) (db db' : database) :
  add_table t db = inr db' ->
  OrderedDict.get (tbl_name t) (db_tables db') = Some t.
Proof.
  intros H. destruct (add_table_inv _ _ _ H) as (_ & ->).
  apply get_set_same.
Qed.

Lemma satisfiable_add_table (t : table) (db db' : database)
  (x : string * constraint) :
  add_table t db = inr db' -> satisfiable db x -> satisfiable db' x.
Proof.
  intros H Hx. apply (satisfiable_transfer db); [exact Hx|].
  intros k v _ Hk. exists v. split; [|apply same_shape_refl].
  eapply add_table_get; eauto.
Qed.

(** A created table whose foreign keys all point at tables that are
    already there, and fit them. *)
Lemma create_table_safe (t : table) (db db' : database) :
  add_table t db = inr db' ->
  (forall c, In c (OrderedDict.values (tbl_constraints t)) ->
     exists f, OrderedDict.get (con_foreign_table c) (db_tables db) = Some f /\
               fk_holds (tbl_columns t) f c = true) ->
  forall x, In x (fks_added_by (CreateTable t)) -> satisfiable db' x.
Proof.
  intros H Hok x Hx. simpl in Hx. apply in_map_iff in Hx.
  destruct Hx as (c & <- & Hc). destruct (Hok c Hc) as (f & Hf & Hh).
  exists t. simpl. split; [eapply add_table_get_new; eauto|].
  apply fk_error_None. exists f. split; [|exact Hh].
  eapply add_table_get; eauto.
Qed.

(** ** The first add pass is safe *)

Lemma list_remove_In (x : string) (l l' : list string) :
  list_remove x l = inr l' -> forall n, In n l' -> In n l.
Proof.
  revert l'. induction l as [|y l IH]; intros l' H n Hn; simpl in H;
    [discriminate|].
  destruct (String.eqb x y).
  - inversion H; subst. now right.
  - ebind_inv H. inversion H; subst. destruct Hn as [<-|Hn];
      [now left | right; eapply IH; eauto].
Qed.

Lemma list_remove_other (x : string) (l l' : list string) :
  list_remove x l = inr l' -> forall n, In n l -> n <> x -> In n l'.
Proof.
  revert l'. induction l as [|y l IH]; intros l' H n Hn Hne; simpl in H;
    [discriminate|].
  destruct (String.eqb_spec x y).
  - inversion H; subst. destruct Hn; [congruence | assumption].
  - ebind_inv H. inversion H; subst. destruct Hn as [<-|Hn];
      [now left | right; eapply IH; eauto].
Qed.

Lemma list_remove_NoDup (x : string) (l l' : list string) :
  list_remove x l = inr l' -> NoDup l -> NoDup l' /\ ~ In x l'.
Proof.
  revert l'. induction l as [|y l IH]; intros l' H Hnd; simpl in H;
    [discriminate|].
  inversion Hnd; subst. destruct (String.eqb_spec x y).
  - inversion H; subst. auto.
  - ebind_inv H. inversion H; subst.
    destruct (IH _ Ha H3) as (Hnd' & Hx). split.
    + constructor; [|exact Hnd']. intros Hy. apply H2.
      eapply list_remove_In; eauto.
    + intros [Hy|Hy]; [congruence | contradiction].
Qed.

Lemma list_remove_mem (x : string) (l l' : list string) :
  list_remove x l = inr l' -> In x l.
Proof.
  revert l'. induction l as [|y l IH]; intros l' H; simpl in H;
    [discriminate|].
  destruct (String.eqb_spec x y); [now left|].
  ebind_inv H. right. eapply IH; eauto.
Qed.

Lemma getitem_get {V} (d : odict V) (k : string) (v : V) :
  getitem d k = inr v <-> OrderedDict.get k d = Some v.
Proof.
  unfold getitem. destruct (OrderedDict.get k d); split; congruence.
Qed.

Lemma wf_database_get (db : database) (k : string) (t : table) :
  wf_database db -> OrderedDict.get k (db_tables db) = Some t ->
  tbl_name t = k /\ wf_table t.
Proof. intros [_ H] Hk. apply H. now apply get_In. Qed.

Section FirstPass.
Variables db_to tracking0 : database.
Variable pending0 : list string.
Hypothesis wf_to : wf_database db_to.

Lemma pass_invariant_body (name : string) (st st' : adds_state) :
  pass_invariant db_to tracking0 pending0 st ->
  adds_body db_to name st = inr st' ->
  pass_invariant db_to tracking0 pending0 st'.
Proof.
  intros (Hsafe & HndT & HndL & Hpend & Hext & Hkeys & Hacc & Horig) H.
  unfold adds_body in H. ebind_inv H. rename a into new_table.
  apply getitem_get in Ha.
  destruct (wf_database_get _ _ _ wf_to Ha) as (Hname & Hwf).
  destruct (unfulfilled_fks (st_tracking_db st) new_table) eqn:Hbad.
  - (* the table is created *)
    ebind_inv H. rename a into pending. ebind_inv H. rename a into tracking.
    inversion H; subst st'; clear H. unfold pass_invariant; simpl.
    destruct (list_remove_NoDup _ _ _ Ha0 HndL) as (HndL' & Hgone).
    destruct (add_table_inv _ _ _ Ha1) as (Hfresh & Htables).
    assert (Hold : forall x,
              In x ([] ++ flat_map fks_added_by (st_operations st)) ->
              satisfiable (st_tracking_db st) x).
    { eapply safe_run_end; [|exact Hsafe]. intros x []. }
    split; [|split; [|split; [|split; [|split; [|split; [|split]]]]]].
    + eapply safe_run_app; [exact Hsafe|]. simpl.
      exists tracking. split; [exact Ha1|]. split; [|reflexivity].
      intros x Hx. apply in_app_or in Hx. destruct Hx as [Hx|Hx].
      * eapply satisfiable_add_table; eauto.
      * eapply create_table_safe; eauto.
        intros c Hc. apply values_In in Hc. destruct Hc as (k & Hc).
        apply fk_error_None. eapply unfulfilled_fks_nil; eauto.
    + rewrite Htables. now apply NoDup_keys_set_fresh.
    + exact HndL'.
    + intros n Hn. destruct (Hpend n (list_remove_In _ _ _ Ha0 n Hn))
        as (Hn0 & Hm).
      split; [exact Hn0|]. rewrite Htables, Hname.
      rewrite mem_set_other; [exact Hm | congruence].
    + intros k t Hk. eapply add_table_get; eauto.
    + intros k Hk. rewrite Htables in Hk. apply In_keys_set in Hk.
      destruct Hk as [->|Hk]; [|auto].
      right. rewrite Hname. apply (Hpend name).
      eapply list_remove_mem; eauto.
    + intros Herr n Hn. destruct (Hacc Herr n Hn) as [Hin|(t & H1 & H2 & H3)].
      * destruct (string_dec n name) as [->|Hne].
        -- right. exists new_table. split; [exact Ha|]. split.
           ++ rewrite <- Hname at 1. eapply add_table_get_new; eauto.
           ++ apply in_or_app. right. now left.
        -- left. eapply list_remove_other; eauto.
      * right. exists t. split; [exact H1|]. split.
        -- eapply add_table_get; eauto.
        -- apply in_or_app. now left.
    + intros op Hop. apply in_app_or in Hop. destruct Hop as [Hop|[<-|[]]].
      * now apply Horig.
      * exists new_table. split; [reflexivity|]. now rewrite Hname.
  - destruct (in_list name (st_good_tables st)).
    { inversion H; subst. unfold pass_invariant. auto 10. }
    destruct (unfulfilled_fks db_to new_table) as [|[k0 pr0] broken]
      eqn:Hbroken.
    { inversion H; subst. unfold pass_invariant. simpl. auto 10. }
    ebind_inv H. rename a into pending.
    inversion H; subst st'; clear H. unfold pass_invariant; simpl.
    destruct (list_remove_NoDup _ _ _ Ha0 HndL) as (HndL' & Hgone).
    split; [exact Hsafe|]. split; [exact HndT|]. split; [exact HndL'|].
    split; [|split; [exact Hext|split; [exact Hkeys|split; [|exact Horig]]]].
    + intros n Hn. apply Hpend. eapply list_remove_In; eauto.
    + intros Herr. apply app_eq_nil in Herr. destruct Herr as [_ Herr].
      discriminate.
Qed.

Lemma pass_invariant_holds (st : adds_state) :
  NoDup (OrderedDict.keys (db_tables tracking0)) ->
  NoDup pending0 ->
  (forall n, In n pending0 ->
     OrderedDict.mem n (db_tables tracking0) = false) ->
  _process_adds db_to tracking0 pending0 = inr st ->
  pass_invariant db_to tracking0 pending0 st.
Proof.
  intros HndT HndL Hfresh H. unfold _process_adds in H.
  eapply adds_loop_invariant; [| |exact H].
  - intros name s s'. apply pass_invariant_body.
  - unfold pass_invariant; simpl.
    split; [reflexivity|]. split; [exact HndT|]. split; [exact HndL|].
    split; [auto|]. split; [auto|]. split; [auto|]. split; [auto|].
    intros op [].
Qed.
End FirstPass.

(** ** What the update phase tells when it returns *)

(** A loop that can only pass its accumulator on. *)
Lemma efold_same {A B} (Q : B -> Prop) (f : A -> B -> exn + A) :
  (forall acc x r, f acc x = inr r -> r = acc /\ Q x) ->
  forall l acc r, efold f l acc = inr r -> r = acc /\ forall x, In x l -> Q x.
Proof.
  intros Hf. induction l as [|x l IH]; intros acc r H; simpl in H.
  - inversion H. split; [reflexivity | intros x []].
  - ebind_inv H. destruct (Hf _ _ _ Ha) as (-> & Hx).
    destruct (IH _ _ H) as (-> & Hl). split; [reflexivity|].
    intros y [<-|Hy]; auto.
Qed.

(** A loop over an [alter_table] that adds an operation or, when [Q]
    holds of the element, passes it on. *)
Lemma efold_alter {B} (Q : B -> Prop) (f : alter_table -> B -> exn + alter_table) :
  (forall acc x r, f acc x = inr r ->
     (r = acc /\ Q x) \/ exists op, r = add_operation acc op) ->
  forall l acc r, efold f l acc = inr r ->
    alt_operations r = [] ->
    alt_operations acc = [] /\ forall x, In x l -> Q x.
Proof.
  intros Hf. induction l as [|x l IH]; intros acc r H Hnil; simpl in H.
  - inversion H; subst. split; [exact Hnil | intros x []].
  - ebind_inv H. destruct (IH _ _ H Hnil) as (Ha0 & Hl).
    destruct (Hf _ _ _ Ha) as [(-> & Hx)|(op & ->)].
    + split; [exact Ha0|]. intros y [<-|Hy]; auto.
    + simpl in Ha0. now destruct (alt_operations acc).
Qed.

Lemma filter_nil {A} (p : A -> bool) (l : list A) :
  filter p l = [] -> forall x, In x l -> p x = false.
Proof.
  induction l as [|y l IH]; simpl; [intros _ x []|].
  destruct (p y) eqn:Hy; [discriminate|].
  intros H x [<-|Hx]; auto.
Qed.

Lemma no_In_nil {A} (l : list A) : (forall x, In x l -> False) -> l = [].
Proof. destruct l as [|x l]; [auto | intros H; destruct (H x); now left]. Qed.

(** Two mappings between which [_differences] finds nothing added,
    nothing removed, and whose common keys hold equal values, are equal
    as mappings. *)
Lemma no_differences_get {V} (a b : odict V) :
  filter (fun key => negb (OrderedDict.mem key a)) (OrderedDict.keys b) = [] ->
  filter (fun key => negb (OrderedDict.mem key b)) (OrderedDict.keys a) = [] ->
  (forall k, In k (filter (fun key => OrderedDict.mem key b)
                     (OrderedDict.keys a)) ->
     exists v, OrderedDict.get k a = Some v /\ OrderedDict.get k b = Some v) ->
  forall k, OrderedDict.get k a = OrderedDict.get k b.
Proof.
  intros Hadd Hrem Hover k.
  destruct (OrderedDict.get k a) as [v|] eqn:Ha.
  - assert (Hk : In k (OrderedDict.keys a)) by (eapply In_keys, get_In; eauto).
    pose proof (filter_nil _ _ Hrem k Hk) as Hb.
    apply negb_false_iff in Hb.
    destruct (Hover k) as (v' & H1 & H2); [apply filter_In; auto|].
    congruence.
  - destruct (OrderedDict.get k b) as [v|] eqn:Hb; [|reflexivity].
    assert (Hk : In k (OrderedDict.keys b)) by (eapply In_keys, get_In; eauto).
    pose proof (filter_nil _ _ Hadd k Hk) as Hm.
    apply negb_false_iff in Hm. unfold OrderedDict.mem in Hm.
    now rewrite Ha in Hm.
Qed.

Lemma get_eq_values {V} (a b : odict V) :
  NoDup (OrderedDict.keys a) -> NoDup (OrderedDict.keys b) ->
  (forall k, OrderedDict.get k a = OrderedDict.get k b) ->
  forall v, In v (OrderedDict.values a) <-> In v (OrderedDict.values b).
Proof.
  intros Ha Hb Heq v. split; intros Hv; apply values_In in Hv;
    destruct Hv as (k & Hk).
  - apply (In_get _ _ _ Ha) in Hk. rewrite Heq in Hk.
    eapply In_values, get_In; eauto.
  - apply (In_get _ _ _ Hb) in Hk. rewrite <- Heq in Hk.
    eapply In_values, get_In; eauto.
Qed.

(** A split diff without a [kitchen_sink] part: the two tables have the
    same shape. *)
Lemma to_without_kitchen_sink (source target : table) (d : split_dict) :
  NoDup (OrderedDict.keys (tbl_indexes source)) ->
  NoDup (OrderedDict.keys (tbl_indexes target)) ->
  to source target true = inr (Split d) ->
  kitchen_sink d = None ->
  same_shape source target.
Proof.
  intros Hnds Hndt H Hks. unfold to, _differences in H.
  cbv beta iota zeta in H.
  ebind_inv H. rename a into a1, Ha into H1.
  ebind_inv H. rename a into a2, Ha into H2.
  ebind_inv H. rename a into a3, Ha into H3.
  ebind_inv H. rename a into a4, Ha into H4.
  ebind_inv H. rename a into a5, Ha into H5.
  ebind_inv H. rename a into a6, Ha into H6.
  ebind_inv H. ebind_inv H. ebind_inv H.
  inversion H; subst d; clear H. simpl in Hks.
  unfold truthy_key, alter_truthy in Hks.
  destruct (alt_operations a6) eqn:E6; [clear Hks | discriminate].
  eapply (efold_alter (fun k => exists v,
            OrderedDict.get k (tbl_indexes source) = Some v /\
            OrderedDict.get k (tbl_indexes target) = Some v)) in H6;
    [|clear; intros acc x r H | exact E6].
  2:{ ebind_inv H. ebind_inv H. apply getitem_get in Ha, Ha0.
      unfold str_eq_index in H. destruct (index_eq_dec a a0).
      - inversion H; subst. left. eauto.
      - inversion H; subst. right. eauto. }
  destruct H6 as (E5 & Hkeys).
  eapply (efold_alter (fun _ => False)) in H5;
    [|clear; intros acc x r H; ebind_inv H; inversion H; right; eauto
     | exact E5].
  destruct H5 as (E4 & Hremk).
  eapply (efold_alter (fun _ => False)) in H4;
    [|clear; intros acc x r H; ebind_inv H; inversion H; right; eauto
     | exact E4].
  destruct H4 as (E3 & Haddk).
  eapply (efold_alter (fun _ => False)) in H3;
    [|clear; intros acc x r H; ebind_inv H; inversion H; right; eauto
     | exact E3].
  destruct H3 as (E2 & Hremc).
  eapply (efold_alter (fun k => exists v,
            OrderedDict.get k (tbl_columns source) = Some v /\
            OrderedDict.get k (tbl_columns target) = Some v)) in H2;
    [|clear; intros acc x r H | exact E2].
  2:{ ebind_inv H. ebind_inv H. apply getitem_get in Ha, Ha0.
      unfold str_eq_column in H. destruct (column_eq_dec a a0).
      - inversion H; subst. left. eauto.
      - inversion H; subst. right. eauto. }
  destruct H2 as (E1 & Hcols).
  eapply (efold_alter (fun _ => False)) in H1;
    [|clear; intros acc x r H; ebind_inv H; ebind_inv H; inversion H;
      right; eauto
     | exact E1].
  destruct H1 as (_ & Haddc).
  apply no_In_nil in Haddc, Hremc, Haddk, Hremk.
  split.
  - now apply no_differences_get.
  - apply get_eq_values; auto. now apply no_differences_get.
Qed.

Lemma process_updates_returns (db_to : database) (db_from : option database)
  (tracking_db : database) (tables_to_update : list string)
  (upd : updates_dict) :
  _process_updates db_to db_from tracking_db tables_to_update = inr upd ->
  upd = mk_updates_dict [] [] /\
  forall n, In n tables_to_update ->
    exists d source target sd,
      db_from = Some d /\
      OrderedDict.get n (db_tables d) = Some source /\
      OrderedDict.get n (db_tables db_to) = Some target /\
      to source target true = inr (Split sd) /\
      kitchen_sink sd = None /\ fks sd = None.
Proof.
  unfold _process_updates. apply efold_same.
  intros acc n r H.
  ebind_inv H. rename a into target. ebind_inv H. rename a into tables.
  ebind_inv H. rename a into source. ebind_inv H. rename a into more.
  destruct more as [sd|]; [|discriminate].
  destruct (fks sd) eqn:Hfks; [discriminate|]. simpl in H.
  destruct (kitchen_sink sd) eqn:Hks; [discriminate|].
  inversion H; subst r. split; [reflexivity|].
  destruct db_from as [d|]; [|discriminate]. inversion Ha0; subst tables.
  apply getitem_get in Ha, Ha1.
  exists d, source, target, sd. auto 10.
Qed.

(** ** Breaking cycles *)

Lemma remove_constraint_inv (c : str_or constraint) (t t' : table) :
  remove_constraint c t = (inr tt, t') ->
  t' = with_constraints
         (OrderedDict.pop (name_of con_name c) (tbl_constraints t)) t.
Proof.
  unfold remove_constraint. run_M.
  destruct (OrderedDict.mem _ _); simpl; intros H; now inversion H.
Qed.

(** The inner loop of lines 173-175. *)
Lemma strip_constraints (bads : list fk_problem) :
  forall (alter alter' : alter_table) (t t' : table),
    efold (fun '(create_fks, new_table_copy) constraint =>
        let create_fks :=
          add_operation create_fks (AddConstraint (foreign_key constraint)) in
        match remove_constraint (Obj (foreign_key constraint))
                new_table_copy with
        | (inl e, _) => inl e
        | (inr _, new_table_copy) => inr (create_fks, new_table_copy)
        end) bads (alter, t) = inr (alter', t') ->
    alter' = mk_alter_table (alt_table alter)
               (alt_operations alter ++
                map (fun pr => AddConstraint (foreign_key pr)) bads) /\
    tbl_name t' = tbl_name t /\
    tbl_columns t' = tbl_columns t /\
    tbl_indexes t' = tbl_indexes t /\
    (forall k c, In (k, c) (tbl_constraints t') ->
                 In (k, c) (tbl_constraints t)) /\
    (NoDup (OrderedDict.keys (tbl_constraints t)) ->
     forall pr, In pr bads ->
       ~ In (con_name (foreign_key pr))
            (OrderedDict.keys (tbl_constraints t'))).
Proof.
  induction bads as [|pr bads IH]; intros alter alter' t t' H; simpl in H.
  - inversion H; subst. rewrite app_nil_r. destruct alter'.
    split; [|split; [|split; [|split; [|split]]]]; auto.
  - ebind_inv H. destruct a as [alter1 t1].
    destruct (remove_constraint (Obj (foreign_key pr)) t) as [[e|[]] t1']
      eqn:Hrm; [discriminate|].
    inversion Ha; subst alter1 t1'; clear Ha.
    apply remove_constraint_inv in Hrm. simpl in Hrm.
    destruct (IH _ _ _ _ H) as (E & En & Ec & Ei & Hsub & Hgone).
    subst t1. simpl in *.
    split; [|split; [|split; [|split; [|split]]]]; auto.
    + rewrite E. now rewrite <- app_assoc.
    + intros k c Hin. eapply In_pop. eauto.
    + intros Hnd pr' [<-|Hpr'].
      * intros Hin.
        assert (Hk : In (con_name (foreign_key pr))
                  (OrderedDict.keys (OrderedDict.pop
                     (con_name (foreign_key pr)) (tbl_constraints t)))).
        { apply in_map_iff in Hin. destruct Hin as ([k c] & Hk & Hin).
          simpl in Hk. subst k. eapply In_keys. eapply Hsub. eauto. }
        revert Hk. now apply not_In_keys_pop.
      * apply Hgone; [|exact Hpr']. now apply NoDup_keys_pop.
Qed.

Section BreakCycles.
Variable db_to : database.
Hypothesis wf_to : wf_database db_to.

Lemma break_cycle_step (n : string) (l l' : locals) (ops : list operation) :
  break_cycle db_to n l = inr l' ->
  l_operations l = Some ops ->
  exists t copy alter,
    OrderedDict.get n (db_tables db_to) = Some t /\
    l' = mk_locals (l_errors_1215 l) (Some (ops ++ [CreateTable copy])%list)
           (l_fk_operations l ++ [alter])%list
           (l_tracking_db l) (l_tables_to_add l) /\
    queued_alter db_to (l_tracking_db l) n alter /\
    tbl_name copy = n /\
    tbl_columns copy = tbl_columns t /\
    tbl_indexes copy = tbl_indexes t /\
    (forall k c, In (k, c) (tbl_constraints copy) ->
       In (k, c) (tbl_constraints t) /\
       fk_error (l_tracking_db l) t c = None) /\
    (forall pr,
       In pr (OrderedDict.values (unfulfilled_fks (l_tracking_db l) t)) ->
       OrderedDict.mem (con_name (foreign_key pr)) (tbl_constraints copy) =
         false).
Proof.
  intros H Hops. unfold break_cycle in H.
  ebind_inv H. rename a into t. apply getitem_get in Ha.
  ebind_inv H. destruct a as [alter copy].
  rewrite Hops in H. cbn [py_append py_extend ebind] in H.
  inversion H; subst l'; clear H.
  destruct (wf_database_get _ _ _ wf_to Ha) as (Hname & _ & Hnd & Hcn).
  destruct (strip_constraints _ _ _ _ _ Ha0)
    as (E & En & Ec & Ei & Hsub & Hgone).
  simpl in E. specialize (Hgone Hnd).
  destruct (unfulfilled_fks_spec (l_tracking_db l) t) as (_ & Hbad & Hall).
  exists t, copy, (AlterTable alter).
  split; [exact Ha|]. split; [reflexivity|].
  split; [exists t; split; [exact Ha | now rewrite E]|].
  split; [congruence|]. split; [exact Ec|]. split; [exact Ei|]. split.
  - intros k c Hin. split; [now apply Hsub|].
    destruct (fk_error (l_tracking_db l) t c) eqn:He; [|reflexivity].
    exfalso.
    assert (Hk : In k (OrderedDict.keys (unfulfilled_fks (l_tracking_db l) t)))
      by (apply (Hall k c); [now apply Hsub | congruence]).
    apply in_map_iff in Hk. destruct Hk as ([k' pr] & Hk & Hpr).
    simpl in Hk. subst k'.
    destruct (Hbad _ _ Hpr) as (Hin' & _).
    apply Hcn in Hin'.
    apply (Hgone pr); [eapply In_values; eauto|].
    rewrite Hin'. eapply In_keys; eauto.
  - intros pr Hpr.
    destruct (OrderedDict.mem _ (tbl_constraints copy)) eqn:Hm;
      [|reflexivity].
    apply mem_of_key in Hm. now apply Hgone in Hm.
Qed.

Lemma break_cycles_run (pending : list string) :
  forall (l l' : locals) (ops : list operation) (db : database)
         (added : list (string * constraint)),
    efold (fun l n => break_cycle db_to n l) pending l = inr l' ->
    l_operations l = Some ops ->
    NoDup pending ->
    (forall n, In n pending -> OrderedDict.mem n (db_tables db) = false) ->
    extends (l_tracking_db l) db ->
    (forall x, In x added -> satisfiable db x) ->
    exists creates alters db',
      l_operations l' = Some (ops ++ creates)%list /\
      l_fk_operations l' = (l_fk_operations l ++ alters)%list /\
      l_errors_1215 l' = l_errors_1215 l /\
      Forall2 (queued_alter db_to (l_tracking_db l)) pending alters /\
      safe_run db added creates db' /\
      extends db db' /\
      (forall x, In x (flat_map fks_added_by creates) ->
                 from_target db_to x) /\
      (forall n, In n pending ->
         exists t copy,
           OrderedDict.get n (db_tables db_to) = Some t /\
           OrderedDict.get n (db_tables db') = Some copy /\
           same_shape copy t /\
           forall pr,
             In pr (OrderedDict.values
                      (unfulfilled_fks (l_tracking_db l) t)) ->
             OrderedDict.mem (con_name (foreign_key pr))
               (tbl_constraints copy) = false).
Proof.
  induction pending as [|n pending IH];
    intros l l' ops db added H Hops Hnd Hfresh Hext Hadded; simpl in H.
  - inversion H; subst l'. exists [], [], db.
    split; [now rewrite app_nil_r|]. split; [now rewrite app_nil_r|].
    split; [reflexivity|]. split; [constructor|]. split; [reflexivity|].
    split; [intros k v Hk; exact Hk|].
    split; [intros x [] | intros n []].
  - ebind_inv H. rename a into l1.
    destruct (break_cycle_step _ _ _ _ Ha Hops)
      as (t & copy & alter & Ht & El1 & Hq & Hname & Hcols & Hidx & Hcs & Hrm).
    apply NoDup_cons_iff in Hnd. destruct Hnd as [Hn Hnd'].
    assert (Hadd : exists db1, add_table copy db = inr db1).
    { unfold add_table. rewrite (Hfresh (tbl_name copy)); [eauto | now left]. }
    destruct Hadd as (db1 & Hadd).
    assert (Hsat1 : forall x, In x (added ++ fks_added_by (CreateTable copy)) ->
                              satisfiable db1 x).
    { intros x Hx. apply in_app_or in Hx. destruct Hx as [Hx|Hx].
      - eapply satisfiable_add_table; eauto.
      - eapply create_table_safe; eauto.
        intros c Hc. apply values_In in Hc. destruct Hc as (k & Hc).
        destruct (Hcs _ _ Hc) as (_ & Herr).
        apply fk_error_None in Herr. destruct Herr as (f & Hf & Hok).
        exists f. split; [now apply Hext|]. now rewrite Hcols. }
    destruct (IH l1 l' (ops ++ [CreateTable copy])%list db1
                (added ++ fks_added_by (CreateTable copy))%list H)
      as (creates & alters & db' & E1 & E2 & E3 & HF & Hsafe & Hext' & Hft & Hcp).
    + now rewrite El1.
    + exact Hnd'.
    + intros m Hm. destruct (add_table_inv _ _ _ Hadd) as (_ & ->).
      rewrite mem_set_other; [apply Hfresh; now right|].
      intros ->. rewrite Hname in Hm. contradiction.
    + rewrite El1. simpl. intros k v Hk. eapply add_table_get; eauto.
    + exact Hsat1.
    + rewrite El1 in E2, E3, HF, Hcp. simpl in E2, E3, HF, Hcp.
      exists (CreateTable copy :: creates), (alter :: alters), db'.
      split; [now rewrite E1, <- app_assoc|].
      split; [now rewrite E2, <- app_assoc|].
      split; [exact E3|].
      split; [constructor; assumption|].
      split; [exists db1; auto|].
      split; [intros k v Hk; apply Hext'; eapply add_table_get; eauto|].
      split.
      * intros x Hx. apply in_app_or in Hx. destruct Hx as [Hx|Hx]; [|auto].
        simpl in Hx. apply in_map_iff in Hx. destruct Hx as (c & <- & Hc).
        apply values_In in Hc. destruct Hc as (k & Hc).
        exists t, k. simpl. split; [now rewrite Hname|]. now apply Hcs.
      * intros m [<-|Hm]; [|auto].
        exists t, copy. split; [exact Ht|]. split.
        -- apply Hext'. rewrite <- Hname. eapply add_table_get_new; eauto.
        -- split; [|exact Hrm]. split; intros; [now rewrite Hcols|].
           now rewrite Hidx.
Qed.
End BreakCycles.

(** ** Dropping tables *)

Lemma drop_tables_operations (removes : list string) :
  forall (l l' : locals) (ops : list operation),
    drop_tables removes l = inr l' ->
    l_operations l = Some ops ->
    l_operations l' = Some (ops ++ map RemoveTable removes)%list /\
    l_fk_operations l' = l_fk_operations l /\
    l_errors_1215 l' = l_errors_1215 l.
Proof.
  unfold drop_tables.
  induction removes as [|n removes IH]; intros l l' ops H Hops; simpl in H.
  - inversion H; subst. now rewrite app_nil_r.
  - ebind_inv H. rename a into l1. unfold drop_table in Ha.
    rewrite Hops in Ha. cbn [py_append py_extend ebind] in Ha.
    ebind_inv Ha. inversion Ha; subst l1; clear Ha.
    destruct (IH _ _ _ H eq_refl) as (E1 & E2 & E3). simpl in *.
    rewrite E1, <- app_assoc. auto.
Qed.

Lemma drops_safe (removes : list string) :
  forall (db : database) (added : list (string * constraint)),
    NoDup removes ->
    (forall n, In n removes -> OrderedDict.mem n (db_tables db) = true) ->
    (forall x, In x added -> satisfiable db x) ->
    (forall x n, In x added -> In n removes ->
       fst x <> n /\ con_foreign_table (snd x) <> n) ->
    exists db',
      safe_run db added (map RemoveTable removes) db' /\
      forall k, ~ In k removes ->
        OrderedDict.get k (db_tables db') = OrderedDict.get k (db_tables db).
Proof.
  induction removes as [|n removes IH]; intros db added Hnd Hin Hsat Hne;
    simpl.
  - exists db. auto.
  - apply NoDup_cons_iff in Hnd. destruct Hnd as [Hn Hnd].
    set (db1 := {| db_tables := OrderedDict.pop n (db_tables db) |}).
    assert (Hrm : remove_table n db = inr db1).
    { unfold remove_table. rewrite (Hin n); [reflexivity | now left]. }
    assert (Hsat1 : forall x, In x added -> satisfiable db1 x).
    { intros x Hx. apply (satisfiable_transfer db); [auto|].
      intros k t Hk Hget. exists t. split; [|apply same_shape_refl].
      simpl. rewrite get_pop_other; [exact Hget|].
      destruct (Hne x n Hx (or_introl eq_refl)) as [H1 H2].
      destruct Hk; congruence. }
    destruct (IH db1 added Hnd) as (db' & Hsafe & Hget); auto.
    { intros m Hm. simpl. unfold OrderedDict.mem.
      rewrite get_pop_other; [apply Hin; now right|].
      intros ->. contradiction. }
    { intros x m Hx Hm. apply Hne; [exact Hx | now right]. }
    exists db'. split.
    + exists db1. rewrite app_nil_r. auto.
    + intros k Hk. rewrite Hget by tauto. simpl.
      apply get_pop_other. intros ->. apply Hk. now left.
Qed.

(** ** Adding the queued foreign keys back *)

Lemma add_constraints_run (cs : list constraint) :
  forall t : table,
    NoDup (map con_name cs) ->
    (forall c, In c cs ->
       OrderedDict.mem (con_name c) (tbl_constraints t) = false) ->
    exists t',
      apply_all_to_table (map AddConstraint cs) t = (inr tt, t') /\
      tbl_columns t' = tbl_columns t /\ tbl_indexes t' = tbl_indexes t.
Proof.
  induction cs as [|c cs IH]; intros t Hnd Hfresh; simpl.
  - exists t. auto.
  - simpl in Hnd. apply NoDup_cons_iff in Hnd. destruct Hnd as [Hc Hnd].
    unfold bind, add_constraint. run_M.
    rewrite (Hfresh c (or_introl eq_refl)).
    destruct (IH (with_constraints
                    (OrderedDict.set (con_name c) c (tbl_constraints t)) t)
                Hnd) as (t' & Hrun & Hcols & Hidx).
    + intros c' Hc'. simpl. rewrite mem_set_other; [apply Hfresh; now right|].
      intros Heq. apply Hc. rewrite <- Heq. now apply in_map.
    + exists t'. rewrite Hrun. auto.
Qed.

Lemma map_values_keys {V} (g : V -> string) (d : odict V) :
  (forall k v, In (k, v) d -> g v = k) ->
  map g (OrderedDict.values d) = OrderedDict.keys d.
Proof.
  induction d as [|[k v] d IH]; intros H; simpl; [reflexivity|].
  rewrite (H k v (or_introl eq_refl)). f_equal. apply IH.
  intros k' v' Hin. apply H. now right.
Qed.

Lemma fks_added_by_queued (n : string) (bads : list fk_problem)
  (x : string * constraint) :
  In x (fks_added_by
          (AlterTable (mk_alter_table n
             (map (fun pr => AddConstraint (foreign_key pr)) bads)))) <->
  exists pr, In pr bads /\ x = (n, foreign_key pr).
Proof.
  simpl. rewrite in_flat_map. split.
  - intros (o & Ho & Hx). apply in_map_iff in Ho.
    destruct Ho as (pr & <- & Hpr). destruct Hx as [<-|[]]. eauto.
  - intros (pr & Hpr & ->). exists (AddConstraint (foreign_key pr)).
    split; [now apply in_map_iff; eauto | now left].
Qed.

Section AddBack.
Variables db_to tracking : database.
Hypothesis wf_to : wf_database db_to.

Lemma alters_safe (pending : list string) :
  forall (alters : list operation) (db : database)
         (added : list (string * constraint)),
    Forall2 (queued_alter db_to tracking) pending alters ->
    NoDup pending ->
    (forall k t, OrderedDict.get k (db_tables db_to) = Some t ->
       exists t', OrderedDict.get k (db_tables db) = Some t' /\
                  same_shape t' t) ->
    (forall n, In n pending ->
       exists t copy,
         OrderedDict.get n (db_tables db_to) = Some t /\
         OrderedDict.get n (db_tables db) = Some copy /\
         unfulfilled_fks db_to t = [] /\
         forall pr,
           In pr (OrderedDict.values (unfulfilled_fks tracking t)) ->
           OrderedDict.mem (con_name (foreign_key pr))
             (tbl_constraints copy) = false) ->
    (forall x, In x added -> satisfiable db x) ->
    exists db', safe_run db added alters db'.
Proof.
  induction pending as [|n pending IH];
    intros alters db added HF Hnd Hcover Hpend Hsat;
    inversion HF as [|? alter ? alters' Hq HF']; subst; simpl.
  - eauto.
  - apply NoDup_cons_iff in Hnd. destruct Hnd as [Hn Hnd].
    destruct Hq as (t & Ht & ->).
    destruct (Hpend n (or_introl eq_refl))
      as (t0 & copy & Ht0 & Hcopy & Hok & Hfresh).
    assert (t0 = t) by congruence. subst t0.
    destruct (wf_database_get _ _ _ wf_to Ht) as (_ & _ & _ & Hcn).
    destruct (unfulfilled_fks_spec tracking t) as (Hndb & Hbad & _).
    set (bads := OrderedDict.values (unfulfilled_fks tracking t)) in *.
    assert (Hnames : forall k pr, In (k, pr) (unfulfilled_fks tracking t) ->
                       con_name (foreign_key pr) = k).
    { intros k pr Hin. apply Hcn. now apply Hbad. }
    destruct (add_constraints_run (map foreign_key bads) copy)
      as (copy' & Hrun & Hcols & Hidx).
    { rewrite map_map. unfold bads.
      rewrite (map_values_keys (fun pr => con_name (foreign_key pr)));
        auto. }
    { intros c Hc. apply in_map_iff in Hc. destruct Hc as (pr & <- & Hpr).
      now apply Hfresh. }
    rewrite map_map in Hrun.
    set (db1 := {| db_tables := OrderedDict.set n copy' (db_tables db) |}).
    assert (Hkeep : forall k v, OrderedDict.get k (db_tables db) = Some v ->
              exists v', OrderedDict.get k (db_tables db1) = Some v' /\
                         same_shape v v').
    { intros k v Hk. simpl. destruct (string_dec k n) as [->|Hne].
      - rewrite get_set_same. exists copy'. split; [reflexivity|].
        assert (v = copy) by congruence. subst v.
        split; intros; [now rewrite Hcols | now rewrite Hidx].
      - rewrite get_set_other by assumption. exists v.
        split; [exact Hk | apply same_shape_refl]. }
    assert (Hcover1 : forall k f, OrderedDict.get k (db_tables db_to) = Some f ->
              exists f', OrderedDict.get k (db_tables db1) = Some f' /\
                         same_shape f' f).
    { intros k f Hk. destruct (Hcover k f Hk) as (f0 & Hf0 & Hs0).
      destruct (Hkeep k f0 Hf0) as (f' & Hf' & Hs').
      exists f'. split; [exact Hf'|].
      eapply same_shape_trans; [apply same_shape_sym; exact Hs' | exact Hs0]. }
    assert (Hsat1 : forall x,
              In x (added ++ fks_added_by
                      (AlterTable (mk_alter_table n
                         (map (fun pr => AddConstraint (foreign_key pr))
                            bads)))) ->
              satisfiable db1 x).
    { intros x Hx. apply in_app_or in Hx. destruct Hx as [Hx|Hx].
      - apply (satisfiable_transfer db); [auto|].
        intros k v _ Hk. now apply Hkeep.
      - apply fks_added_by_queued in Hx. destruct Hx as (pr & Hpr & ->).
        apply values_In in Hpr. destruct Hpr as (k & Hpr).
        destruct (Hbad _ _ Hpr) as (Hin & _).
        pose proof (unfulfilled_fks_nil _ _ Hok _ _ Hin) as Herr.
        apply fk_error_None in Herr. destruct Herr as (f & Hf & Hholds).
        destruct (Hcover1 _ _ Hf) as (f' & Hf' & Hs').
        destruct (Hcover n t Ht) as (c0 & Hc0 & [Hcc _]).
        assert (c0 = copy) by congruence. subst c0.
        exists copy'. simpl. split; [apply get_set_same|].
        apply fk_error_None. exists f'. split; [exact Hf'|].
        rewrite <- Hholds. apply fk_holds_shape; [|exact Hs'].
        intros k'. now rewrite Hcols. }
    destruct (IH alters' db1
                (added ++ fks_added_by
                   (AlterTable (mk_alter_table n
                      (map (fun pr => AddConstraint (foreign_key pr))
                         bads))))%list HF' Hnd Hcover1) as (db' & Hsafe).
    + intros m Hm. destruct (Hpend m (or_intror Hm))
        as (tm & cm & Htm & Hcm & Hokm & Hfm).
      exists tm, cm. split; [exact Htm|]. split; [|auto].
      simpl. rewrite get_set_other; [exact Hcm|].
      intros ->. contradiction.
    + exact Hsat1.
    + exists db'. exists db1. split; [|auto].
      unfold apply_operation. cbn [alt_table alt_operations].
      rewrite Hcopy, Hrun. reflexivity.
Qed.
End AddBack.

(** ** Putting the phases together *)

Lemma filter_all {A} (p : A -> bool) (l : list A) :
  (forall x, p x = true) -> filter p l = l.
Proof.
  intros H. induction l as [|x l IH]; simpl; [reflexivity|].
  now rewrite H, IH.
Qed.

Lemma initial_tracking_tables (db_from : option database) :
  db_tables (initial_tracking_db db_from) =
    match db_from with Some d => db_tables d | None => [] end.
Proof. destruct db_from; reflexivity. Qed.

Lemma from_target_of_create (db_to : database) (t : table)
  (x : string * constraint) :
  OrderedDict.get (tbl_name t) (db_tables db_to) = Some t ->
  In x (fks_added_by (CreateTable t)) ->
  from_target db_to x.
Proof.
  intros Ht Hx. simpl in Hx. apply in_map_iff in Hx.
  destruct Hx as (c & <- & Hc). apply values_In in Hc.
  destruct Hc as (k & Hc). exists t, k. auto.
Qed.

Lemma flat_map_remove_table (removes : list string) :
  flat_map fks_added_by (map RemoveTable removes) = [].
Proof. induction removes; simpl; auto. Qed.

Lemma second_add_pass_noop (db_to tracking0 : database)
  (pending0 : list string) (st : adds_state)
  (ops : option (list operation)) (queued : list operation) :
  _process_adds db_to tracking0 pending0 = inr st ->
  second_add_pass db_to
    (mk_locals [] ops queued (st_tracking_db st) (st_tables_to_add st)) =
    inr (mk_locals [] ops queued (st_tracking_db st) (st_tables_to_add st)).
Proof.
  intros H. unfold second_add_pass.
  cbn [l_tables_to_add l_tracking_db l_operations l_fk_operations].
  destruct (st_tables_to_add st) as [|n l] eqn:HL; [reflexivity|].
  destruct (second_pass_emits_nothing _ _ _ _ H) as (good & H2).
  rewrite HL in H2. rewrite H2. reflexivity.
Qed.

Lemma add_back_fks_operations (l : locals) (p : plan)
  (ops : list operation) :
  add_back_fks l = inr p ->
  l_operations l = Some ops ->
  operations p = Some (ops ++ l_fk_operations l)%list /\
  errors_1215 p = l_errors_1215 l.
Proof.
  unfold add_back_fks. intros H Hops. rewrite Hops in H.
  destruct (l_fk_operations l); simpl in H; inversion H; subst; simpl.
  - now rewrite app_nil_r.
  - auto.
Qed.

(** A target that plans without error on its own has no foreign key
    pointing outside of it. *)
Lemma check_gives_targets (db_to : database) (check : plan) :
  wf_database db_to ->
  _process_checked db_to None = inr check ->
  errors_1215 check = [] ->
  targets_in_target db_to.
Proof.
  intros Hwf H Herrs. unfold _process_checked, _differences in H.
  cbv beta iota zeta in H.
  rewrite (filter_all (fun key => negb (OrderedDict.mem key []))) in H
    by reflexivity.
  ebind_inv H. rename a into st.
  destruct (st_errors_1215 st) eqn:Herr.
  2:{ inversion H; subst check. discriminate. }
  clear H.
  pose proof (process_adds_ends_stuck _ _ _ _ Ha) as Hstuck.
  apply (pass_invariant_holds db_to _ _ Hwf) in Ha;
    [|constructor | apply Hwf | reflexivity].
  destruct Ha as (Hsafe & _ & _ & _ & _ & Hkeys & Hacc & _).
  intros k t kc c Hk Hin.
  assert (Hk0 : In k (OrderedDict.keys (db_tables db_to)))
    by (eapply In_keys, get_In; eauto).
  destruct (Hacc Herr k Hk0) as [HL|(t' & Ht' & _ & Hop)].
  - destruct (Hstuck k HL) as (t' & Ht' & _ & Hok).
    apply getitem_get in Ht'. assert (t' = t) by congruence. subst t'.
    pose proof (unfulfilled_fks_nil _ _ Hok _ _ Hin) as He.
    apply fk_error_None in He. destruct He as (f & Hf & _).
    unfold OrderedDict.mem. now rewrite Hf.
  - assert (t' = t) by congruence. subst t'.
    assert (Hx : satisfiable (st_tracking_db st) (tbl_name t, c)).
    { eapply safe_run_end; [|exact Hsafe|]; [intros x []|].
      simpl. apply in_flat_map. exists (CreateTable t). split; [exact Hop|].
      simpl. apply in_map_iff. exists c. split; [reflexivity|].
      eapply In_values; eauto. }
    destruct Hx as (t0 & _ & He). apply fk_error_None in He.
    destruct He as (f & Hf & _). simpl in Hf.
    apply mem_of_key.
    destruct (Hkeys (con_foreign_table c)) as [[]|Hin0];
      [eapply In_keys, get_In; eauto | exact Hin0].
Qed.

Lemma process_checked_safe (db_to : database) (db_from : option database)
  (p : plan) (ops : list operation) :
  wf_database db_to ->
  wf_source db_from ->
  (db_from <> None -> targets_in_target db_to) ->
  _process_checked db_to db_from = inr p ->
  errors_1215 p = [] ->
  operations p = Some ops ->
  exists db', safe_run (initial_tracking_db db_from) [] ops db'.
Proof.
  intros Hwf Hwff Htargets H Herrs Hops.
  pose proof (initial_tracking_tables db_from) as Htab.
  set (tracking0 := initial_tracking_db db_from) in *.
  unfold _process_checked, _differences in H. cbv beta iota zeta in H.
  fold tracking0 in H. rewrite <- Htab in H.
  set (pending0 := filter (fun key =>
         negb (OrderedDict.mem key (db_tables tracking0)))
         (OrderedDict.keys (db_tables db_to))) in *.
  set (removes := filter (fun key =>
         negb (OrderedDict.mem key (db_tables db_to)))
         (OrderedDict.keys (db_tables tracking0))) in *.
  set (updates := filter (fun key => OrderedDict.mem key (db_tables db_to))
         (OrderedDict.keys (db_tables tracking0))) in *.
  ebind_inv H. rename a into st, Ha into Hadds.
  destruct (st_errors_1215 st) eqn:Herr.
  2:{ inversion H; subst p. discriminate. }
  ebind_inv H. rename a into upd, Ha into Hupd.
  destruct (process_updates_returns _ _ _ _ _ Hupd) as (-> & HU).
  cbn [upd_kitchen_sink upd_fks ebind] in H.
  rewrite (second_add_pass_noop _ _ _ _ _ _ Hadds) in H.
  cbn [ebind] in H. unfold finish in H.
  ebind_inv H. rename a into l3, Ha into Hcycles.
  ebind_inv H. rename a into l4, Ha into Hdrops.
  (* the first pass *)
  assert (HndT0 : NoDup (OrderedDict.keys (db_tables tracking0))).
  { rewrite Htab. destruct db_from as [d|]; [apply Hwff | constructor]. }
  assert (Hfresh0 : forall n, In n pending0 ->
            OrderedDict.mem n (db_tables tracking0) = false).
  { intros n Hn. apply filter_In in Hn. destruct Hn as [_ Hn].
    now apply negb_true_iff in Hn. }
  pose proof (process_adds_ends_stuck _ _ _ _ Hadds) as Hstuck.
  pose proof (pass_invariant_holds db_to tracking0 pending0 Hwf st HndT0
                (NoDup_filter _ (proj1 Hwf)) Hfresh0 Hadds) as Hinv.
  destruct Hinv as (Hsafe1 & HndT1 & HndL & Hpend & Hext1 & _ & Hacc & Horig).
  specialize (Hacc Herr).
  assert (Hsat1 : forall x,
            In x ([] ++ flat_map fks_added_by (st_operations st)) ->
            satisfiable (st_tracking_db st) x).
  { eapply safe_run_end; [|exact Hsafe1]. intros x []. }
  (* the cycle break *)
  destruct (break_cycles_run db_to Hwf _ _ _ (st_operations st)
              (st_tracking_db st)
              ([] ++ flat_map fks_added_by (st_operations st))%list
              Hcycles eq_refl HndL)
    as (creates & alters & db2 & E1 & E2 & E3 & HF & Hsafe2 & Hext2 & Hft & Hcp);
    [intros n Hn; now apply Hpend | intros k v Hk; exact Hk | exact Hsat1 |].
  cbn [l_fk_operations l_errors_1215 l_tracking_db app] in E2, E3, HF, Hcp.
  pose proof (safe_run_app _ _ _ _ _ _ Hsafe1 Hsafe2) as Hsafe12.
  assert (Hsat2 : forall x,
            In x ([] ++ flat_map fks_added_by (st_operations st ++ creates)) ->
            satisfiable db2 x).
  { eapply safe_run_end; [|exact Hsafe12]. intros x []. }
  assert (Hfrom2 : forall x,
            In x ([] ++ flat_map fks_added_by (st_operations st ++ creates)) ->
            from_target db_to x).
  { intros x Hx. simpl in Hx. rewrite flat_map_app in Hx.
    apply in_app_or in Hx. destruct Hx as [Hx|Hx]; [|auto].
    apply in_flat_map in Hx. destruct Hx as (op & Hop & Hx).
    destruct (Horig op Hop) as (t & -> & Ht).
    eapply from_target_of_create; eauto. }
  (* the drops *)
  destruct (drop_tables_operations _ _ _ _ Hdrops E1) as (E4 & E5 & E6).
  assert (Hrem_in : forall n, In n removes ->
            OrderedDict.mem n (db_tables db_to) = false /\
            exists v, OrderedDict.get n (db_tables tracking0) = Some v).
  { intros n Hn. apply filter_In in Hn. destruct Hn as [Hk Hn].
    apply negb_true_iff in Hn. split; [exact Hn|].
    apply mem_of_key in Hk. unfold OrderedDict.mem in Hk.
    destruct (OrderedDict.get n (db_tables tracking0)); [eauto|discriminate]. }
  destruct (drops_safe removes db2
              ([] ++ flat_map fks_added_by (st_operations st ++ creates))%list)
    as (db3 & Hsafe3 & Hget3).
  { apply NoDup_filter. exact HndT0. }
  { intros n Hn. destruct (Hrem_in n Hn) as (_ & v & Hv).
    unfold OrderedDict.mem. now rewrite (Hext2 _ _ (Hext1 _ _ Hv)). }
  { exact Hsat2. }
  { intros x n Hx Hn. destruct (Hrem_in n Hn) as (Hnot & _).
    destruct (Hfrom2 x Hx) as (t & k & Ht & Hc).
    assert (Hsome : db_from <> None).
    { intros ->. unfold removes in Hn. rewrite Htab in Hn. destruct Hn. }
    pose proof (Htargets Hsome _ _ _ _ Ht Hc) as Hft0.
    unfold OrderedDict.mem in Hnot, Hft0. split; intros Heq.
    - rewrite Heq in Ht. now rewrite Ht in Hnot.
    - rewrite Heq in Hft0.
      destruct (OrderedDict.get n (db_tables db_to)); discriminate. }
  pose proof (safe_run_app _ _ _ _ _ _ Hsafe12 Hsafe3) as Hsafe123.
  assert (Hsat3 : forall x,
            In x ([] ++ flat_map fks_added_by
                          ((st_operations st ++ creates) ++
                           map RemoveTable removes)) ->
            satisfiable db3 x).
  { eapply safe_run_end; [|exact Hsafe123]. intros x []. }
  assert (Hkept : forall k, OrderedDict.mem k (db_tables db_to) = true ->
            OrderedDict.get k (db_tables db3) =
            OrderedDict.get k (db_tables db2)).
  { intros k Hk. apply Hget3. intros Hin.
    destruct (Hrem_in k Hin) as (Hnot & _). congruence. }
  (* the queued foreign keys *)
  destruct (alters_safe db_to (st_tracking_db st) Hwf
              (st_tables_to_add st) alters db3
              ([] ++ flat_map fks_added_by
                       ((st_operations st ++ creates) ++
                        map RemoveTable removes))%list HF HndL)
    as (db4 & Hsafe4).
  { intros k t Hk.
    assert (Hmem : OrderedDict.mem k (db_tables db_to) = true)
      by (unfold OrderedDict.mem; now rewrite Hk).
    rewrite (Hkept k Hmem).
    destruct (OrderedDict.mem k (db_tables tracking0)) eqn:Hfrom.
    - assert (Hu : In k updates).
      { apply filter_In. split; [now apply mem_of_key | exact Hmem]. }
      destruct (HU k Hu) as (d & src & tgt & sd & -> & Hs & Ht & Hto & Hks & _).
      assert (tgt = t) by congruence. subst tgt.
      exists src. split.
      + apply Hext2, Hext1. rewrite Htab. exact Hs.
      + eapply to_without_kitchen_sink; eauto.
        * destruct (wf_database_get _ _ _ Hwff Hs) as (_ & Hi & _). exact Hi.
        * destruct (wf_database_get _ _ _ Hwf Hk) as (_ & Hi & _). exact Hi.
    - assert (Hp : In k pending0).
      { apply filter_In. split; [eapply In_keys, get_In; eauto|].
        now rewrite Hfrom. }
      destruct (Hacc k Hp) as [HL|(t' & Ht' & Hcr & _)].
      + destruct (Hcp k HL) as (t' & copy & Ht' & Hcopy & Hshape & _).
        assert (t' = t) by congruence. subst t'. eauto.
      + assert (t' = t) by congruence. subst t'.
        exists t. split; [now apply Hext2 | apply same_shape_refl]. }
  { intros n Hn. destruct (Hcp n Hn) as (t & copy & Ht & Hcopy & _ & Hfr).
    destruct (Hstuck n Hn) as (t' & Ht' & _ & Hok).
    apply getitem_get in Ht'. assert (t' = t) by congruence. subst t'.
    exists t, copy. split; [exact Ht|]. split; [|auto].
    rewrite Hkept; [exact Hcopy|].
    unfold OrderedDict.mem. now rewrite Ht. }
  { exact Hsat3. }
  pose proof (safe_run_app _ _ _ _ _ _ Hsafe123 Hsafe4) as Hall.
  destruct (add_back_fks_operations _ _ _ H E4) as (Eops & _).
  rewrite E5, E2 in Eops. rewrite Hops in Eops. inversion Eops; subst ops.
  exists db4. exact Hall.
Qed.

(** ** FK safety *)

Lemma nodupb_NoDup (l : list string) : nodupb l = true -> NoDup l.
Proof.
  induction l as [|x l IH]; simpl; [constructor|].
  intros H. apply andb_true_iff in H. destruct H as [Hx Hl].
  constructor; [|auto]. intros Hin. apply in_list_In in Hin.
  rewrite Hin in Hx. discriminate.
Qed.

Lemma wf_tableb_sound (t : table) : wf_tableb t = true -> wf_table t.
Proof.
  unfold wf_tableb, wf_table. intros H.
  apply andb_true_iff in H. destruct H as [H Hc].
  apply andb_true_iff in H. destruct H as [Hi Hk].
  split; [now apply nodupb_NoDup|]. split; [now apply nodupb_NoDup|].
  intros k c Hin. rewrite forallb_forall in Hc.
  specialize (Hc _ Hin). now apply String.eqb_eq in Hc.
Qed.

Lemma wf_databaseb_sound (db : database) :
  wf_databaseb db = true -> wf_database db.
Proof.
  unfold wf_databaseb, wf_database. intros H.
  apply andb_true_iff in H. destruct H as [Hk Ht].
  split; [now apply nodupb_NoDup|].
  intros k t Hin. rewrite forallb_forall in Ht. specialize (Ht _ Hin).
  apply andb_true_iff in Ht. destruct Ht as [Hn Hw]. simpl in *.
  split; [now apply String.eqb_eq | now apply wf_tableb_sound].
Qed.

(** C1.  Take well-formed schemas for which the planner returns a list of
    operations and no 1215 error.  Then every prefix of that list replays
    without raising on the tracking schema (the source, or the empty
    database when there is none), and in the schema it yields every
    foreign key added by an operation of the prefix is satisfiable. *)
Theorem fk_safety :
  forall (db_to : database) (db_from : option database) (p : plan)
         (ops : list operation),
    wf_database db_to ->
    wf_source db_from ->
    mygration db_to db_from = inr p ->
    errors_1215 p = [] ->
    operations p = Some ops ->
    forall k, exists dbk,
      apply_operations (firstn k ops) (initial_tracking_db db_from) =
        inr dbk /\
      forall x, In x (flat_map fks_added_by (firstn k ops)) ->
                satisfiable dbk x.
Proof.
  intros db_to db_from p ops Hwf Hwff H Herrs Hops k.
  assert (Hsafe : exists db',
            safe_run (initial_tracking_db db_from) [] ops db').
  { unfold mygration, _process in H. destruct db_from as [d|].
    - ebind_inv H. rename a into check.
      destruct (errors_1215 check) eqn:Hcheck.
      + apply (process_checked_safe db_to (Some d) p ops Hwf Hwff);
          [|exact H | exact Herrs | exact Hops].
        intros _. apply (check_gives_targets db_to check Hwf Ha Hcheck).
      + inversion H; subst p. discriminate.
    - apply (process_checked_safe db_to None p ops Hwf Hwff);
        [|exact H | exact Herrs | exact Hops].
      intros Hne. now destruct Hne. }
  destruct Hsafe as (db' & Hsafe).
  destruct (safe_run_prefixes ops _ [] db' (fun x (F : In x []) =>
              match F with end) Hsafe k) as (dbk & Hrun & Hall).
  exists dbk. split; [exact Hrun | exact Hall].
Qed.

Lemma fk_safety_witness :
  mygration db_cyclic_histories (Some db_accounts_logs) =
    inr (mk_plan [] (Some cyclic_histories_operations)) /\
  exists dbk,
    apply_operations (firstn 5 cyclic_histories_operations)
      db_accounts_logs = inr dbk /\
    forall x, In x (flat_map fks_added_by
                      (firstn 5 cyclic_histories_operations)) ->
              satisfiable dbk x.
Proof.
  split; [vm_compute; reflexivity|].
  apply (fk_safety db_cyclic_histories (Some db_accounts_logs)
           (mk_plan [] (Some cyclic_histories_operations))
           cyclic_histories_operations).
  - apply wf_databaseb_sound. vm_compute. reflexivity.
  - apply wf_databaseb_sound. vm_compute. reflexivity.
  - vm_compute. reflexivity.
  - reflexivity.
  - reflexivity.
Defined.

(** ** The loops of the add pass never run out of fuel *)

Section Fuel.
Variable db_to : database.

Lemma adds_body_length (name : string) (st st' : adds_state) :
  adds_body db_to name st = inr st' ->
  List.length (st_tables_to_add st') <= List.length (st_tables_to_add st).
Proof.
  intros H. unfold adds_body in H. ebind_inv H.
  destruct (unfulfilled_fks (st_tracking_db st) a).
  - ebind_inv H. ebind_inv H. inversion H; subst; simpl.
    apply list_remove_length in Ha0. lia.
  - destruct (in_list name (st_good_tables st)); [inversion H; subst; lia|].
    destruct (unfulfilled_fks db_to a); [inversion H; subst; simpl; lia|].
    ebind_inv H. inversion H; subst; simpl.
    apply list_remove_length in Ha0. lia.
Qed.

Lemma sweep_length (fuel i : nat) (st st' : adds_state) :
  sweep db_to fuel i st = inr st' ->
  List.length (st_tables_to_add st') <= List.length (st_tables_to_add st).
Proof.
  intros H.
  apply (sweep_invariant db_to
           (fun s => List.length (st_tables_to_add s) <=
                     List.length (st_tables_to_add st))) in H; auto.
  intros name s s' Hs Hb. apply adds_body_length in Hb. lia.
Qed.

(** More rounds than the list is long change nothing: the iterator has
    stopped by then. *)
Lemma sweep_fuel (fuel : nat) :
  forall i st extra,
    List.length (st_tables_to_add st) <= i + fuel ->
    sweep db_to (fuel + extra) i st = sweep db_to fuel i st.
Proof.
  induction fuel as [|fuel IH]; intros i st extra Hlen.
  - simpl. destruct extra as [|extra]; [reflexivity|]. simpl.
    assert (Hn : nth_error (st_tables_to_add st) i = None)
      by (apply nth_error_None; lia).
    now rewrite Hn.
  - simpl. destruct (nth_error (st_tables_to_add st) i) as [name|];
      [|reflexivity].
    destruct (adds_body db_to name st) as [e|st1] eqn:Hb; [reflexivity|].
    simpl. apply IH. apply adds_body_length in Hb. lia.
Qed.

(** The same for the [while] loop: it has left by its own condition
    before the fuel of [_process_adds] is spent. *)
Lemma adds_loop_fuel (fuel : nat) :
  forall last st extra,
    1 <= fuel ->
    (List.length (st_tables_to_add st) = last \/
     List.length (st_tables_to_add st) < fuel) ->
    adds_loop db_to (fuel + extra) last st = adds_loop db_to fuel last st.
Proof.
  induction fuel as [|fuel IH]; intros last st extra Hfuel Hlen; [lia|].
  simpl.
  destruct (List.length (st_tables_to_add st) =? 0)%nat eqn:H0;
    [reflexivity|].
  destruct (List.length (st_tables_to_add st) =? last)%nat eqn:Hl;
    [reflexivity|].
  simpl. apply Nat.eqb_neq in H0, Hl.
  destruct (sweep db_to _ 0 st) as [e|st1] eqn:Hs; [reflexivity|].
  simpl. apply sweep_length in Hs. apply IH; lia.
Qed.

Lemma process_adds_fuel (tracking_db : database) (tables_to_add : list string)
  (extra : nat) :
  adds_loop db_to (S (List.length tables_to_add) + extra) 0
    (mk_adds_state [] [] [] tracking_db tables_to_add) =
  _process_adds db_to tracking_db tables_to_add.
Proof. unfold _process_adds. apply adds_loop_fuel; simpl; lia. Qed.
End Fuel.

(** ** Planning a well-formed target from nothing always returns *)

Lemma list_remove_total (x : string) (l : list string) :
  In x l -> exists l', list_remove x l = inr l'.
Proof.
  induction l as [|y l IH]; simpl; [tauto|].
  intros Hin. destruct (String.eqb_spec x y); [eauto|].
  destruct Hin as [->|Hin]; [congruence|].
  destruct (IH Hin) as (l' & ->). simpl. eauto.
Qed.

Section Totality.
Variables db_to tracking0 : database.
Variable pending0 : list string.
Hypothesis wf_to : wf_database db_to.
Hypothesis pending_in_target :
  forall n, In n pending0 -> In n (OrderedDict.keys (db_tables db_to)).

Lemma adds_body_total (name : string) (st : adds_state) :
  pass_invariant db_to tracking0 pending0 st ->
  In name (st_tables_to_add st) ->
  exists st', adds_body db_to name st = inr st'.
Proof.
  intros (_ & _ & _ & Hpend & _) Hin.
  destruct (Hpend name Hin) as (Hin0 & Hfresh).
  destruct (getitem_of_key _ _ (pending_in_target name Hin0)) as (t & Ht).
  pose proof Ht as Hget. apply getitem_get in Hget.
  destruct (wf_database_get _ _ _ wf_to Hget) as (Hname & _).
  destruct (list_remove_total _ _ Hin) as (l' & Hl').
  unfold adds_body. rewrite Ht. cbn [ebind].
  destruct (unfulfilled_fks (st_tracking_db st) t).
  - rewrite Hl'. cbn [ebind]. unfold add_table. rewrite Hname, Hfresh.
    cbn [ebind]. eauto.
  - destruct (in_list name (st_good_tables st)); [eauto|].
    destruct (unfulfilled_fks db_to t); [eauto|].
    rewrite Hl'. cbn [ebind]. eauto.
Qed.

Lemma sweep_total (fuel : nat) :
  forall i st,
    pass_invariant db_to tracking0 pending0 st ->
    exists st', sweep db_to fuel i st = inr st'.
Proof.
  induction fuel as [|fuel IH]; intros i st Hinv; simpl; [eauto|].
  destruct (nth_error (st_tables_to_add st) i) as [name|] eqn:Hi; [|eauto].
  destruct (adds_body_total name st Hinv (nth_error_In _ _ Hi))
    as (st1 & Hb).
  rewrite Hb. cbn [ebind]. apply IH.
  eapply pass_invariant_body; eauto.
Qed.

Lemma adds_loop_total (fuel : nat) :
  forall last st,
    pass_invariant db_to tracking0 pending0 st ->
    exists st', adds_loop db_to fuel last st = inr st'.
Proof.
  induction fuel as [|fuel IH]; intros last st Hinv; simpl; [eauto|].
  destruct (negb _ && negb _); [|eauto].
  destruct (sweep_total (List.length (st_tables_to_add st)) 0 st Hinv)
    as (st1 & Hs).
  rewrite Hs. cbn [ebind]. apply IH.
  eapply sweep_invariant; [|exact Hinv|exact Hs].
  intros name s s'. now apply pass_invariant_body.
Qed.

Lemma process_adds_total :
  NoDup (OrderedDict.keys (db_tables tracking0)) ->
  NoDup pending0 ->
  (forall n, In n pending0 ->
     OrderedDict.mem n (db_tables tracking0) = false) ->
  exists st, _process_adds db_to tracking0 pending0 = inr st.
Proof.
  intros HndT HndL Hfresh. unfold _process_adds. apply adds_loop_total.
  unfold pass_invariant; simpl.
  split; [reflexivity|]. split; [exact HndT|]. split; [exact HndL|].
  split; [auto|]. split; [auto|]. split; [auto|]. split; [auto|].
  intros op [].
Qed.
End Totality.

Lemma strip_constraints_total (bads : list fk_problem) :
  forall (alter : alter_table) (t : table),
    NoDup (map (fun pr => con_name (foreign_key pr)) bads) ->
    (forall pr, In pr bads ->
       OrderedDict.mem (con_name (foreign_key pr)) (tbl_constraints t) =
         true) ->
    exists r,
      efold (fun '(create_fks, new_table_copy) constraint =>
          let create_fks :=
            add_operation create_fks
              (AddConstraint (foreign_key constraint)) in
          match remove_constraint (Obj (foreign_key constraint))
                  new_table_copy with
          | (inl e, _) => inl e
          | (inr _, new_table_copy) => inr (create_fks, new_table_copy)
          end) bads (alter, t) = inr r.
Proof.
  induction bads as [|pr bads IH]; intros alter t Hnd Hmem; simpl; [eauto|].
  apply NoDup_cons_iff in Hnd. destruct Hnd as [Hpr Hnd].
  unfold remove_constraint at 1. run_M.
  rewrite (Hmem pr (or_introl eq_refl)). simpl. apply IH; [exact Hnd|].
  intros pr' Hpr'. simpl. unfold OrderedDict.mem.
  rewrite get_pop_other; [apply (Hmem pr'); now right|].
  intros Heq. apply Hpr. rewrite <- Heq.
  apply (in_map (fun pr => con_name (foreign_key pr))). exact Hpr'.
Qed.

Lemma break_cycles_total (db_to : database) (pending : list string) :
  wf_database db_to ->
  (forall n, In n pending -> In n (OrderedDict.keys (db_tables db_to))) ->
  forall (l : locals) (ops : list operation),
    l_operations l = Some ops ->
    exists l', efold (fun l n => break_cycle db_to n l) pending l = inr l'.
Proof.
  intros Hwf. induction pending as [|n pending IH]; intros Hin l ops Hops;
    simpl; [eauto|].
  assert (Hstep : exists l1, break_cycle db_to n l = inr l1).
  { destruct (getitem_of_key _ _ (Hin n (or_introl eq_refl))) as (t & Ht).
    pose proof Ht as Hget. apply getitem_get in Hget.
    destruct (wf_database_get _ _ _ Hwf Hget) as (_ & _ & _ & Hcn).
    destruct (unfulfilled_fks_spec (l_tracking_db l) t) as (Hnd & Hbad & _).
    assert (Hnames : forall k pr,
              In (k, pr) (unfulfilled_fks (l_tracking_db l) t) ->
              con_name (foreign_key pr) = k).
    { intros k pr Hpr. apply Hcn. now apply Hbad. }
    destruct (strip_constraints_total
                (OrderedDict.values (unfulfilled_fks (l_tracking_db l) t))
                (mk_alter_table n []) t) as ([alter copy] & Hstrip).
    { rewrite (map_values_keys (fun pr => con_name (foreign_key pr)));
        auto. }
    { intros pr Hpr. apply values_In in Hpr. destruct Hpr as (k & Hpr).
      rewrite (Hnames _ _ Hpr). apply mem_of_key.
      eapply In_keys. apply (Hbad _ _ Hpr). }
    unfold break_cycle. rewrite Ht. cbn [ebind].
    cbv beta zeta in Hstrip |- *.
    rewrite Hstrip. cbn [ebind]. rewrite Hops. cbn. eauto. }
  destruct Hstep as (l1 & Hl1). rewrite Hl1. cbn [ebind].
  destruct (break_cycle_step db_to Hwf _ _ _ _ Hl1 Hops)
    as (t & copy & alter & _ & -> & _).
  eapply IH; [|reflexivity]. intros m Hm. apply Hin. now right.
Qed.

Lemma break_cycles_keep_operations (db_to : database)
  (pending : list string) :
  wf_database db_to ->
  forall (l l' : locals) (ops : list operation),
    efold (fun l n => break_cycle db_to n l) pending l = inr l' ->
    l_operations l = Some ops ->
    exists ops', l_operations l' = Some ops'.
Proof.
  intros Hwf. induction pending as [|n pending IH]; intros l l' ops H Hops;
    simpl in H.
  - inversion H; subst. eauto.
  - ebind_inv H.
    destruct (break_cycle_step db_to Hwf _ _ _ _ Ha Hops)
      as (t & copy & alter & _ & -> & _).
    eapply IH; [exact H | reflexivity].
Qed.

Lemma process_checked_total (db : database) :
  wf_database db -> exists check, _process_checked db None = inr check.
Proof.
  intros Hwf. unfold _process_checked, _differences.
  cbv beta iota zeta.
  rewrite (filter_all (fun key => negb (OrderedDict.mem key []))) by reflexivity.
  destruct (process_adds_total db (initial_tracking_db None)
              (OrderedDict.keys (db_tables db)) Hwf (fun n H => H))
    as (st & Hadds); [constructor | apply Hwf | reflexivity |].
  rewrite Hadds. cbn [ebind].
  destruct (st_errors_1215 st) eqn:Herr; [|eauto].
  cbn [OrderedDict.keys map filter _process_updates efold ebind
       upd_kitchen_sink upd_fks].
  rewrite (second_add_pass_noop _ _ _ _ _ _ Hadds). cbn [ebind].
  apply (pass_invariant_holds db _ _ Hwf) in Hadds;
    [|constructor | apply Hwf | reflexivity].
  destruct Hadds as (_ & _ & _ & Hpend & _).
  unfold finish, break_cycles. cbn [l_tables_to_add].
  destruct (break_cycles_total db (st_tables_to_add st) Hwf
              (fun n H => proj1 (Hpend n H))
              (mk_locals [] (Some (st_operations st)) []
                 (st_tracking_db st) (st_tables_to_add st))
              (st_operations st) eq_refl) as (l3 & Hl3).
  rewrite Hl3. cbn [ebind drop_tables efold].
  destruct (break_cycles_keep_operations db _ Hwf _ _ _ Hl3 eq_refl)
    as (ops3 & E3).
  unfold add_back_fks. rewrite E3.
  destruct (l_fk_operations l3); cbn; eauto.
Qed.

(** ** Identity, for every well-formed database *)

(** C2, as the code has it.  For every well-formed [db], planning [db] on
    its own returns, and [plan( db, db )] returns no operation together
    with the 1215 errors of that plan: none when [db] is consistent. *)
Theorem identity_up_to_target_errors :
  forall db : database,
    wf_database db ->
    exists check,
      mygration db None = inr check /\
      mygration db (Some db) = inr (mk_plan (errors_1215 check) (Some [])).
Proof.
  intros db Hwf. destruct (process_checked_total db Hwf) as (check & H).
  exists check. split; [exact H|]. now apply identity_given_check.
Qed.

Lemma identity_up_to_target_errors_witness :
  exists check,
    mygration db_cyclic None = inr check /\
    mygration db_cyclic (Some db_cyclic) =
      inr (mk_plan (errors_1215 check) (Some [])).
Proof.
  apply (identity_up_to_target_errors db_cyclic).
  apply wf_databaseb_sound. vm_compute. reflexivity.
Defined.

(* ================================================================== *)
(** * Further properties of [table] *)

(** ** [column_before] *)

Lemma list_index_None (s : string) (l : list string) :
  list_index s l = None <-> ~ In s l.
Proof.
  induction l as [|x l IH]; simpl; [tauto|].
  destruct (String.eqb_spec s x).
  - subst. split; [discriminate | intros H; exfalso; auto].
  - destruct (list_index s l); simpl.
    + split; [discriminate|]. intros H. exfalso. apply H. right.
      destruct (in_dec string_dec s l) as [Hin|Hin]; [exact Hin|].
      apply IH in Hin. discriminate.
    + split; [|reflexivity]. intros _ [H|H]; [congruence|].
      now apply (proj1 IH).
Qed.

(** [columns.index( name )] is the position of the first occurrence. *)
Lemma list_index_Some (s : string) (l : list string) (i : nat) :
  list_index s l = Some i <->
  exists l1 l2, l = (l1 ++ s :: l2)%list /\ List.length l1 = i /\ ~ In s l1.
Proof.
  revert i. induction l as [|x l IH]; intros i; simpl.
  - split; [discriminate|]. intros (l1 & l2 & H & _). now destruct l1.
  - destruct (String.eqb_spec s x).
    + subst x. split.
      * intros H. inversion H. exists [], l. simpl. auto.
      * intros (l1 & l2 & H & Hlen & Hnin). destruct l1 as [|y l1].
        -- simpl in Hlen. now subst.
        -- inversion H. subst y. exfalso. apply Hnin. now left.
    + split.
      * destruct (list_index s l) as [j|] eqn:E; simpl; [|discriminate].
        intros H. inversion H. subst i.
        destruct (proj1 (IH j) eq_refl) as (l1 & l2 & -> & Hlen & Hnin).
        exists (x :: l1), l2. simpl. split; [reflexivity|].
        split; [now rewrite Hlen|]. intros [H1|H1]; [congruence | auto].
      * intros (l1 & l2 & H & Hlen & Hnin). destruct l1 as [|y l1].
        -- inversion H. congruence.
        -- inversion H. subst y l. simpl in Hlen. subst i.
           rewrite (proj2 (IH (List.length l1))); [reflexivity|].
           exists l1, l2. split; [reflexivity|]. split; [reflexivity|].
           intros H1. apply Hnin. now right.
Qed.

(** What [column_before] answers, case by case. *)
Lemma column_before_cases :
  forall (t : table) (column_name : string),
    let columns := OrderedDict.keys (tbl_columns t) in
    match column_before t column_name with
    | inl e => e = ValueError /\ ~ In column_name columns
    | inr PosTrue => exists rest, columns = column_name :: rest
    | inr (PosAfter before) =>
        exists l1 l2,
          columns = (l1 ++ before :: column_name :: l2)%list /\
          ~ In column_name l1 /\ before <> column_name
    | inr PosFalse => False
    end.
Proof.
  intros t c columns. unfold column_before. fold columns.
  destruct (in_list c columns) eqn:Hin; simpl.
  - apply in_list_In in Hin.
    destruct (list_index c columns) as [i|] eqn:Hidx.
    + apply list_index_Some in Hidx.
      destruct Hidx as (l1 & l2 & Hcols & Hlen & Hnin).
      destruct i as [|i].
      * destruct l1; [|discriminate]. now exists l2.
      * destruct (exists_last (l := l1)) as (l0 & before & ->);
          [intros ->; discriminate|].
        rewrite length_app in Hlen. simpl in Hlen.
        assert (Hi : List.length l0 = i) by lia.
        rewrite Hcols, <- app_assoc. simpl.
        rewrite nth_error_app2, <- Hi, Nat.sub_diag by lia. simpl.
        exists l0, l2. split; [reflexivity|]. split.
        -- intros H. apply Hnin, in_or_app. now left.
        -- intros ->. apply Hnin, in_or_app. right. now left.
    + apply list_index_None in Hidx. contradiction.
  - split; [reflexivity|]. intros H. apply in_list_In in H. congruence.
Qed.

(** X1.  [column_before] raises [ValueError] exactly when the table has no
    column of that name and raises nothing else; it returns [True] exactly
    when the column is the first one, and otherwise the name of the column
    that stands immediately before it. *)
Theorem column_before_spec :
  forall (t : table) (column_name : string),
    let columns := OrderedDict.keys (tbl_columns t) in
    match column_before t column_name with
    | inl e => e = ValueError /\ ~ In column_name columns
    | inr PosTrue => exists rest, columns = column_name :: rest
    | inr (PosAfter before) =>
        exists l1 l2,
          columns = (l1 ++ before :: column_name :: l2)%list /\
          ~ In column_name l1 /\ before <> column_name
    | inr PosFalse => False
    end.
Proof. exact column_before_cases. Qed.

(** ** Where [add_column] puts the column *)

Lemma set_fresh {V} (k : string) (v : V) (d : odict V) :
  ~ In k (OrderedDict.keys d) -> OrderedDict.set k v d = (d ++ [(k, v)])%list.
Proof.
  induction d as [|[k0 v0] d IH]; simpl; intros H; [reflexivity|].
  destruct (String.eqb_spec k k0); [exfalso; auto|].
  f_equal. apply IH. auto.
Qed.

Lemma pop_fresh {V} (k : string) (d : odict V) :
  ~ In k (OrderedDict.keys d) -> OrderedDict.pop k d = d.
Proof.
  induction d as [|[k0 v0] d IH]; simpl; intros H; [reflexivity|].
  destruct (String.eqb_spec k k0); [exfalso; auto|].
  f_equal. apply IH. auto.
Qed.

Lemma pop_middle {V} (k : string) (v : V) (l1 l2 : odict V) :
  ~ In k (OrderedDict.keys l1) ->
  OrderedDict.pop k (l1 ++ (k, v) :: l2)%list = (l1 ++ l2)%list.
Proof.
  induction l1 as [|[k0 v0] l1 IH]; simpl; intros H.
  - now rewrite String.eqb_refl.
  - destruct (String.eqb_spec k k0); [exfalso; auto|].
    f_equal. apply IH. auto.
Qed.

Lemma get_middle {V} (k : string) (v : V) (l1 l2 : odict V) :
  ~ In k (OrderedDict.keys l1) ->
  OrderedDict.get k (l1 ++ (k, v) :: l2)%list = Some v.
Proof.
  induction l1 as [|[k0 v0] l1 IH]; simpl; intros H.
  - now rewrite String.eqb_refl.
  - destruct (String.eqb_spec k k0); [exfalso; auto|]. apply IH. auto.
Qed.

Lemma keys_app {V} (l1 l2 : odict V) :
  OrderedDict.keys (l1 ++ l2)%list =
    (OrderedDict.keys l1 ++ OrderedDict.keys l2)%list.
Proof. apply map_app. Qed.

(** A key of a mapping splits it at its first occurrence. *)
Lemma key_split {V} (k : string) (d : odict V) :
  In k (OrderedDict.keys d) ->
  exists l1 v l2, d = (l1 ++ (k, v) :: l2)%list /\
                  ~ In k (OrderedDict.keys l1).
Proof.
  induction d as [|[k0 v0] d IH]; simpl; [tauto|].
  destruct (string_dec k0 k) as [->|Hne].
  - intros _. exists [], v0, d. simpl. auto.
  - intros [H|H]; [contradiction|].
    destruct (IH H) as (l1 & v & l2 & -> & Hnin).
    exists ((k0, v0) :: l1), v, l2. simpl. split; [reflexivity|].
    intros [H1|H1]; auto.
Qed.

Lemma NoDup_insert_fresh (x : string) (l1 l2 : list string) :
  NoDup (l1 ++ l2) -> ~ In x (l1 ++ l2) -> NoDup (l1 ++ x :: l2).
Proof.
  induction l1 as [|y l1 IH]; simpl; intros Hnd Hx.
  - now constructor.
  - inversion Hnd; subst. constructor.
    + intros H. apply in_app_or in H. destruct H as [H|[H|H]].
      * apply H1, in_or_app. now left.
      * apply Hx. now left.
      * apply H1, in_or_app. now right.
    + apply IH; auto.
Qed.

(** The loop of [add_column] that rebuilds the columns, [F] being its
    body: entries are copied in order, and the new column is put right
    after the entry named [before]. *)
Section Rebuild.
Variable c : column.
Variable before : string.
Variable F : odict column * bool -> string * column -> odict column * bool.
Hypothesis F_body : forall new_columns found key value,
  F (new_columns, found) (key, value) =
    if String.eqb key before
    then (OrderedDict.set (col_name c) c
            (OrderedDict.set key value new_columns), true)
    else (OrderedDict.set key value new_columns, found).

Lemma rebuild_copy (d : odict column) :
  forall (acc : odict column) (found : bool),
    NoDup (OrderedDict.keys acc ++ OrderedDict.keys d)%list ->
    ~ In before (OrderedDict.keys d) ->
    fold_left F d (acc, found) = ((acc ++ d)%list, found).
Proof.
  induction d as [|[k v] d IH]; intros acc found Hnd Hb; simpl.
  - now rewrite app_nil_r.
  - rewrite F_body. destruct (String.eqb_spec k before).
    + exfalso. apply Hb. now left.
    + apply NoDup_remove in Hnd as Hk. destruct Hk as (_ & Hk).
      rewrite set_fresh by (intros H; apply Hk, in_or_app; now left).
      rewrite IH.
      * now rewrite <- app_assoc.
      * rewrite keys_app. simpl. now rewrite <- app_assoc.
      * intros H. apply Hb. now right.
Qed.

Lemma rebuild_insert (l1 : odict column) :
  forall (acc l2 : odict column) (found : bool) (v : column),
    NoDup (OrderedDict.keys acc ++
           OrderedDict.keys (l1 ++ (before, v) :: l2))%list ->
    ~ In (col_name c)
         (OrderedDict.keys acc ++
          OrderedDict.keys (l1 ++ (before, v) :: l2))%list ->
    fold_left F (l1 ++ (before, v) :: l2)%list (acc, found) =
      ((acc ++ l1 ++ (before, v) :: (col_name c, c) :: l2)%list, true).
Proof.
  induction l1 as [|[k w] l1 IH]; intros acc l2 found v Hnd Hc; simpl.
  - rewrite F_body, String.eqb_refl. simpl in Hnd, Hc.
    apply NoDup_remove in Hnd as Hk. destruct Hk as (Hnd' & Hk).
    rewrite (set_fresh before)
      by (intros H; apply Hk, in_or_app; now left).
    rewrite set_fresh.
    2:{ rewrite keys_app. simpl. intros H. apply Hc.
        apply in_app_or in H. apply in_or_app.
        destruct H as [H|[H|[]]]; [now left | right; now left]. }
    rewrite rebuild_copy.
    + now rewrite <- !app_assoc.
    + rewrite !keys_app. simpl. rewrite <- !app_assoc. simpl.
      change (NoDup (OrderedDict.keys acc ++ [before] ++
                     col_name c :: OrderedDict.keys l2)%list).
      rewrite app_assoc. apply NoDup_insert_fresh; rewrite <- app_assoc;
        assumption.
    + intros H. apply Hk, in_or_app. now right.
  - rewrite F_body. rewrite keys_app in Hnd, Hc. simpl in Hnd, Hc.
    apply NoDup_remove in Hnd as Hk. destruct Hk as (Hnd' & Hk).
    destruct (String.eqb_spec k before).
    + exfalso. subst k. apply Hk, in_or_app. right.
      apply in_or_app. right. now left.
    + rewrite set_fresh by (intros H; apply Hk, in_or_app; now left).
      rewrite IH.
      * now rewrite <- app_assoc.
      * rewrite !keys_app. simpl. rewrite <- app_assoc. exact Hnd.
      * rewrite !keys_app. simpl. rewrite <- app_assoc. exact Hc.
Qed.
End Rebuild.

Lemma with_columns_same (t : table) : with_columns (tbl_columns t) t = t.
Proof. now destruct t. Qed.

(** What a call of [add_column] that returns has done: it returned [True]
    and put the one new entry somewhere between the old ones, which keep
    their order; where, depends on [position]. *)
Lemma add_column_returns (c : column) (pos : position) (t t' : table)
  (b : bool) :
  NoDup (OrderedDict.keys (tbl_columns t)) ->
  add_column c pos t = (inr b, t') ->
  b = true /\
  ~ In (col_name c) (OrderedDict.keys (tbl_columns t)) /\
  exists l1 l2,
    tbl_columns t = (l1 ++ l2)%list /\
    t' = with_columns (l1 ++ (col_name c, c) :: l2)%list t /\
    (py_not pos = true -> l2 = []) /\
    (pos = PosTrue -> l1 = []) /\
    (forall before, pos = PosAfter before -> before <> "" ->
       exists l0 v, l1 = (l0 ++ [(before, v)])%list).
Proof.
  intros Hnd H.
  assert (Hmem : OrderedDict.mem (col_name c) (tbl_columns t) = false).
  { unfold add_column in H. run_M.
    destruct (OrderedDict.mem (col_name c) (tbl_columns t));
      [discriminate | reflexivity]. }
  assert (Hnin : ~ In (col_name c) (OrderedDict.keys (tbl_columns t))).
  { intros Hin. apply mem_of_key in Hin. congruence. }
  assert (Hraise : ~ exists e t1, add_column c pos t = (inl e, t1)).
  { intros (e & t1 & H1). congruence. }
  unfold add_column in H. run_M. rewrite Hmem in H.
  destruct (py_not pos) eqn:Hnot.
  { inversion H; subst. split; [reflexivity|]. split; [exact Hnin|].
    exists (tbl_columns t), []. rewrite app_nil_r, set_fresh by exact Hnin.
    repeat split; auto.
    - intros ->. discriminate.
    - intros before -> Hb. simpl in Hnot.
      apply String.eqb_eq in Hnot. contradiction. }
  destruct pos as [| |before]; simpl in Hnot; try discriminate.
  - simpl in H. inversion H; subst. split; [reflexivity|].
    split; [exact Hnin|]. exists [], (tbl_columns t). simpl.
    rewrite set_fresh by exact Hnin.
    unfold OrderedDict.move_to_front.
    rewrite get_middle, pop_middle, app_nil_r by exact Hnin.
    repeat split; auto; discriminate.
  - simpl in H.
    destruct (in_dec string_dec before (OrderedDict.keys (tbl_columns t)))
      as [Hin|Hout].
    + destruct (key_split _ _ Hin) as (l0 & v & l2 & Hcols & Hl0).
      rewrite Hcols in H.
      rewrite (rebuild_insert c before) in H.
      * simpl in H. inversion H; subst. split; [reflexivity|].
        split; [exact Hnin|].
        exists (l0 ++ [(before, v)])%list, l2. rewrite <- !app_assoc.
        simpl. repeat split; auto; try discriminate.
        intros before' Heq _. inversion Heq; subst. eauto.
      * intros new_columns found key value. reflexivity.
      * simpl. now rewrite <- Hcols.
      * simpl. now rewrite <- Hcols.
    + exfalso. apply Hraise. apply add_column_raises_iff. right.
      repeat split; auto. intros key Hkey. simpl.
      apply String.eqb_neq. intros ->. contradiction.
Qed.

(** [add_column] on a table without a column of that name, for each kind
    of [position]. *)
Lemma add_column_at :
  forall (c : column) (t : table),
    NoDup (OrderedDict.keys (tbl_columns t)) ->
    OrderedDict.mem (col_name c) (tbl_columns t) = false ->
    add_column c PosFalse t =
      (inr true, with_columns (tbl_columns t ++ [(col_name c, c)])%list t) /\
    add_column c (PosAfter "") t =
      (inr true, with_columns (tbl_columns t ++ [(col_name c, c)])%list t) /\
    add_column c PosTrue t =
      (inr true, with_columns ((col_name c, c) :: tbl_columns t) t) /\
    forall (before : string) (v : column) (l1 l2 : odict column),
      before <> "" ->
      tbl_columns t = (l1 ++ (before, v) :: l2)%list ->
      add_column c (PosAfter before) t =
        (inr true,
         with_columns (l1 ++ (before, v) :: (col_name c, c) :: l2)%list t).
Proof.
  intros c t Hnd Hmem.
  assert (Hnin : ~ In (col_name c) (OrderedDict.keys (tbl_columns t))).
  { intros Hin. apply mem_of_key in Hin. congruence. }
  split; [|split; [|split]].
  - unfold add_column. run_M. rewrite Hmem.
    now rewrite set_fresh by exact Hnin.
  - unfold add_column. run_M. rewrite Hmem.
    now rewrite set_fresh by exact Hnin.
  - unfold add_column. run_M. rewrite Hmem.
    rewrite set_fresh by exact Hnin. unfold OrderedDict.move_to_front.
    now rewrite get_middle, pop_middle, app_nil_r by exact Hnin.
  - intros before v l1 l2 Hb Hcols. unfold add_column. run_M. rewrite Hmem.
    apply String.eqb_neq in Hb. rewrite Hb. rewrite Hcols.
    rewrite (rebuild_insert c before).
    + reflexivity.
    + intros new_columns found key value. reflexivity.
    + simpl. now rewrite <- Hcols.
    + simpl. now rewrite <- Hcols.
Qed.

(** X2.  On a table that has no column of that name yet, [add_column]
    returns [True] and puts the column last for [position = False] (and
    for the empty string, which is falsy too), first for
    [position = True], and right after the column named by [position]
    otherwise; the other columns keep their order. *)
Theorem add_column_inserts_at_position :
  forall (c : column) (t : table),
    NoDup (OrderedDict.keys (tbl_columns t)) ->
    OrderedDict.mem (col_name c) (tbl_columns t) = false ->
    add_column c PosFalse t =
      (inr true, with_columns (tbl_columns t ++ [(col_name c, c)])%list t) /\
    add_column c (PosAfter "") t =
      (inr true, with_columns (tbl_columns t ++ [(col_name c, c)])%list t) /\
    add_column c PosTrue t =
      (inr true, with_columns ((col_name c, c) :: tbl_columns t) t) /\
    forall (before : string) (v : column) (l1 l2 : odict column),
      before <> "" ->
      tbl_columns t = (l1 ++ (before, v) :: l2)%list ->
      add_column c (PosAfter before) t =
        (inr true,
         with_columns (l1 ++ (before, v) :: (col_name c, c) :: l2)%list t).
Proof. exact add_column_at. Qed.

Lemma add_column_inserts_at_position_witness :
  add_column (text_column "subject") PosFalse two_columns =
    (inr true,
     with_columns (tbl_columns two_columns ++
                   [("subject", text_column "subject")])%list two_columns) /\
  add_column (text_column "subject") (PosAfter "") two_columns =
    (inr true,
     with_columns (tbl_columns two_columns ++
                   [("subject", text_column "subject")])%list two_columns) /\
  add_column (text_column "subject") PosTrue two_columns =
    (inr true,
     with_columns (("subject", text_column "subject") ::
                   tbl_columns two_columns) two_columns) /\
  forall (before : string) (v : column) (l1 l2 : odict column),
    before <> "" ->
    tbl_columns two_columns = (l1 ++ (before, v) :: l2)%list ->
    add_column (text_column "subject") (PosAfter before) two_columns =
      (inr true,
       with_columns
         (l1 ++ (before, v) :: ("subject", text_column "subject") :: l2)%list
         two_columns).
Proof.
  apply (add_column_inserts_at_position (text_column "subject") two_columns).
  - apply nodupb_NoDup. reflexivity.
  - reflexivity.
Defined.

(** X3.  After [add_column( column, position )] has returned for a truthy
    [position], [column_before] of the new column gives that [position]
    back: [True] for a column added first, the name it was added after
    otherwise. *)
Theorem add_column_then_column_before :
  forall (c : column) (pos : position) (t t' : table) (b : bool),
    NoDup (OrderedDict.keys (tbl_columns t)) ->
    py_not pos = false ->
    add_column c pos t = (inr b, t') ->
    column_before t' (col_name c) = inr pos.
Proof.
  intros c pos t t' b Hnd Hnot H.
  destruct (add_column_returns _ _ _ _ _ Hnd H)
    as (_ & Hnin & l1 & l2 & Hcols & -> & _ & Hfirst & Hafter).
  rewrite Hcols, keys_app in Hnin.
  destruct pos as [| |before]; simpl in Hnot; [discriminate| |].
  - rewrite (Hfirst eq_refl). unfold column_before. simpl.
    now rewrite String.eqb_refl.
  - apply String.eqb_neq in Hnot.
    destruct (Hafter before eq_refl Hnot) as (l0 & v & ->).
    unfold column_before. simpl. rewrite <- app_assoc, keys_app. simpl.
    rewrite keys_app in Hnin. simpl in Hnin.
    assert (Hidx : list_index (col_name c)
              (OrderedDict.keys l0 ++
               before :: col_name c :: OrderedDict.keys l2)%list =
              Some (S (List.length (OrderedDict.keys l0)))).
    { apply list_index_Some.
      exists (OrderedDict.keys l0 ++ [before])%list, (OrderedDict.keys l2).
      rewrite <- app_assoc. split; [reflexivity|].
      rewrite length_app. simpl. split; [lia|].
      intros Hin. apply Hnin, in_or_app. now left. }
    assert (Hmem : in_list (col_name c)
              (OrderedDict.keys l0 ++
               before :: col_name c :: OrderedDict.keys l2)%list = true).
    { apply in_list_In, in_or_app. right. right. now left. }
    rewrite Hmem, Hidx. simpl.
    now rewrite nth_error_app2, Nat.sub_diag by lia.
Qed.

Lemma add_column_then_column_before_witness :
  column_before
    (with_columns [("id", tasks_id); ("subject", text_column "subject");
                   ("name", tasks_name)] two_columns) "subject" =
    inr (PosAfter "id").
Proof.
  apply (add_column_then_column_before (text_column "subject") (PosAfter "id")
           two_columns _ true).
  - apply nodupb_NoDup. reflexivity.
  - reflexivity.
  - reflexivity.
Defined.

(** X4.  [remove_column] undoes [add_column]: removing the column that a
    returning [add_column] has just added gives back the table as it was,
    with its columns in their former order. *)
Theorem add_then_remove_column :
  forall (c : column) (pos : position) (t t' : table) (b : bool),
    NoDup (OrderedDict.keys (tbl_columns t)) ->
    add_column c pos t = (inr b, t') ->
    remove_column (Str (col_name c)) t' = (inr tt, t) /\
    remove_column (Obj c) t' = (inr tt, t).
Proof.
  intros c pos t t' b Hnd H.
  destruct (add_column_returns _ _ _ _ _ Hnd H)
    as (_ & Hnin & l1 & l2 & Hcols & -> & _).
  rewrite Hcols, keys_app in Hnin.
  assert (Hl1 : ~ In (col_name c) (OrderedDict.keys l1)).
  { intros Hin. apply Hnin, in_or_app. now left. }
  assert (Hmem : OrderedDict.mem (col_name c)
                   (l1 ++ (col_name c, c) :: l2)%list = true).
  { unfold OrderedDict.mem. now rewrite get_middle. }
  assert (Hback : with_columns (l1 ++ l2)%list t = t).
  { rewrite <- Hcols. apply with_columns_same. }
  split; rewrite remove_column_spec; simpl; rewrite Hmem, pop_middle by exact Hl1;
    unfold with_columns; simpl; f_equal; exact Hback.
Qed.

Lemma add_then_remove_column_witness :
  remove_column (Str "subject")
    (with_columns [("id", tasks_id); ("subject", text_column "subject");
                   ("name", tasks_name)] two_columns) =
    (inr tt, two_columns) /\
  remove_column (Obj (text_column "subject"))
    (with_columns [("id", tasks_id); ("subject", text_column "subject");
                   ("name", tasks_name)] two_columns) =
    (inr tt, two_columns).
Proof.
  apply (add_then_remove_column (text_column "subject") (PosAfter "id")
           two_columns _ true).
  - apply nodupb_NoDup. reflexivity.
  - reflexivity.
Defined.

Lemma column_before_first (t : table) (name : string) (c : column)
  (l2 : odict column) :
  tbl_columns t = (name, c) :: l2 ->
  column_before t name = inr PosTrue.
Proof.
  intros Hcols. unfold column_before. rewrite Hcols. simpl.
  now rewrite String.eqb_refl.
Qed.

Lemma column_before_after (t : table) (name before : string) (c w : column)
  (l0 l2 : odict column) :
  tbl_columns t = (l0 ++ (before, w) :: (name, c) :: l2)%list ->
  ~ In name (OrderedDict.keys l0) -> before <> name ->
  column_before t name = inr (PosAfter before).
Proof.
  intros Hcols Hl0 Hne. unfold column_before. rewrite Hcols, keys_app. simpl.
  assert (Hidx : list_index name
            (OrderedDict.keys l0 ++ before :: name :: OrderedDict.keys l2)%list =
            Some (S (List.length (OrderedDict.keys l0)))).
  { apply list_index_Some.
    exists (OrderedDict.keys l0 ++ [before])%list, (OrderedDict.keys l2).
    rewrite <- app_assoc. split; [reflexivity|].
    rewrite length_app. simpl. split; [lia|].
    intros Hin. apply in_app_or in Hin.
    destruct Hin as [Hin|[Hin|[]]]; [auto | congruence]. }
  assert (Hmem : in_list name
            (OrderedDict.keys l0 ++ before :: name :: OrderedDict.keys l2)%list =
            true).
  { apply in_list_In, in_or_app. right. right. now left. }
  rewrite Hmem, Hidx. simpl.
  now rewrite nth_error_app2, Nat.sub_diag by lia.
Qed.

Lemma odict_last_or_nil {V} (d : odict V) :
  d = [] \/ exists d0 k v, d = (d0 ++ [(k, v)])%list.
Proof.
  destruct d as [|x d]; [now left | right].
  destruct (exists_last (l := x :: d)) as (d0 & [k v] & E); [discriminate|].
  eauto.
Qed.

(** X5.  [column_before] is the position [add_column] needs: when a
    column is removed and then added again with the [column_before] it had,
    the table is back as it was, columns in their former order.  (No
    column is named by the empty string, which [add_column] would read as
    "at the end".) *)
Theorem remove_then_add_column_back :
  forall (t t1 : table) (name : string) (c : column) (pos : position),
    NoDup (OrderedDict.keys (tbl_columns t)) ->
    ~ In "" (OrderedDict.keys (tbl_columns t)) ->
    OrderedDict.get name (tbl_columns t) = Some c ->
    col_name c = name ->
    column_before t name = inr pos ->
    remove_column (Str name) t = (inr tt, t1) ->
    add_column c pos t1 = (inr true, t).
Proof.
  intros t t1 name c pos Hnd Hempty Hget Hname Hpos Hrem.
  assert (Hin : In name (OrderedDict.keys (tbl_columns t))).
  { eapply In_keys, get_In; eauto. }
  destruct (key_split _ _ Hin) as (l1 & v & l2 & Hcols & Hl1).
  rewrite Hcols, get_middle in Hget by exact Hl1.
  inversion Hget; subst v; clear Hget.
  rewrite remove_column_spec in Hrem. simpl in Hrem.
  rewrite (proj1 (mem_of_key _ _) Hin) in Hrem.
  rewrite Hcols, pop_middle in Hrem by exact Hl1.
  inversion Hrem; subst t1; clear Hrem.
  assert (Hnd1 : NoDup (OrderedDict.keys (l1 ++ l2)%list)).
  { rewrite Hcols, keys_app in Hnd. simpl in Hnd.
    rewrite keys_app. eapply NoDup_remove_1; eauto. }
  assert (Hnin : ~ In name (OrderedDict.keys (l1 ++ l2)%list)).
  { rewrite Hcols, keys_app in Hnd. simpl in Hnd.
    rewrite keys_app. eapply NoDup_remove_2; eauto. }
  assert (Hback : forall cs, cs = tbl_columns t ->
            with_columns cs (with_columns (l1 ++ l2)%list t) = t).
  { intros cs ->. unfold with_columns. simpl. now destruct t. }
  destruct (add_column_at c (with_columns (l1 ++ l2)%list t))
    as (_ & _ & Hfirst & Hafter).
  { exact Hnd1. }
  { simpl. rewrite Hname.
    destruct (OrderedDict.mem name (l1 ++ l2)%list) eqn:E; [|reflexivity].
    apply mem_of_key in E. contradiction. }
  destruct (odict_last_or_nil l1) as [->|(l0 & before & w & ->)].
  - simpl in Hcols. rewrite (column_before_first _ _ _ _ Hcols) in Hpos.
    inversion Hpos; subst pos. rewrite Hfirst. f_equal. apply Hback.
    simpl. now rewrite Hname, Hcols.
  - rewrite <- app_assoc in Hcols. simpl in Hcols.
    assert (Hne : before <> name).
    { intros ->. apply Hl1. rewrite keys_app. apply in_or_app. right.
      now left. }
    assert (Hl0 : ~ In name (OrderedDict.keys l0)).
    { intros H. apply Hl1. rewrite keys_app. apply in_or_app. now left. }
    rewrite (column_before_after _ _ _ _ _ _ _ Hcols Hl0 Hne) in Hpos.
    inversion Hpos; subst pos.
    rewrite (Hafter before w l0 l2).
    + f_equal. apply Hback. now rewrite Hname, Hcols.
    + intros ->. apply Hempty. rewrite Hcols, keys_app. apply in_or_app.
      right. now left.
    + simpl. now rewrite <- app_assoc.
Qed.

Lemma remove_then_add_column_back_witness :
  add_column tasks_name (PosAfter "id")
    (with_columns [("id", tasks_id)] two_columns) = (inr true, two_columns).
Proof.
  apply (remove_then_add_column_back two_columns _ "name").
  - apply nodupb_NoDup. reflexivity.
  - simpl. intros [H|[H|[]]]; discriminate.
  - reflexivity.
  - reflexivity.
  - reflexivity.
  - reflexivity.
Defined.

(** ** [column_is_indexed] after [remove_column] *)

(** X6.  [remove_column] leaves the indexes and the set of indexed columns
    as they are, yet a removed column is never reported as indexed:
    [column_is_indexed] of it returns [False], and does not touch the
    table. *)
Theorem removed_column_is_not_indexed :
  forall (x : str_or column) (t t' : table),
    NoDup (OrderedDict.keys (tbl_columns t)) ->
    remove_column x t = (inr tt, t') ->
    tbl_indexes t' = tbl_indexes t /\
    tbl_indexed_columns t' = tbl_indexed_columns t /\
    column_is_indexed x t' = (inr false, t').
Proof.
  intros x t t' Hnd H. rewrite remove_column_spec in H.
  destruct (OrderedDict.mem (name_of col_name x) (tbl_columns t));
    [|discriminate].
  inversion H; subst t'; clear H. split; [reflexivity|].
  split; [reflexivity|].
  unfold column_is_indexed. run_M.
  destruct (OrderedDict.mem (name_of col_name x)
              (OrderedDict.pop (name_of col_name x) (tbl_columns t))) eqn:E;
    [|reflexivity].
  apply mem_of_key in E. now apply not_In_keys_pop in E.
Qed.

Lemma removed_column_is_not_indexed_witness :
  tbl_indexes (with_columns [("id", tasks_id)] keyed_tasks_cached) =
    tbl_indexes keyed_tasks_cached /\
  tbl_indexed_columns (with_columns [("id", tasks_id)] keyed_tasks_cached) =
    tbl_indexed_columns keyed_tasks_cached /\
  column_is_indexed (Str "name")
    (with_columns [("id", tasks_id)] keyed_tasks_cached) =
    (inr false, with_columns [("id", tasks_id)] keyed_tasks_cached).
Proof.
  apply (removed_column_is_not_indexed (Str "name") keyed_tasks_cached).
  - apply nodupb_NoDup. reflexivity.
  - reflexivity.
Defined.

(* ================================================================== *)
(** * Further properties of [table.to] *)

Lemma column_before_total (t : table) (name : string) :
  In name (OrderedDict.keys (tbl_columns t)) ->
  exists pos, column_before t name = inr pos.
Proof.
  intros Hin. unfold column_before.
  rewrite (proj2 (in_list_In _ _) Hin). simpl.
  destruct (list_index name (OrderedDict.keys (tbl_columns t))) as [i|] eqn:E.
  - destruct i as [|i]; [eauto|].
    apply list_index_Some in E. destruct E as (l1 & l2 & -> & Hlen & _).
    destruct (nth_error (l1 ++ name :: l2) i) eqn:En; [eauto|].
    apply nth_error_None in En. rewrite length_app in En. lia.
  - apply list_index_None in E. contradiction.
Qed.

(** A loop whose body either passes the [alter_table] on or adds one
    operation of the kind [P] to it never raises, and adds operations of
    that kind only. *)
Lemma efold_adds {B} (P : sub_operation -> Prop)
  (f : alter_table -> B -> exn + alter_table) (l : list B) :
  (forall acc x, In x l ->
     f acc x = inr acc \/
     exists op, P op /\ f acc x = inr (add_operation acc op)) ->
  forall acc, exists ops,
    efold f l acc =
      inr (mk_alter_table (alt_table acc) (alt_operations acc ++ ops)) /\
    Forall P ops.
Proof.
  induction l as [|x l IH]; intros Hf acc; simpl.
  - exists []. rewrite app_nil_r. split; [now destruct acc | constructor].
  - destruct (Hf acc x (or_introl eq_refl)) as [->|(op & Hop & ->)]; simpl.
    + apply IH. intros; apply Hf. now right.
    + destruct (IH (fun acc y Hy => Hf acc y (or_intror Hy))
                  (add_operation acc op)) as (ops & -> & Hops).
      exists (op :: ops). simpl. rewrite <- app_assoc. simpl.
      split; [reflexivity | now constructor].
Qed.

Lemma fold_add_operation (ops : list sub_operation) (a : alter_table) :
  fold_left add_operation ops a =
    mk_alter_table (alt_table a) (alt_operations a ++ ops).
Proof.
  revert a. induction ops as [|op ops IH]; intros a; simpl.
  - rewrite app_nil_r. now destruct a.
  - rewrite IH. simpl. now rewrite <- app_assoc.
Qed.

Lemma In_filter_key {V} (p : string -> bool) (d : odict V) (k : string) :
  In k (filter p (OrderedDict.keys d)) ->
  exists v, getitem d k = inr v.
Proof. intros H. apply filter_In in H. apply getitem_of_key, H. Qed.

(** One loop of [to]: its body is shown to add at most one operation of
    the kind [P], and the loop is replaced by what it returns. *)
Ltac to_loop P ops HP :=
  match goal with
  | |- context [efold ?f ?l ?acc] =>
      let Hf := fresh "Hf" in
      let E := fresh "E" in
      assert (Hf : forall a x, In x l ->
                f a x = inr a \/
                exists op, P op /\ f a x = inr (add_operation a op));
      [ intros a x Hx
      | destruct (efold_adds P f l Hf acc) as (ops & E & HP);
        rewrite E; clear E Hf; cbn [ebind alt_table alt_operations] ]
  end.

Ltac primary_loop ops HP :=
  to_loop (fun op => match op with
                     | AddColumn _ _ | ChangeColumn _ | RemoveColumn _
                     | AddKey _ | ChangeKey _ | RemoveKey _ => True
                     | _ => False
                     end) ops HP.

Ltac fks_loop ops HP :=
  to_loop (fun op => match op with
                     | AddConstraint _ | ChangeConstraint _ => True
                     | _ => False
                     end) ops HP.

(** The three parts of a diff: [to] never raises; with
    [split_operations] each part that has operations is filed under its
    key, without it they are joined in one [alter_table]. *)
Lemma to_parts (self other : table) :
  exists primary constraints removed : list sub_operation,
    Forall (fun op => match op with
                      | AddColumn _ _ | ChangeColumn _ | RemoveColumn _
                      | AddKey _ | ChangeKey _ | RemoveKey _ => True
                      | _ => False
                      end) primary /\
    Forall (fun op => match op with
                      | AddConstraint _ | ChangeConstraint _ => True
                      | _ => False
                      end) constraints /\
    Forall (fun op => match op with
                      | RemoveConstraint _ => True
                      | _ => False
                      end) removed /\
    forall split_operations,
      to self other split_operations =
        inr (if split_operations
             then Split
               {| removed_fks :=
                    truthy_key (mk_alter_table (tbl_name self) removed);
                  kitchen_sink :=
                    truthy_key (mk_alter_table (tbl_name self) primary);
                  fks :=
                    truthy_key (mk_alter_table (tbl_name self) constraints) |}
             else Flat
               (match (primary ++ constraints ++ removed)%list with
                | [] => []
                | ops => [mk_alter_table (tbl_name self) ops]
                end)).
Proof.
  unfold to, _differences. cbv beta iota zeta.
  primary_loop ops1 H1.
  { right. destruct (In_filter_key _ _ _ Hx) as (c & ->).
    apply filter_In in Hx. destruct Hx as (Hx & _).
    destruct (column_before_total other x Hx) as (pos & ->).
    exists (AddColumn c pos). split; [exact I | reflexivity]. }
  primary_loop ops2 H2.
  { destruct (In_filter_key _ _ _ Hx) as (c & ->).
    apply filter_In in Hx. destruct Hx as (_ & Hx).
    apply mem_of_key, getitem_of_key in Hx. destruct Hx as (c' & ->).
    simpl. destruct (str_eq_column c c'); [now left | right].
    exists (ChangeColumn c'). split; [exact I | reflexivity]. }
  primary_loop ops3 H3.
  { right. destruct (In_filter_key _ _ _ Hx) as (c & ->).
    exists (RemoveColumn c). split; [exact I | reflexivity]. }
  primary_loop ops4 H4.
  { right. destruct (In_filter_key _ _ _ Hx) as (c & ->).
    exists (AddKey c). split; [exact I | reflexivity]. }
  primary_loop ops5 H5.
  { right. destruct (In_filter_key _ _ _ Hx) as (c & ->).
    exists (RemoveKey c). split; [exact I | reflexivity]. }
  primary_loop ops6 H6.
  { destruct (In_filter_key _ _ _ Hx) as (c & ->).
    apply filter_In in Hx. destruct Hx as (_ & Hx).
    apply mem_of_key, getitem_of_key in Hx. destruct Hx as (c' & ->).
    simpl. destruct (str_eq_index c c'); [now left | right].
    exists (ChangeKey c'). split; [exact I | reflexivity]. }
  to_loop (fun op => match op with
                     | RemoveConstraint _ => True
                     | _ => False
                     end) ops7 H7.
  { right. destruct (In_filter_key _ _ _ Hx) as (c & ->).
    exists (RemoveConstraint c). split; [exact I | reflexivity]. }
  fks_loop ops8 H8.
  { right. destruct (In_filter_key _ _ _ Hx) as (c & ->).
    exists (AddConstraint c). split; [exact I | reflexivity]. }
  fks_loop ops9 H9.
  { destruct (In_filter_key _ _ _ Hx) as (c & ->).
    apply filter_In in Hx. destruct Hx as (_ & Hx).
    apply mem_of_key, getitem_of_key in Hx. destruct Hx as (c' & ->).
    simpl. destruct (str_eq_constraint c c'); [now left | right].
    exists (ChangeConstraint c'). split; [exact I | reflexivity]. }
  simpl.
  exists (ops1 ++ ops2 ++ ops3 ++ ops4 ++ ops5 ++ ops6)%list,
         (ops8 ++ ops9)%list, ops7.
  split; [repeat (apply Forall_app; split); assumption|].
  split; [repeat (apply Forall_app; split); assumption|].
  split; [assumption|].
  intros [|].
  - now rewrite <- !app_assoc.
  - rewrite !fold_add_operation. simpl. rewrite <- !app_assoc.
    unfold alter_truthy. simpl.
    now destruct (ops1 ++ ops2 ++ ops3 ++ ops4 ++ ops5 ++ ops6 ++
                  ops8 ++ ops9 ++ ops7)%list.
Qed.

(** X7.  [to] never raises, whatever the two tables.  The operations of a
    diff fall in three runs; with [split_operations] each run that is not
    empty is filed under its key, and without it the result is the empty
    list when all three are empty and otherwise one [alter_table] of the
    table that carries the [kitchen_sink] run, then the [fks] run, then
    the [removed_fks] run. *)
Theorem to_flat_joins_split :
  forall self other : table,
    exists primary constraints removed : list sub_operation,
      to self other true =
        inr (Split
          {| removed_fks :=
               truthy_key (mk_alter_table (tbl_name self) removed);
             kitchen_sink :=
               truthy_key (mk_alter_table (tbl_name self) primary);
             fks :=
               truthy_key (mk_alter_table (tbl_name self) constraints) |}) /\
      to self other false =
        inr (Flat
          (match (primary ++ constraints ++ removed)%list with
           | [] => []
           | ops => [mk_alter_table (tbl_name self) ops]
           end)).
Proof.
  intros self other.
  destruct (to_parts self other)
    as (primary & constraints & removed & _ & _ & _ & H).
  exists primary, constraints, removed.
  split; [exact (H true) | exact (H false)].
Qed.

(** X8.  In a split diff every part is an [alter_table] of the table
    itself with at least one operation; [kitchen_sink] holds column and key
    operations only, [fks] only additions and changes of foreign keys,
    [removed_fks] only removals of foreign keys. *)
Theorem to_split_separates_foreign_keys :
  forall self other : table,
    exists d : split_dict,
      to self other true = inr (Split d) /\
      (forall a, kitchen_sink d = Some a ->
         alt_table a = tbl_name self /\ alt_operations a <> [] /\
         Forall (fun op => match op with
                           | AddColumn _ _ | ChangeColumn _ | RemoveColumn _
                           | AddKey _ | ChangeKey _ | RemoveKey _ => True
                           | _ => False
                           end) (alt_operations a)) /\
      (forall a, fks d = Some a ->
         alt_table a = tbl_name self /\ alt_operations a <> [] /\
         Forall (fun op => match op with
                           | AddConstraint _ | ChangeConstraint _ => True
                           | _ => False
                           end) (alt_operations a)) /\
      (forall a, removed_fks d = Some a ->
         alt_table a = tbl_name self /\ alt_operations a <> [] /\
         Forall (fun op => match op with
                           | RemoveConstraint _ => True
                           | _ => False
                           end) (alt_operations a)).
Proof.
  intros self other.
  destruct (to_parts self other)
    as (primary & constraints & removed & H1 & H2 & H3 & H).
  eexists. split; [exact (H true)|].
  unfold truthy_key, alter_truthy. simpl.
  split; [|split]; intros a Ha.
  - destruct primary; inversion Ha; subst a; simpl.
    split; [reflexivity|]. split; [discriminate | assumption].
  - destruct constraints; inversion Ha; subst a; simpl.
    split; [reflexivity|]. split; [discriminate | assumption].
  - destruct removed; inversion Ha; subst a; simpl.
    split; [reflexivity|]. split; [discriminate | assumption].
Qed.

(** ** Diffs without operations *)

Lemma same_mapping_no_new_keys {V} (a b : odict V) :
  (forall k, OrderedDict.get k a = OrderedDict.get k b) ->
  filter (fun key => negb (OrderedDict.mem key a)) (OrderedDict.keys b) = [].
Proof.
  intros Heq. apply no_In_nil. intros k Hk. apply filter_In in Hk.
  destruct Hk as (Hk & Hm). apply mem_of_key in Hk.
  unfold OrderedDict.mem in *. rewrite Heq in Hm.
  destruct (OrderedDict.get k b); discriminate.
Qed.

Lemma same_mapping_common_keys {V} (a b : odict V) (k : string) :
  (forall k, OrderedDict.get k a = OrderedDict.get k b) ->
  In k (filter (fun key => OrderedDict.mem key b) (OrderedDict.keys a)) ->
  exists v, getitem a k = inr v /\ getitem b k = inr v.
Proof.
  intros Heq Hk. apply filter_In in Hk. destruct Hk as (Hk & _).
  destruct (getitem_of_key _ _ Hk) as (v & Hv). exists v.
  split; [exact Hv|]. apply getitem_get. rewrite <- Heq.
  now apply getitem_get.
Qed.

(** Two tables whose columns, indexes and constraints are the same
    mappings have an empty diff. *)
Lemma to_same_mappings (self other : table) :
  (forall k, OrderedDict.get k (tbl_columns self) =
             OrderedDict.get k (tbl_columns other)) ->
  (forall k, OrderedDict.get k (tbl_indexes self) =
             OrderedDict.get k (tbl_indexes other)) ->
  (forall k, OrderedDict.get k (tbl_constraints self) =
             OrderedDict.get k (tbl_constraints other)) ->
  to self other true =
    inr (Split {| removed_fks := None; kitchen_sink := None; fks := None |}).
Proof.
  intros Hc Hi Hf. unfold to, _differences. cbv beta iota zeta.
  rewrite (same_mapping_no_new_keys _ _ Hc).
  rewrite (same_mapping_no_new_keys _ _ (fun k => eq_sym (Hc k))).
  rewrite (same_mapping_no_new_keys _ _ Hi).
  rewrite (same_mapping_no_new_keys _ _ (fun k => eq_sym (Hi k))).
  rewrite (same_mapping_no_new_keys _ _ Hf).
  rewrite (same_mapping_no_new_keys _ _ (fun k => eq_sym (Hf k))).
  simpl.
  rewrite efold_unchanged.
  2:{ intros k Hk.
      destruct (same_mapping_common_keys _ _ _ Hc Hk) as (v & -> & ->).
      simpl. now rewrite str_eq_column_refl. }
  simpl. rewrite efold_unchanged.
  2:{ intros k Hk.
      destruct (same_mapping_common_keys _ _ _ Hi Hk) as (v & -> & ->).
      simpl. now rewrite str_eq_index_refl. }
  simpl. rewrite efold_unchanged.
  2:{ intros k Hk.
      destruct (same_mapping_common_keys _ _ _ Hf Hk) as (v & -> & ->).
      simpl. now rewrite str_eq_constraint_refl. }
  reflexivity.
Qed.

(** A split diff with no part at all: the two tables hold the same
    columns, indexes and constraints under the same names. *)
Lemma to_split_none (source target : table) :
  to source target true =
    inr (Split {| removed_fks := None; kitchen_sink := None; fks := None |}) ->
  (forall k, OrderedDict.get k (tbl_columns source) =
             OrderedDict.get k (tbl_columns target)) /\
  (forall k, OrderedDict.get k (tbl_indexes source) =
             OrderedDict.get k (tbl_indexes target)) /\
  (forall k, OrderedDict.get k (tbl_constraints source) =
             OrderedDict.get k (tbl_constraints target)).
Proof.
  intros H. unfold to, _differences in H. cbv beta iota zeta in H.
  ebind_inv H. rename a into a1, Ha into H1.
  ebind_inv H. rename a into a2, Ha into H2.
  ebind_inv H. rename a into a3, Ha into H3.
  ebind_inv H. rename a into a4, Ha into H4.
  ebind_inv H. rename a into a5, Ha into H5.
  ebind_inv H. rename a into a6, Ha into H6.
  ebind_inv H. rename a into a7, Ha into H7.
  ebind_inv H. rename a into a8, Ha into H8.
  ebind_inv H. rename a into a9, Ha into H9.
  injection H as Hr Hk Hf.
  unfold truthy_key, alter_truthy in Hr, Hk, Hf.
  destruct (alt_operations a6) eqn:E6; [clear Hk | discriminate].
  destruct (alt_operations a7) eqn:E7; [clear Hr | discriminate].
  destruct (alt_operations a9) eqn:E9; [clear Hf | discriminate].
  eapply (efold_alter (fun k => exists v,
            OrderedDict.get k (tbl_indexes source) = Some v /\
            OrderedDict.get k (tbl_indexes target) = Some v)) in H6;
    [|clear; intros acc x r H | exact E6].
  2:{ ebind_inv H. ebind_inv H. apply getitem_get in Ha, Ha0.
      unfold str_eq_index in H. destruct (index_eq_dec a a0).
      - inversion H; subst. left. eauto.
      - inversion H; subst. right. eauto. }
  destruct H6 as (E5 & Hkeys).
  eapply (efold_alter (fun _ => False)) in H5;
    [|clear; intros acc x r H; ebind_inv H; inversion H; right; eauto
     | exact E5].
  destruct H5 as (E4 & Hremk).
  eapply (efold_alter (fun _ => False)) in H4;
    [|clear; intros acc x r H; ebind_inv H; inversion H; right; eauto
     | exact E4].
  destruct H4 as (E3 & Haddk).
  eapply (efold_alter (fun _ => False)) in H3;
    [|clear; intros acc x r H; ebind_inv H; inversion H; right; eauto
     | exact E3].
  destruct H3 as (E2 & Hremc).
  eapply (efold_alter (fun k => exists v,
            OrderedDict.get k (tbl_columns source) = Some v /\
            OrderedDict.get k (tbl_columns target) = Some v)) in H2;
    [|clear; intros acc x r H | exact E2].
  2:{ ebind_inv H. ebind_inv H. apply getitem_get in Ha, Ha0.
      unfold str_eq_column in H. destruct (column_eq_dec a a0).
      - inversion H; subst. left. eauto.
      - inversion H; subst. right. eauto. }
  destruct H2 as (E1 & Hcols).
  eapply (efold_alter (fun _ => False)) in H1;
    [|clear; intros acc x r H; ebind_inv H; ebind_inv H; inversion H;
      right; eauto
     | exact E1].
  destruct H1 as (_ & Haddc).
  eapply (efold_alter (fun _ => False)) in H7;
    [|clear; intros acc x r H; ebind_inv H; inversion H; right; eauto
     | exact E7].
  destruct H7 as (_ & Hremf).
  eapply (efold_alter (fun k => exists v,
            OrderedDict.get k (tbl_constraints source) = Some v /\
            OrderedDict.get k (tbl_constraints target) = Some v)) in H9;
    [|clear; intros acc x r H | exact E9].
  2:{ ebind_inv H. ebind_inv H. apply getitem_get in Ha, Ha0.
      unfold str_eq_constraint in H. destruct (constraint_eq_dec a a0).
      - inversion H; subst. left. eauto.
      - inversion H; subst. right. eauto. }
  destruct H9 as (E8 & Hfks).
  eapply (efold_alter (fun _ => False)) in H8;
    [|clear; intros acc x r H; ebind_inv H; inversion H; right; eauto
     | exact E8].
  destruct H8 as (_ & Haddf).
  apply no_In_nil in Haddc, Hremc, Haddk, Hremk, Haddf, Hremf.
  split; [|split]; now apply no_differences_get.
Qed.

(** X9.  The diff of two tables is empty exactly when they hold the same
    columns, the same indexes and the same constraints under the same
    names; the order of the entries plays no part, nor do the tables'
    names, options or rows. *)
Theorem to_empty_iff_same_definitions :
  forall self other : table,
    to self other false = inr (Flat []) <->
    ((forall k, OrderedDict.get k (tbl_columns self) =
                OrderedDict.get k (tbl_columns other)) /\
     (forall k, OrderedDict.get k (tbl_indexes self) =
                OrderedDict.get k (tbl_indexes other)) /\
     (forall k, OrderedDict.get k (tbl_constraints self) =
                OrderedDict.get k (tbl_constraints other))).
Proof.
  intros self other.
  destruct (to_parts self other)
    as (primary & constraints & removed & _ & _ & _ & H).
  split.
  - intros Hflat. apply to_split_none. rewrite (H true).
    rewrite (H false) in Hflat.
    destruct primary; [|discriminate].
    destruct constraints; [|discriminate].
    destruct removed; [|discriminate]. reflexivity.
  - intros (Hc & Hi & Hf).
    pose proof (to_same_mappings self other Hc Hi Hf) as Hsplit.
    rewrite (H true) in Hsplit. rewrite (H false).
    unfold truthy_key, alter_truthy in Hsplit. simpl in Hsplit.
    destruct primary; [|discriminate].
    destruct constraints; [|discriminate].
    destruct removed; [|discriminate]. reflexivity.
Qed.

(* ================================================================== *)
(** * Further properties of [table.add_rows] *)

Lemma rows_set_keeps (k id : Z) (r x : row) (rs : list (Z * row)) :
  row_id_in id rs = false -> In (k, r) rs -> In (k, r) (rows_set id x rs).
Proof.
  induction rs as [|[k0 r0] rs IH]; simpl; [tauto|].
  intros Hid Hin. apply orb_false_iff in Hid. destruct Hid as (Hk0 & Hid).
  rewrite Hk0. destruct Hin as [Hin|Hin]; [now left | right; auto].
Qed.

Lemma rows_set_length (id : Z) (x : row) (rs : list (Z * row)) :
  row_id_in id rs = false ->
  List.length (rows_set id x rs) = S (List.length rs).
Proof.
  induction rs as [|[k0 r0] rs IH]; simpl; [reflexivity|].
  intros Hid. apply orb_false_iff in Hid. destruct Hid as (Hk0 & Hid).
  rewrite Hk0. simpl. now rewrite IH.
Qed.

(** What the loop of [add_rows] keeps, however it ends, and what it has
    done when it ends with [True]. *)
Lemma add_rows_loop_keeps (py_int : string -> option Z)
  (explicit : bool) (columns : list string) (raw_rows : list (list string)) :
  forall t res t',
    add_rows_loop py_int explicit columns raw_rows t = (res, t') ->
    (tbl_auto_increment t <= tbl_auto_increment t')%Z /\
    (forall k r,
       In (k, r) (match tbl_rows t with Some rs => rs | None => [] end) ->
       In (k, r) (match tbl_rows t' with Some rs => rs | None => [] end)) /\
    (res = inr ReturnTrue ->
     List.length (match tbl_rows t' with Some rs => rs | None => [] end) =
     List.length (match tbl_rows t with Some rs => rs | None => [] end) +
     List.length raw_rows).
Proof.
  induction raw_rows as [|values raw_rows IH]; intros t res t' H;
    simpl in H.
  - unfold ret in H. inversion H; subst. split; [lia|].
    split; [auto | intros _; simpl; lia].
  - destruct (negb explicit && _).
    + unfold ret in H. inversion H; subst. split; [lia|].
      split; [auto | discriminate].
    + run_M.
      destruct (try_except_ValuerError _ _) as [e|row_id]; simpl in H.
      * inversion H; subst. split; [lia|]. split; [auto | discriminate].
      * destruct (row_id_in row_id _) eqn:Hdup.
        -- inversion H; subst. simpl. split; [lia|].
           split; [auto | discriminate].
        -- apply IH in H. simpl in H. destruct H as (Hai & Hkeep & Hlen).
           split; [lia|]. split.
           ++ intros k r Hin. apply Hkeep. now apply rows_set_keeps.
           ++ intros Hres. rewrite (Hlen Hres), rows_set_length by exact Hdup.
              simpl. lia.
Qed.

Lemma add_rows_keeps (py_int : string -> option Z) (rs : rows) :
  forall t res t',
    add_rows py_int rs t = (res, t') ->
    (tbl_auto_increment t <= tbl_auto_increment t')%Z /\
    (forall k r,
       In (k, r) (match tbl_rows t with Some rs => rs | None => [] end) ->
       In (k, r) (match tbl_rows t' with Some rs => rs | None => [] end)) /\
    (res = inr ReturnTrue ->
     List.length (match tbl_rows t' with Some rs => rs | None => [] end) =
     List.length (match tbl_rows t with Some rs => rs | None => [] end) +
     List.length (rows_raw_rows rs)).
Proof.
  intros t res t' H. unfold add_rows in H.
  destruct (rows_errors rs).
  - run_M. destruct (tbl_rows t) eqn:Hr; simpl in H.
    + apply add_rows_loop_keeps in H. now rewrite Hr in H.
    + apply add_rows_loop_keeps in H. simpl in H. exact H.
  - unfold ret in H. inversion H; subst. split; [lia|].
    split; [auto | discriminate].
Qed.

(** X10.  Whatever [add_rows] does (return [True], [False] or a message,
    or raise), it keeps every stored row id below the table's
    [auto_increment], and never lowers [auto_increment]. *)
Theorem add_rows_keeps_ids_below_auto_increment :
  forall (py_int : string -> option Z) (rs : rows) (t t' : table)
         (res : exn + add_rows_result),
    ids_below_auto_increment t ->
    add_rows py_int rs t = (res, t') ->
    ids_below_auto_increment t' /\
    (tbl_auto_increment t <= tbl_auto_increment t')%Z.
Proof.
  intros py_int rs t t' res Hinv H. split.
  - eapply add_rows_ids_below; eauto.
  - eapply add_rows_keeps; eauto.
Qed.

Lemma add_rows_keeps_ids_below_auto_increment_witness :
  ids_below_auto_increment
    (snd (add_rows (fun _ => Some 7%Z)
            {| rows_errors := []; rows_columns := [];
               rows_num_explicit_columns := 0;
               rows_raw_rows := [["7"; "'bob'"]] |} two_columns)) /\
  (tbl_auto_increment two_columns <=
   tbl_auto_increment
     (snd (add_rows (fun _ => Some 7%Z)
             {| rows_errors := []; rows_columns := [];
                rows_num_explicit_columns := 0;
                rows_raw_rows := [["7"; "'bob'"]] |} two_columns)))%Z.
Proof.
  apply (add_rows_keeps_ids_below_auto_increment (fun _ => Some 7%Z)
           {| rows_errors := []; rows_columns := [];
              rows_num_explicit_columns := 0;
              rows_raw_rows := [["7"; "'bob'"]] |}
           two_columns _ (inr ReturnTrue)).
  - intros k r H. simpl in H. contradiction.
  - reflexivity.
Defined.

(** X11.  [add_rows] never overwrites or drops a stored row: whatever it
    returns or raises, every row the table held before is still there
    under its id, unchanged (a raw row whose id is taken stops the call
    with the duplicate message instead). *)
Theorem add_rows_never_overwrites :
  forall (py_int : string -> option Z) (rs : rows) (t t' : table)
         (res : exn + add_rows_result) (k : Z) (r : row),
    add_rows py_int rs t = (res, t') ->
    In (k, r) (match tbl_rows t with Some rs => rs | None => [] end) ->
    In (k, r) (match tbl_rows t' with Some rs => rs | None => [] end).
Proof.
  intros py_int rs t t' res k r H. now apply (add_rows_keeps py_int rs t res t').
Qed.

Lemma add_rows_never_overwrites_witness :
  add_rows (fun _ => Some 7%Z)
    {| rows_errors := []; rows_columns := [];
       rows_num_explicit_columns := 0;
       rows_raw_rows := [["7"; "'bob'"]; ["7"; "'eve'"]] |}
    (with_rows (Some [(3%Z, [("id", "3"); ("name", "'al'")])]) two_columns) =
    (inr (DuplicateRowId ["7"; "'eve'"]),
     with_auto_increment 8
       (with_rows (Some [(3%Z, [("id", "3"); ("name", "'al'")]);
                         (7%Z, [("id", "7"); ("name", "'bob'")])])
          two_columns)) /\
  In (3%Z, [("id", "3"); ("name", "'al'")])
     [(3%Z, [("id", "3"); ("name", "'al'")]);
      (7%Z, [("id", "7"); ("name", "'bob'")])].
Proof.
  split; [reflexivity|].
  apply (add_rows_never_overwrites (fun _ => Some 7%Z)
           {| rows_errors := []; rows_columns := [];
              rows_num_explicit_columns := 0;
              rows_raw_rows := [["7"; "'bob'"]; ["7"; "'eve'"]] |}
           (with_rows (Some [(3%Z, [("id", "3"); ("name", "'al'")])])
              two_columns)
           (with_auto_increment 8
              (with_rows (Some [(3%Z, [("id", "3"); ("name", "'al'")]);
                                (7%Z, [("id", "7"); ("name", "'bob'")])])
                 two_columns))
           (inr (DuplicateRowId ["7"; "'eve'"]))
           3%Z [("id", "3"); ("name", "'al'")]).
  - reflexivity.
  - simpl. now left.
Defined.

(** X12.  When [add_rows] returns [True] it has stored every raw row under
    an id of its own: the table holds as many rows more as the [rows]
    object has raw rows. *)
Theorem add_rows_true_stores_every_row :
  forall (py_int : string -> option Z) (rs : rows) (t t' : table),
    add_rows py_int rs t = (inr ReturnTrue, t') ->
    List.length (match tbl_rows t' with Some rs => rs | None => [] end) =
    List.length (match tbl_rows t with Some rs => rs | None => [] end) +
    List.length (rows_raw_rows rs).
Proof.
  intros py_int rs t t' H.
  now apply (add_rows_keeps py_int rs t (inr ReturnTrue) t').
Qed.

Lemma add_rows_true_stores_every_row_witness :
  List.length
    (match tbl_rows
             (with_auto_increment 8
                (with_rows (Some [(7%Z, [("id", "7"); ("name", "'bob'")])])
                   two_columns))
     with Some rs => rs | None => [] end) =
  List.length (match tbl_rows two_columns with Some rs => rs | None => [] end) +
  List.length [["7"; "'bob'"]].
Proof.
  apply (add_rows_true_stores_every_row (fun _ => Some 7%Z)
           {| rows_errors := []; rows_columns := [];
              rows_num_explicit_columns := 0;
              rows_raw_rows := [["7"; "'bob'"]] |} two_columns).
  reflexivity.
Defined.

(* ================================================================== *)
(** * Further properties of the planner *)

(** ** The add pass *)

(** X13.  [_process_adds] never raises on well-formed input: when the
    pending names are distinct names of target tables that the tracking
    database does not hold, the pass returns (neither [list.remove] under
    the running iterator nor [add_table] raises). *)
Theorem add_pass_never_raises :
  forall (db_to tracking_db : database) (tables_to_add : list string),
    wf_database db_to ->
    NoDup (OrderedDict.keys (db_tables tracking_db)) ->
    NoDup tables_to_add ->
    (forall n, In n tables_to_add ->
       In n (OrderedDict.keys (db_tables db_to)) /\
       OrderedDict.mem n (db_tables tracking_db) = false) ->
    exists st, _process_adds db_to tracking_db tables_to_add = inr st.
Proof.
  intros db_to tracking_db tables_to_add Hwf HndT HndL Hin.
  apply process_adds_total; auto.
  - intros n Hn. now apply Hin.
  - intros n Hn. now apply Hin.
Qed.

Lemma add_pass_never_raises_witness :
  exists st,
    _process_adds db_cyclic empty_database
      ["tasks"; "repeating_tasks"; "accounts"] = inr st.
Proof.
  apply (add_pass_never_raises db_cyclic empty_database
           ["tasks"; "repeating_tasks"; "accounts"]).
  - apply wf_databaseb_sound. vm_compute. reflexivity.
  - constructor.
  - apply nodupb_NoDup. reflexivity.
  - intros n Hn. split; [exact Hn | reflexivity].
Defined.

(** X14.  When [_process_adds] returns, every table it leaves pending is
    stuck: some foreign key of it cannot be created in the tracking
    database as the pass leaves it, although all of them can be created in
    the target.  No table that could still be created is left behind,
    whatever the iterator skipped on the way. *)
Theorem add_pass_ends_with_stuck_tables :
  forall (db_to tracking_db : database) (tables_to_add : list string)
         (st : adds_state) (name : string),
    _process_adds db_to tracking_db tables_to_add = inr st ->
    In name (st_tables_to_add st) ->
    exists t,
      getitem (db_tables db_to) name = inr t /\
      unfulfilled_fks (st_tracking_db st) t <> [] /\
      unfulfilled_fks db_to t = [].
Proof.
  intros db_to tracking_db tables_to_add st name H Hin.
  exact (process_adds_ends_stuck db_to tracking_db tables_to_add st H name Hin).
Qed.

Lemma add_pass_ends_with_stuck_tables_witness :
  exists t,
    getitem (db_tables db_cyclic) "repeating_tasks" = inr t /\
    unfulfilled_fks (make_database [accounts]) t <> [] /\
    unfulfilled_fks db_cyclic t = [].
Proof.
  apply (add_pass_ends_with_stuck_tables db_cyclic empty_database
           ["tasks"; "repeating_tasks"; "accounts"]
           (mk_adds_state [] [CreateTable accounts]
              ["repeating_tasks"; "tasks"] (make_database [accounts])
              ["tasks"; "repeating_tasks"])
           "repeating_tasks").
  - vm_compute. reflexivity.
  - simpl. right. now left.
Defined.

(** ** The plan a [mygration] holds *)

Lemma efold_preserves {A B} (P : A -> Prop) (f : A -> B -> exn + A) :
  (forall acc x r, P acc -> f acc x = inr r -> P r) ->
  forall l acc r, P acc -> efold f l acc = inr r -> P r.
Proof.
  intros Hf. induction l as [|x l IH]; intros acc r Hacc H; simpl in H.
  - now inversion H; subst.
  - ebind_inv H. eapply IH; [|exact H]. eapply Hf; eauto.
Qed.

Lemma py_extend_Some {A} (l : option (list A)) (more : list A)
  (r : option (list A)) :
  py_extend l more = inr r -> exists ops, r = Some ops.
Proof. destruct l; simpl; intros H; inversion H; eauto. Qed.

Lemma finish_keeps_list (db_to : database) (removes : list string)
  (l : locals) (p : plan) :
  (exists ops, l_operations l = Some ops) ->
  finish db_to removes l = inr p ->
  exists ops, operations p = Some ops.
Proof.
  intros Hl H. unfold finish in H.
  ebind_inv H. rename a into l1, Ha into H1.
  ebind_inv H. rename a into l2, Ha into H2.
  assert (Hl1 : exists ops, l_operations l1 = Some ops).
  { unfold break_cycles in H1.
    eapply (efold_preserves (fun l => exists ops, l_operations l = Some ops));
      [|exact Hl|exact H1].
    intros acc n r _ Hr. unfold break_cycle in Hr.
    ebind_inv Hr. ebind_inv Hr. destruct a0 as [alter copy].
    ebind_inv Hr. inversion Hr; subst r. simpl.
    unfold py_append in Ha1. eapply py_extend_Some; eauto. }
  assert (Hl2 : exists ops, l_operations l2 = Some ops).
  { unfold drop_tables in H2.
    eapply (efold_preserves (fun l => exists ops, l_operations l = Some ops));
      [|exact Hl1|exact H2].
    intros acc n r _ Hr. unfold drop_table in Hr.
    ebind_inv Hr. ebind_inv Hr. inversion Hr; subst r. simpl.
    unfold py_append in Ha. eapply py_extend_Some; eauto. }
  unfold add_back_fks in H. ebind_inv H. inversion H; subst p. simpl.
  destruct (l_fk_operations l2); [inversion Ha; subst; exact Hl2|].
  eapply py_extend_Some; eauto.
Qed.

Lemma process_checked_list (db_to : database) (db_from : option database)
  (p : plan) :
  _process_checked db_to db_from = inr p ->
  exists ops, operations p = Some ops.
Proof.
  intros H. unfold _process_checked in H.
  destruct (_differences _ _) as [[adds removes] updates].
  ebind_inv H. rename a into st, Ha into Hadds.
  destruct (st_errors_1215 st) eqn:Herr.
  2:{ inversion H; subst p. simpl. eauto. }
  ebind_inv H. rename a into upd, Ha into Hupd.
  destruct (process_updates_returns _ _ _ _ _ Hupd) as (-> & _).
  cbn [upd_kitchen_sink upd_fks ebind] in H.
  rewrite (second_add_pass_noop _ _ _ _ _ _ Hadds) in H.
  cbn [ebind] in H.
  eapply finish_keeps_list; [|exact H]. simpl. eauto.
Qed.

(** X15.  The operations of a plan are always a list: whenever
    [mygration( db_to, db_from )] returns, [_operations] is not [None]
    (the assignment of line 156, which would bind [None], never makes it
    into a result), so [len], [bool] and [iter] of the plan do not raise;
    [bool] is [True] exactly when there is an operation. *)
Theorem plan_operations_is_a_list :
  forall (db_to : database) (db_from : option database) (p : plan),
    mygration db_to db_from = inr p ->
    exists ops,
      operations p = Some ops /\
      __len__ p = inr (List.length ops) /\
      __bool__ p = inr (match ops with [] => false | _ => true end) /\
      __iter__ p = inr ops.
Proof.
  intros db_to db_from p H.
  assert (Hops : exists ops, operations p = Some ops).
  { unfold mygration, _process in H. destruct db_from as [d|].
    - ebind_inv H. destruct (errors_1215 a).
      + eapply process_checked_list; eauto.
      + inversion H; subst p. simpl. eauto.
    - eapply process_checked_list; eauto. }
  destruct Hops as (ops & Hops). exists ops.
  unfold __bool__, __len__, __iter__. rewrite Hops. simpl.
  repeat split. now destruct ops.
Qed.

Lemma plan_operations_is_a_list_witness :
  exists ops,
    operations (mk_plan [] (Some cyclic_histories_operations)) = Some ops /\
    __len__ (mk_plan [] (Some cyclic_histories_operations)) =
      inr (List.length ops) /\
    __bool__ (mk_plan [] (Some cyclic_histories_operations)) =
      inr (match ops with [] => false | _ => true end) /\
    __iter__ (mk_plan [] (Some cyclic_histories_operations)) = inr ops.
Proof.
  apply (plan_operations_is_a_list db_cyclic_histories (Some db_accounts_logs)).
  vm_compute. reflexivity.
Defined.

(** ** What a returned plan tells about the tables on both sides *)

(** A split diff without [fks] part: every constraint of the target table
    is a constraint of the source table, unchanged. *)
Lemma to_without_fks (source target : table) (d : split_dict) :
  to source target true = inr (Split d) ->
  fks d = None ->
  forall k c, OrderedDict.get k (tbl_constraints target) = Some c ->
              OrderedDict.get k (tbl_constraints source) = Some c.
Proof.
  intros H Hfks. unfold to, _differences in H. cbv beta iota zeta in H.
  do 7 (ebind_inv H; clear Ha).
  ebind_inv H. rename a0 into a8, Ha into H8.
  ebind_inv H. rename a0 into a9, Ha into H9.
  inversion H; subst d; clear H. simpl in Hfks.
  unfold truthy_key, alter_truthy in Hfks.
  destruct (alt_operations a9) eqn:E9; [clear Hfks | discriminate].
  eapply (efold_alter (fun k => exists v,
            OrderedDict.get k (tbl_constraints source) = Some v /\
            OrderedDict.get k (tbl_constraints target) = Some v)) in H9;
    [|clear; intros acc x r H | exact E9].
  2:{ ebind_inv H. ebind_inv H. apply getitem_get in Ha, Ha0.
      unfold str_eq_constraint in H. destruct (constraint_eq_dec a a0).
      - inversion H; subst. left. eauto.
      - inversion H; subst. right. eauto. }
  destruct H9 as (E8 & Hover).
  eapply (efold_alter (fun _ => False)) in H8;
    [|clear; intros acc x r H; ebind_inv H; inversion H; right; eauto
     | exact E8].
  destruct H8 as (_ & Hadd). apply no_In_nil in Hadd.
  intros k c Hk.
  assert (Hin : In k (OrderedDict.keys (tbl_constraints target)))
    by (eapply In_keys, get_In; eauto).
  pose proof (filter_nil _ _ Hadd k Hin) as Hmem.
  apply negb_false_iff in Hmem.
  destruct (Hover k) as (v & Hs & Ht).
  { apply filter_In. split; [now apply mem_of_key|].
    unfold OrderedDict.mem. now rewrite Hk. }
  congruence.
Qed.

(** A split diff without [kitchen_sink] part: the two tables hold the
    same columns and the same indexes under the same names. *)
Lemma to_without_kitchen_sink_get (source target : table) (d : split_dict) :
  to source target true = inr (Split d) ->
  kitchen_sink d = None ->
  (forall k, OrderedDict.get k (tbl_columns source) =
             OrderedDict.get k (tbl_columns target)) /\
  (forall k, OrderedDict.get k (tbl_indexes source) =
             OrderedDict.get k (tbl_indexes target)).
Proof.
  intros H Hks. unfold to, _differences in H.
  cbv beta iota zeta in H.
  ebind_inv H. rename a into a1, Ha into H1.
  ebind_inv H. rename a into a2, Ha into H2.
  ebind_inv H. rename a into a3, Ha into H3.
  ebind_inv H. rename a into a4, Ha into H4.
  ebind_inv H. rename a into a5, Ha into H5.
  ebind_inv H. rename a into a6, Ha into H6.
  ebind_inv H. ebind_inv H. ebind_inv H.
  inversion H; subst d; clear H. simpl in Hks.
  unfold truthy_key, alter_truthy in Hks.
  destruct (alt_operations a6) eqn:E6; [clear Hks | discriminate].
  eapply (efold_alter (fun k => exists v,
            OrderedDict.get k (tbl_indexes source) = Some v /\
            OrderedDict.get k (tbl_indexes target) = Some v)) in H6;
    [|clear; intros acc x r H | exact E6].
  2:{ ebind_inv H. ebind_inv H. apply getitem_get in Ha, Ha0.
      unfold str_eq_index in H. destruct (index_eq_dec a a0).
      - inversion H; subst. left. eauto.
      - inversion H; subst. right. eauto. }
  destruct H6 as (E5 & Hkeys).
  eapply (efold_alter (fun _ => False)) in H5;
    [|clear; intros acc x r H; ebind_inv H; inversion H; right; eauto
     | exact E5].
  destruct H5 as (E4 & Hremk).
  eapply (efold_alter (fun _ => False)) in H4;
    [|clear; intros acc x r H; ebind_inv H; inversion H; right; eauto
     | exact E4].
  destruct H4 as (E3 & Haddk).
  eapply (efold_alter (fun _ => False)) in H3;
    [|clear; intros acc x r H; ebind_inv H; inversion H; right; eauto
     | exact E3].
  destruct H3 as (E2 & Hremc).
  eapply (efold_alter (fun k => exists v,
            OrderedDict.get k (tbl_columns source) = Some v /\
            OrderedDict.get k (tbl_columns target) = Some v)) in H2;
    [|clear; intros acc x r H | exact E2].
  2:{ ebind_inv H. ebind_inv H. apply getitem_get in Ha, Ha0.
      unfold str_eq_column in H. destruct (column_eq_dec a a0).
      - inversion H; subst. left. eauto.
      - inversion H; subst. right. eauto. }
  destruct H2 as (E1 & Hcols).
  eapply (efold_alter (fun _ => False)) in H1;
    [|clear; intros acc x r H; ebind_inv H; ebind_inv H; inversion H;
      right; eauto
     | exact E1].
  destruct H1 as (_ & Haddc).
  apply no_In_nil in Haddc, Hremc, Haddk, Hremk.
  split; now apply no_differences_get.
Qed.

(** Past the check of the target, a plan without errors has been through
    [_process_updates]. *)
Lemma process_checked_updates (db_to : database) (db_from : option database)
  (p : plan) :
  _process_checked db_to db_from = inr p ->
  errors_1215 p = [] ->
  exists tracking_db,
    _process_updates db_to db_from tracking_db
      (filter (fun key => OrderedDict.mem key (db_tables db_to))
         (OrderedDict.keys
            (match db_from with Some d => db_tables d | None => [] end))) =
      inr (mk_updates_dict [] []).
Proof.
  intros H Herrs. unfold _process_checked, _differences in H.
  cbv beta iota zeta in H.
  ebind_inv H. rename a into st.
  destruct (st_errors_1215 st) eqn:Herr.
  2:{ inversion H; subst p. discriminate. }
  ebind_inv H. rename a into upd, Ha0 into Hupd.
  destruct (process_updates_returns _ _ _ _ _ Hupd) as (-> & _).
  eauto.
Qed.

(** X16.  A plan without 1215 errors is returned only when no table
    present on both sides needs an update: for every table name found in
    both databases, the two tables hold the same columns and the same
    indexes under the same names, and every foreign key of the target
    table is one of the source table, unchanged.  (Any other difference
    makes [_process_updates] raise.) *)
Theorem plan_returns_only_for_unchanged_tables :
  forall (db_to d : database) (p : plan) (name : string)
         (source target : table),
    mygration db_to (Some d) = inr p ->
    errors_1215 p = [] ->
    OrderedDict.get name (db_tables d) = Some source ->
    OrderedDict.get name (db_tables db_to) = Some target ->
    (forall k, OrderedDict.get k (tbl_columns source) =
               OrderedDict.get k (tbl_columns target)) /\
    (forall k, OrderedDict.get k (tbl_indexes source) =
               OrderedDict.get k (tbl_indexes target)) /\
    (forall k c, OrderedDict.get k (tbl_constraints target) = Some c ->
                 OrderedDict.get k (tbl_constraints source) = Some c).
Proof.
  intros db_to d p name source target H Herrs Hs Ht.
  unfold mygration, _process in H. ebind_inv H. rename a into check.
  destruct (errors_1215 check) eqn:Hcheck.
  2:{ inversion H; subst p. discriminate. }
  destruct (process_checked_updates _ _ _ H Herrs) as (tracking & Hupd).
  destruct (process_updates_returns _ _ _ _ _ Hupd) as (_ & HU).
  destruct (HU name) as (d' & src & tgt & sd & Hd & Hs' & Ht' & Hto & Hks & Hfks).
  { apply filter_In. split.
    - eapply In_keys, get_In; eauto.
    - unfold OrderedDict.mem. now rewrite Ht. }
  inversion Hd; subst d'.
  assert (src = source) by congruence. assert (tgt = target) by congruence.
  subst src tgt.
  destruct (to_without_kitchen_sink_get _ _ _ Hto Hks) as (Hc & Hi).
  split; [exact Hc|]. split; [exact Hi|].
  eapply to_without_fks; eauto.
Qed.

Lemma plan_returns_only_for_unchanged_tables_witness :
  (forall k, OrderedDict.get k (tbl_columns tasks) =
             OrderedDict.get k (tbl_columns (with_constraints [] tasks))) /\
  (forall k, OrderedDict.get k (tbl_indexes tasks) =
             OrderedDict.get k (tbl_indexes (with_constraints [] tasks))) /\
  (forall k c,
     OrderedDict.get k (tbl_constraints (with_constraints [] tasks)) =
       Some c ->
     OrderedDict.get k (tbl_constraints tasks) = Some c).
Proof.
  apply (plan_returns_only_for_unchanged_tables
           (make_database [with_constraints [] tasks; accounts])
           db_tasks_accounts (mk_plan [] (Some [])) "tasks").
  - vm_compute. reflexivity.
  - reflexivity.
  - reflexivity.
  - reflexivity.
Defined.

(** ** The 1215 errors of a plan *)

Lemma unfulfilled_fks_none (db : database) (t : table) :
  (forall k c, In (k, c) (tbl_constraints t) -> fk_error db t c = None) ->
  unfulfilled_fks db t = [].
Proof.
  intros H. apply no_In_nil. intros [k pr] Hin.
  destruct (unfulfilled_fks_spec db t) as (_ & Hbad & _).
  destruct (Hbad k pr Hin) as (Hc & He). rewrite (H _ _ Hc) in He.
  discriminate.
Qed.

Section Errors.
Variable db_to : database.

Lemma adds_body_errors (name : string) (st st' : adds_state) :
  (forall msg, In msg (st_errors_1215 st) -> broken_fk_message db_to msg) ->
  adds_body db_to name st = inr st' ->
  forall msg, In msg (st_errors_1215 st') -> broken_fk_message db_to msg.
Proof.
  intros Hinv H. unfold adds_body in H.
  ebind_inv H. rename a into t. apply getitem_get in Ha.
  destruct (unfulfilled_fks (st_tracking_db st) t).
  - ebind_inv H. ebind_inv H. inversion H; subst st'. exact Hinv.
  - destruct (in_list name (st_good_tables st)).
    + inversion H; subst st'. exact Hinv.
    + remember (unfulfilled_fks db_to t) as broken_constraints eqn:Hb.
      destruct broken_constraints as [|x broken_constraints].
      * inversion H; subst st'. exact Hinv.
      * ebind_inv H. inversion H; subst st'.
        cbn [st_errors_1215].
        change (error (snd x) ::
                map error (OrderedDict.values broken_constraints))
          with (map error (OrderedDict.values (x :: broken_constraints))).
        rewrite Hb.
        intros msg Hmsg. apply in_app_or in Hmsg.
        destruct Hmsg as [Hmsg|Hmsg]; [auto|].
        apply in_map_iff in Hmsg. destruct Hmsg as (pr & Hpr & Hin).
        exists name, t, pr. auto.
Qed.

Lemma process_adds_errors (tracking_db : database)
  (tables_to_add : list string) (st : adds_state) :
  _process_adds db_to tracking_db tables_to_add = inr st ->
  forall msg, In msg (st_errors_1215 st) -> broken_fk_message db_to msg.
Proof.
  unfold _process_adds. intros H.
  eapply (adds_loop_invariant db_to
            (fun st => forall msg, In msg (st_errors_1215 st) ->
                                   broken_fk_message db_to msg));
    [|
     |exact H].
  - intros name s s'. apply adds_body_errors.
  - intros msg [].
Qed.

Lemma process_checked_errors (db_from : option database) (p : plan) :
  _process_checked db_to db_from = inr p ->
  forall msg, In msg (errors_1215 p) -> broken_fk_message db_to msg.
Proof.
  intros H. unfold _process_checked in H.
  destruct (_differences _ _) as [[adds removes] updates].
  ebind_inv H. rename a into st, Ha into Hadds.
  pose proof (process_adds_errors _ _ _ Hadds) as Hin.
  destruct (st_errors_1215 st) eqn:Herr.
  2:{ inversion H; subst p. simpl. exact Hin. }
  ebind_inv H. rename a into upd, Ha into Hupd.
  destruct (process_updates_returns _ _ _ _ _ Hupd) as (-> & _).
  cbn [upd_kitchen_sink upd_fks ebind] in H.
  rewrite (second_add_pass_noop _ _ _ _ _ _ Hadds) in H.
  cbn [ebind] in H. unfold finish in H.
  ebind_inv H. rename a into l1, Ha into H1.
  ebind_inv H. rename a into l2, Ha into H2.
  assert (E1 : l_errors_1215 l1 = []).
  { unfold break_cycles in H1.
    eapply (efold_preserves (fun l => l_errors_1215 l = [])) in H1;
      [exact H1| |reflexivity].
    intros acc n r Hacc Hr. unfold break_cycle in Hr.
    ebind_inv Hr. ebind_inv Hr. destruct a0 as [alter copy].
    ebind_inv Hr. inversion Hr; subst r. exact Hacc. }
  assert (E2 : l_errors_1215 l2 = []).
  { unfold drop_tables in H2.
    eapply (efold_preserves (fun l => l_errors_1215 l = [])) in H2;
      [exact H2| |exact E1].
    intros acc n r Hacc Hr. unfold drop_table in Hr.
    ebind_inv Hr. ebind_inv Hr. inversion Hr; subst r. exact Hacc. }
  unfold add_back_fks in H. ebind_inv H. inversion H; subst p. simpl.
  rewrite E2. intros msg [].
Qed.

Lemma process_errors (db_from : option database) (p : plan) :
  _process db_to db_from = inr p ->
  forall msg, In msg (errors_1215 p) -> broken_fk_message db_to msg.
Proof.
  intros H. unfold _process in H. destruct db_from as [d|].
  - ebind_inv H. rename a into check.
    pose proof (process_checked_errors _ _ Ha) as Hcheck.
    destruct (errors_1215 check) eqn:E.
    + eapply process_checked_errors; eauto.
    + inversion H; subst p. simpl. exact Hcheck.
  - eapply process_checked_errors; eauto.
Qed.
End Errors.

Section ErrorsComplete.
Variable db_to : database.
Hypothesis wf_to : wf_database db_to.
Variable pending0 : list string.

Lemma adds_body_accounts (name : string) (st st' : adds_state) :
  tracking_from_target db_to st /\ accounted_for db_to pending0 st ->
  adds_body db_to name st = inr st' ->
  tracking_from_target db_to st' /\ accounted_for db_to pending0 st'.
Proof.
  intros (Htr & Hacc) H. unfold adds_body in H.
  ebind_inv H. rename a into t. apply getitem_get in Ha.
  destruct (wf_database_get _ _ _ wf_to Ha) as (Hname & _).
  destruct (unfulfilled_fks (st_tracking_db st) t) eqn:Hbad.
  - ebind_inv H. rename a into rest, Ha0 into Hrem.
    ebind_inv H. rename a into tracking', Ha0 into Hadd.
    inversion H; subst st'; clear H.
    apply add_table_inv in Hadd. destruct Hadd as (Hfresh & Htab).
    rewrite Hname in Hfresh, Htab.
    split.
    + intros k t' Hk. cbn [st_tracking_db] in Hk. rewrite Htab in Hk.
      destruct (string_dec k name) as [->|Hne].
      * rewrite get_set_same in Hk. inversion Hk; subst t'.
        split; [exact Ha|]. apply unfulfilled_fks_none.
        intros kc c Hc.
        pose proof (unfulfilled_fks_nil _ _ Hbad kc c Hc) as Hok.
        apply fk_error_None in Hok. destruct Hok as (f & Hf & Hholds).
        apply fk_error_None. exists f. split; [|exact Hholds].
        now apply Htr.
      * rewrite get_set_other in Hk by exact Hne. now apply Htr.
    + intros n Hn. cbn [st_tables_to_add st_tracking_db st_errors_1215].
      rewrite Htab.
      destruct (string_dec n name) as [->|Hne].
      * right. left. apply mem_set_same.
      * destruct (Hacc n Hn) as [Hin|[Hin|Hin]].
        -- left. eapply list_remove_other; eauto.
        -- right. left. now rewrite mem_set_other.
        -- right. right. exact Hin.
  - destruct (in_list name (st_good_tables st)).
    + inversion H; subst st'. now split.
    + remember (unfulfilled_fks db_to t) as broken_constraints eqn:Hb.
      destruct broken_constraints as [|x broken_constraints].
      * inversion H; subst st'. now split.
      * ebind_inv H. rename a into rest, Ha0 into Hrem.
        inversion H; subst st'; clear H. split; [exact Htr|].
        intros n Hn. cbn [st_tables_to_add st_tracking_db st_errors_1215].
        change (error (snd x) ::
                map error (OrderedDict.values broken_constraints))
          with (map error (OrderedDict.values (x :: broken_constraints))).
        destruct (string_dec n name) as [->|Hne].
        -- right. right. exists t. split; [exact Ha|].
           intros pr Hpr. apply in_or_app. right. rewrite Hb.
           now apply in_map.
        -- destruct (Hacc n Hn) as [Hin|[Hin|(t' & Ht' & Hin)]].
           ++ left. eapply list_remove_other; eauto.
           ++ right. now left.
           ++ right. right. exists t'. split; [exact Ht'|].
              intros pr Hpr. apply in_or_app. left. auto.
Qed.

Lemma process_adds_accounts (st : adds_state) :
  _process_adds db_to empty_database pending0 = inr st ->
  tracking_from_target db_to st /\ accounted_for db_to pending0 st.
Proof.
  unfold _process_adds. intros H.
  eapply (adds_loop_invariant db_to
            (fun st => tracking_from_target db_to st /\
                       accounted_for db_to pending0 st));
    [| |exact H].
  - intros name s s'. apply adds_body_accounts.
  - split.
    + intros k t Hk. discriminate.
    + intros n Hn. now left.
Qed.
End ErrorsComplete.

Lemma check_errors_complete (db_to : database) (check : plan) :
  wf_database db_to ->
  _process_checked db_to None = inr check ->
  forall msg, broken_fk_message db_to msg -> In msg (errors_1215 check).
Proof.
  intros Hwf H msg (n & t & pr & Ht & Hpr & Hmsg).
  unfold _process_checked, _differences in H. cbv beta iota zeta in H.
  rewrite (filter_all (fun key => negb (OrderedDict.mem key []))) in H
    by reflexivity.
  ebind_inv H. rename a into st, Ha into Hadds.
  simpl in Hadds.
  destruct (process_adds_accounts db_to Hwf _ _ Hadds) as (Htr & Hacc).
  assert (Hin : In (error pr) (st_errors_1215 st)).
  { destruct (Hacc n) as [Hn|[Hn|(t' & Ht' & Hn)]].
    - eapply In_keys, get_In; eauto.
    - destruct (process_adds_ends_stuck _ _ _ _ Hadds n Hn)
        as (t' & Ht' & _ & Hok).
      apply getitem_get in Ht'. assert (t' = t) by congruence. subst t'.
      rewrite Hok in Hpr. destruct Hpr.
    - unfold OrderedDict.mem in Hn.
      destruct (OrderedDict.get n (db_tables (st_tracking_db st)))
        as [t'|] eqn:Hget; [|discriminate].
      destruct (Htr _ _ Hget) as (Ht' & Hok).
      assert (t' = t) by congruence. subst t'.
      rewrite Hok in Hpr. destruct Hpr.
    - assert (t' = t) by congruence. subst t'. auto. }
  rewrite Hmsg in Hin.
  destruct (st_errors_1215 st) eqn:Herr; [destruct Hin|].
  inversion H; subst check. exact Hin.
Qed.

(** X17.  The 1215 errors of a plan are exactly the errors of the target:
    for a well-formed target, whenever [mygration( db_to, db_from )]
    returns, a message is among its [errors_1215] if and only if it is the
    error [unfulfilled_fks] gives for a foreign key of a target table
    checked against the target itself.  In particular the list is empty
    exactly when every foreign key of the target can be created in the
    target, and it does not depend on the source. *)
Theorem errors_are_the_broken_foreign_keys :
  forall (db_to : database) (db_from : option database) (p : plan),
    wf_database db_to ->
    mygration db_to db_from = inr p ->
    forall msg,
      In msg (errors_1215 p) <->
      exists n t pr,
        OrderedDict.get n (db_tables db_to) = Some t /\
        In pr (OrderedDict.values (unfulfilled_fks db_to t)) /\
        error pr = msg.
Proof.
  intros db_to db_from p Hwf H msg. split.
  - now apply (process_errors db_to db_from p).
  - intros Hmsg. unfold mygration, _process in H.
    destruct db_from as [d|].
    + ebind_inv H. rename a into check.
      pose proof (check_errors_complete _ _ Hwf Ha msg Hmsg) as Hin.
      destruct (errors_1215 check) eqn:E; [destruct Hin|].
      inversion H; subst p. exact Hin.
    + exact (check_errors_complete _ _ Hwf H msg Hmsg).
Qed.

Lemma errors_are_the_broken_foreign_keys_witness :
  In "1215: owner_id_fk references unknown table"
     (errors_1215
        (mk_plan ["1215: owner_id_fk references unknown table"] (Some []))) <->
  exists n t pr,
    OrderedDict.get n (db_tables db_orphans) = Some t /\
    In pr (OrderedDict.values (unfulfilled_fks db_orphans t)) /\
    error pr = "1215: owner_id_fk references unknown table".
Proof.
  apply (errors_are_the_broken_foreign_keys db_orphans (Some db_orphans)).
  - apply wf_databaseb_sound. vm_compute. reflexivity.
  - vm_compute. reflexivity.
Defined.

(** X18.  With a source database the errors of a plan are those of
    planning the target on its own, and a plan that reports errors holds
    no operation at all: for a well-formed target, whenever
    [mygration( db_to, db_from )] returns, [mygration( db_to )] returns
    the same [errors_1215], and if that list is not empty the operations
    are the empty list. *)
Theorem errors_with_source_mean_no_operations :
  forall (db_to d : database) (p : plan),
    wf_database db_to ->
    mygration db_to (Some d) = inr p ->
    exists check,
      mygration db_to None = inr check /\
      errors_1215 p = errors_1215 check /\
      (errors_1215 p <> [] -> operations p = Some []).
Proof.
  intros db_to d p Hwf H. unfold mygration, _process in *.
  ebind_inv H. rename a into check. exists check.
  split; [exact Ha|].
  destruct (errors_1215 check) eqn:E.
  - assert (Hnil : errors_1215 p = []).
    { destruct (errors_1215 p) as [|msg rest] eqn:Ep; [reflexivity|].
      assert (Hmsg : broken_fk_message db_to msg).
      { eapply process_checked_errors; [exact H|]. rewrite Ep. now left. }
      pose proof (check_errors_complete _ _ Hwf Ha msg Hmsg) as Hin.
      rewrite E in Hin. destruct Hin. }
    split; [exact Hnil|]. intros Hne. contradiction.
  - inversion H; subst p. simpl. split; [reflexivity|]. reflexivity.
Qed.

Lemma errors_with_source_mean_no_operations_witness :
  exists check,
    mygration db_orphans None = inr check /\
    errors_1215
      (mk_plan ["1215: owner_id_fk references unknown table"] (Some [])) =
      errors_1215 check /\
    (errors_1215
       (mk_plan ["1215: owner_id_fk references unknown table"] (Some [])) <>
       [] ->
     operations
       (mk_plan ["1215: owner_id_fk references unknown table"] (Some [])) =
       Some []).
Proof.
  apply (errors_with_source_mean_no_operations db_orphans db_accounts_logs).
  - apply wf_databaseb_sound. vm_compute. reflexivity.
  - vm_compute. reflexivity.
Defined.

(** ** The shape of a plan *)

Lemma list_remove_Permutation (x : string) (l l' : list string) :
  list_remove x l = inr l' -> Permutation l (x :: l').
Proof.
  revert l'. induction l as [|y l IH]; intros l' H; simpl in H;
    [discriminate|].
  destruct (String.eqb_spec x y).
  - inversion H; subst. reflexivity.
  - ebind_inv H. inversion H; subst.
    rewrite (IH _ Ha). apply perm_swap.
Qed.

Section Shape.
Variable db_to : database.
Hypothesis wf_to : wf_database db_to.

Lemma adds_body_created (pending0 : list string) (name : string)
  (st st' : adds_state) :
  created_so_far db_to pending0 st ->
  adds_body db_to name st = inr st' ->
  created_so_far db_to pending0 st'.
Proof.
  intros (created & Hops & Htarget & Hperm) H. unfold adds_body in H.
  ebind_inv H. rename a into t. apply getitem_get in Ha.
  destruct (wf_database_get _ _ _ wf_to Ha) as (Hname & _).
  destruct (unfulfilled_fks (st_tracking_db st) t) eqn:Hbad.
  - ebind_inv H. rename a into rest, Ha0 into Hrem.
    ebind_inv H. inversion H; subst st'; clear H.
    exists (created ++ [t])%list. cbn [st_operations st_errors_1215
                                       st_tables_to_add].
    split; [rewrite Hops, map_app; reflexivity|]. split.
    + intros t' Ht'. apply in_app_or in Ht'.
      destruct Ht' as [Ht'|[<-|[]]]; [auto | now rewrite Hname].
    + intros Herr. rewrite map_app, <- app_assoc. simpl. rewrite Hname.
      rewrite <- (Hperm Herr). apply Permutation_app_head.
      symmetry. now apply list_remove_Permutation.
  - destruct (in_list name (st_good_tables st)).
    + inversion H; subst st'. exists created. auto.
    + destruct (unfulfilled_fks db_to t) eqn:Hb.
      * inversion H; subst st'. exists created. auto.
      * ebind_inv H. inversion H; subst st'; clear H.
        exists created. cbn [st_operations st_errors_1215 st_tables_to_add].
        split; [exact Hops|]. split; [exact Htarget|].
        intros Herr. apply app_eq_nil in Herr. destruct Herr as (_ & Herr).
        discriminate.
Qed.

Lemma process_adds_created (tracking_db : database) (pending0 : list string)
  (st : adds_state) :
  _process_adds db_to tracking_db pending0 = inr st ->
  created_so_far db_to pending0 st.
Proof.
  unfold _process_adds. intros H.
  eapply (adds_loop_invariant db_to (created_so_far db_to pending0));
    [| |exact H].
  - intros name s s'. apply adds_body_created.
  - exists []. simpl. split; [reflexivity|]. split; [intros t []|].
    intros _. reflexivity.
Qed.
End Shape.

Lemma pop_filter {V} (k : string) (d : odict V) :
  NoDup (OrderedDict.keys d) ->
  OrderedDict.pop k d = filter (fun kv => negb (String.eqb k (fst kv))) d.
Proof.
  induction d as [|[k0 v0] d IH]; simpl; intros Hnd; [reflexivity|].
  inversion Hnd; subst. destruct (String.eqb_spec k k0); simpl.
  - subst k0. rewrite <- IH by assumption. symmetry. now apply pop_fresh.
  - f_equal. now apply IH.
Qed.

Lemma filter_twice {A} (f g : A -> bool) (l : list A) :
  filter f (filter g l) = filter (fun x => g x && f x) l.
Proof.
  induction l as [|x l IH]; simpl; [reflexivity|].
  destruct (g x); simpl; [destruct (f x)|]; now rewrite IH.
Qed.

Lemma filter_pointwise {A} (f g : A -> bool) (l : list A) :
  (forall x, f x = g x) -> filter f l = filter g l.
Proof.
  intros H. induction l as [|x l IH]; simpl; [reflexivity|].
  now rewrite H, IH.
Qed.

(** The loop of lines 172-174 takes exactly the bad constraints off the
    copy of the table. *)
Lemma strip_constraints_exact (bads : list fk_problem) :
  forall (alter alter' : alter_table) (t t' : table),
    efold (fun '(create_fks, new_table_copy) constraint =>
        let create_fks :=
          add_operation create_fks (AddConstraint (foreign_key constraint)) in
        match remove_constraint (Obj (foreign_key constraint))
                new_table_copy with
        | (inl e, _) => inl e
        | (inr _, new_table_copy) => inr (create_fks, new_table_copy)
        end) bads (alter, t) = inr (alter', t') ->
    NoDup (OrderedDict.keys (tbl_constraints t)) ->
    t' = without_fks (map foreign_key bads) t.
Proof.
  induction bads as [|pr bads IH]; intros alter alter' t t' H Hnd;
    simpl in H.
  - inversion H; subst. unfold without_fks. simpl.
    rewrite filter_all by reflexivity. now destruct t'.
  - ebind_inv H. destruct a as [alter1 t1].
    destruct (remove_constraint (Obj (foreign_key pr)) t) as [[e|[]] t1']
      eqn:Hrm; [discriminate|].
    inversion Ha; subst alter1 t1'; clear Ha.
    apply remove_constraint_inv in Hrm. simpl in Hrm.
    apply IH in H.
    2:{ subst t1. simpl. now apply NoDup_keys_pop. }
    subst t' t1. unfold without_fks, with_constraints. simpl. f_equal.
    rewrite pop_filter by exact Hnd. rewrite filter_twice.
    apply filter_pointwise. intros [k c]. simpl.
    now rewrite negb_orb.
Qed.

Section CycleShape.
Variable db_to : database.
Hypothesis wf_to : wf_database db_to.

Lemma break_cycle_exact (n : string) (l l' : locals) (ops : list operation) :
  break_cycle db_to n l = inr l' ->
  l_operations l = Some ops ->
  exists t,
    OrderedDict.get n (db_tables db_to) = Some t /\
    tbl_name t = n /\
    l' = mk_locals (l_errors_1215 l)
           (Some (ops ++
                  [CreateTable
                     (without_fks
                        (map foreign_key
                           (OrderedDict.values
                              (unfulfilled_fks (l_tracking_db l) t))) t)])%list)
           (l_fk_operations l ++
            [add_fks
               (map foreign_key
                  (OrderedDict.values (unfulfilled_fks (l_tracking_db l) t)))
               t])%list
           (l_tracking_db l) (l_tables_to_add l).
Proof.
  intros H Hops. unfold break_cycle in H.
  ebind_inv H. rename a into t. apply getitem_get in Ha.
  ebind_inv H. destruct a as [alter copy].
  rewrite Hops in H. cbn [py_append py_extend ebind] in H.
  inversion H; subst l'; clear H.
  destruct (wf_database_get _ _ _ wf_to Ha) as (Hname & _ & Hnd & _).
  destruct (strip_constraints _ _ _ _ _ Ha0) as (E & _).
  apply strip_constraints_exact in Ha0; [|exact Hnd].
  exists t. split; [exact Ha|]. split; [exact Hname|].
  subst copy. rewrite E. unfold add_fks. simpl. rewrite Hname.
  now rewrite map_map.
Qed.

Lemma break_cycles_exact (pending : list string) :
  forall (l l' : locals) (ops : list operation),
    efold (fun l n => break_cycle db_to n l) pending l = inr l' ->
    l_operations l = Some ops ->
    exists cycle : list (table * list constraint),
      map (fun x => tbl_name (fst x)) cycle = pending /\
      (forall t cs, In (t, cs) cycle ->
         OrderedDict.get (tbl_name t) (db_tables db_to) = Some t /\
         cs = map foreign_key
                (OrderedDict.values (unfulfilled_fks (l_tracking_db l) t))) /\
      l_operations l' =
        Some (ops ++
              map (fun x => CreateTable (without_fks (snd x) (fst x))) cycle)%list /\
      l_fk_operations l' =
        (l_fk_operations l ++
         map (fun x => add_fks (snd x) (fst x)) cycle)%list /\
      l_errors_1215 l' = l_errors_1215 l.
Proof.
  induction pending as [|n pending IH]; intros l l' ops H Hops; simpl in H.
  - inversion H; subst l'. exists []. simpl. rewrite !app_nil_r.
    split; [reflexivity|]. split; [intros t cs []|]. auto.
  - ebind_inv H. rename a into l1.
    destruct (break_cycle_exact _ _ _ _ Ha Hops) as (t & Ht & Hname & ->).
    destruct (IH _ _ _ H eq_refl) as (cycle & Hnames & Hin & E1 & E2 & E3).
    cbn [l_tracking_db l_fk_operations l_errors_1215] in Hin, E2, E3.
    exists ((t, map foreign_key
                  (OrderedDict.values (unfulfilled_fks (l_tracking_db l) t)))
            :: cycle).
    simpl. rewrite Hname, Hnames. split; [reflexivity|]. split.
    + intros t' cs [Heq|Hin']; [|now apply Hin].
      inversion Heq; subst t' cs. rewrite Hname. auto.
    + rewrite E1, E2, E3, <- !app_assoc. auto.
Qed.
End CycleShape.

Lemma process_checked_shape (db_to : database) (db_from : option database)
  (p : plan) (ops : list operation) :
  wf_database db_to ->
  _process_checked db_to db_from = inr p ->
  errors_1215 p = [] ->
  operations p = Some ops ->
  exists (created : list table) (cycle : list (table * list constraint)),
    ops =
      (map CreateTable created ++
       map (fun x => CreateTable (without_fks (snd x) (fst x))) cycle ++
       map RemoveTable
         (filter (fun key => negb (OrderedDict.mem key (db_tables db_to)))
            (OrderedDict.keys
               (match db_from with Some d => db_tables d | None => [] end))) ++
       map (fun x => add_fks (snd x) (fst x)) cycle)%list /\
    Permutation
      (map tbl_name created ++ map (fun x => tbl_name (fst x)) cycle)
      (filter (fun key =>
                 negb (OrderedDict.mem key
                         (match db_from with
                          | Some d => db_tables d
                          | None => []
                          end)))
         (OrderedDict.keys (db_tables db_to))) /\
    (forall t, In t created ->
       OrderedDict.get (tbl_name t) (db_tables db_to) = Some t) /\
    (forall t cs, In (t, cs) cycle ->
       OrderedDict.get (tbl_name t) (db_tables db_to) = Some t /\
       cs <> [] /\ NoDup (map con_name cs) /\
       forall c, In c cs -> In (con_name c, c) (tbl_constraints t)).
Proof.
  intros Hwf H Herrs Hops.
  unfold _process_checked, _differences in H. cbv beta iota zeta in H.
  ebind_inv H. rename a into st, Ha into Hadds.
  destruct (st_errors_1215 st) eqn:Herr.
  2:{ inversion H; subst p. discriminate. }
  ebind_inv H. rename a into upd, Ha into Hupd.
  destruct (process_updates_returns _ _ _ _ _ Hupd) as (-> & _).
  cbn [upd_kitchen_sink upd_fks ebind] in H.
  rewrite (second_add_pass_noop _ _ _ _ _ _ Hadds) in H.
  cbn [ebind] in H. unfold finish, break_cycles in H.
  ebind_inv H. rename a into l3, Ha into Hcycles.
  ebind_inv H. rename a into l4, Ha into Hdrops.
  cbn [l_tables_to_add] in Hcycles.
  destruct (process_adds_created db_to Hwf _ _ _ Hadds)
    as (created & Hcreated & Htarget & Hperm).
  specialize (Hperm Herr).
  destruct (break_cycles_exact db_to Hwf _ _ _ _ Hcycles eq_refl)
    as (cycle & Hnames & Hcycle & E1 & E2 & E3).
  cbn [l_tracking_db l_fk_operations l_errors_1215 app] in Hcycle, E2, E3.
  destruct (drop_tables_operations _ _ _ _ Hdrops E1) as (E4 & E5 & E6).
  destruct (add_back_fks_operations _ _ _ H E4) as (Eops & _).
  rewrite E5, E2, Hops in Eops. inversion Eops; subst ops; clear Eops.
  exists created, cycle. rewrite Hcreated, Hnames, <- !app_assoc.
  split; [reflexivity|]. split; [exact Hperm|]. split; [exact Htarget|].
  intros t cs Hin. destruct (Hcycle t cs Hin) as (Ht & Hcs).
  split; [exact Ht|].
  assert (Hpending : In (tbl_name t) (st_tables_to_add st)).
  { rewrite <- Hnames. apply in_map_iff. exists (t, cs). auto. }
  destruct (process_adds_ends_stuck _ _ _ _ Hadds _ Hpending)
    as (t' & Ht' & Hbad & _).
  apply getitem_get in Ht'. assert (t' = t) by congruence. subst t'.
  destruct (unfulfilled_fks_spec (st_tracking_db st) t) as (Hnd & Hspec & _).
  destruct (wf_database_get _ _ _ Hwf Ht) as (_ & _ & _ & Hcn).
  split; [|split].
  - rewrite Hcs. intros Hnil. apply Hbad.
    destruct (unfulfilled_fks (st_tracking_db st) t); [reflexivity|].
    discriminate.
  - rewrite Hcs, map_map.
    rewrite (map_values_keys (fun pr => con_name (foreign_key pr)));
      [exact Hnd|].
    intros k pr Hpr. apply Hcn. now apply Hspec.
  - intros c Hc. rewrite Hcs in Hc. apply in_map_iff in Hc.
    destruct Hc as (pr & <- & Hpr). apply values_In in Hpr.
    destruct Hpr as (k & Hpr).
    destruct (Hspec _ _ Hpr) as (Hin' & _).
    now rewrite (Hcn _ _ Hin').
Qed.

(** X19.  The shape of a plan without errors, for a well-formed target.
    Its operations are, in this order: [CREATE TABLE] of target tables as
    the target has them; [CREATE TABLE] of the remaining new tables, each
    without some of its foreign keys (at least one); [DROP TABLE] of the
    source tables the target does not have, in the source's order; and for
    each table created without foreign keys the [ALTER TABLE] that adds
    just those, in the same order.  The tables created are the target
    tables that the source lacks, each one once.  Nothing else is ever
    planned: no column or key operation and no removal of a foreign key. *)
Theorem plan_is_creates_drops_then_foreign_keys :
  forall (db_to : database) (db_from : option database) (p : plan)
         (ops : list operation),
    wf_database db_to ->
    mygration db_to db_from = inr p ->
    errors_1215 p = [] ->
    operations p = Some ops ->
    exists (created : list table) (cycle : list (table * list constraint)),
      ops =
        (map CreateTable created ++
         map (fun x => CreateTable (without_fks (snd x) (fst x))) cycle ++
         map RemoveTable
           (filter (fun key => negb (OrderedDict.mem key (db_tables db_to)))
              (OrderedDict.keys
                 (match db_from with
                  | Some d => db_tables d
                  | None => []
                  end))) ++
         map (fun x => add_fks (snd x) (fst x)) cycle)%list /\
      Permutation
        (map tbl_name created ++ map (fun x => tbl_name (fst x)) cycle)
        (filter (fun key =>
                   negb (OrderedDict.mem key
                           (match db_from with
                            | Some d => db_tables d
                            | None => []
                            end)))
           (OrderedDict.keys (db_tables db_to))) /\
      (forall t, In t created ->
         OrderedDict.get (tbl_name t) (db_tables db_to) = Some t) /\
      (forall t cs, In (t, cs) cycle ->
         OrderedDict.get (tbl_name t) (db_tables db_to) = Some t /\
         cs <> [] /\ NoDup (map con_name cs) /\
         forall c, In c cs -> In (con_name c, c) (tbl_constraints t)).
Proof.
  intros db_to db_from p ops Hwf H Herrs Hops.
  unfold mygration, _process in H. destruct db_from as [d|].
  - ebind_inv H. rename a into check.
    destruct (errors_1215 check) eqn:E.
    + exact (process_checked_shape db_to (Some d) p ops Hwf H Herrs Hops).
    + inversion H; subst p. discriminate.
  - exact (process_checked_shape db_to None p ops Hwf H Herrs Hops).
Qed.

Lemma plan_is_creates_drops_then_foreign_keys_witness :
  exists (created : list table) (cycle : list (table * list constraint)),
    cyclic_histories_operations =
      (map CreateTable created ++
       map (fun x => CreateTable (without_fks (snd x) (fst x))) cycle ++
       map RemoveTable
         (filter (fun key =>
                    negb (OrderedDict.mem key (db_tables db_cyclic_histories)))
            (OrderedDict.keys (db_tables db_accounts_logs))) ++
       map (fun x => add_fks (snd x) (fst x)) cycle)%list /\
    Permutation
      (map tbl_name created ++ map (fun x => tbl_name (fst x)) cycle)
      (filter (fun key =>
                 negb (OrderedDict.mem key (db_tables db_accounts_logs)))
         (OrderedDict.keys (db_tables db_cyclic_histories))) /\
    (forall t, In t created ->
       OrderedDict.get (tbl_name t) (db_tables db_cyclic_histories) =
         Some t) /\
    (forall t cs, In (t, cs) cycle ->
       OrderedDict.get (tbl_name t) (db_tables db_cyclic_histories) =
         Some t /\
       cs <> [] /\ NoDup (map con_name cs) /\
       forall c, In c cs -> In (con_name c, c) (tbl_constraints t)).
Proof.
  apply (plan_is_creates_drops_then_foreign_keys db_cyclic_histories
           (Some db_accounts_logs)
           (mk_plan [] (Some cyclic_histories_operations))).
  - apply wf_databaseb_sound. vm_compute. reflexivity.
  - vm_compute. reflexivity.
  - reflexivity.
  - reflexivity.
Defined.

(** ** Replaying a plan made from nothing *)

Lemma efold_app {A B} (f : A -> B -> exn + A) (l1 l2 : list B) (acc : A) :
  efold f (l1 ++ l2)%list acc = ebind (efold f l1 acc) (efold f l2).
Proof.
  revert acc. induction l1 as [|x l1 IH]; intros acc; simpl; [reflexivity|].
  destruct (f acc x); simpl; [reflexivity | apply IH].
Qed.

Lemma get_app {V} (k : string) (l1 l2 : odict V) :
  OrderedDict.get k (l1 ++ l2)%list =
    match OrderedDict.get k l1 with
    | Some v => Some v
    | None => OrderedDict.get k l2
    end.
Proof.
  induction l1 as [|[k0 v0] l1 IH]; simpl; [reflexivity|].
  destruct (String.eqb k k0); [reflexivity | exact IH].
Qed.

Lemma get_filter_key {V} (f : string * V -> bool) (k : string) (d : odict V) :
  (forall v, In (k, v) d -> f (k, v) = true) ->
  OrderedDict.get k (filter f d) = OrderedDict.get k d.
Proof.
  induction d as [|[k0 v0] d IH]; simpl; intros H; [reflexivity|].
  destruct (String.eqb_spec k k0).
  - subst k0. rewrite (H v0 (or_introl eq_refl)). simpl.
    now rewrite String.eqb_refl.
  - destruct (f (k0, v0)); simpl.
    + apply String.eqb_neq in n. rewrite n. apply IH. auto.
    + apply IH. auto.
Qed.

Lemma get_filter_none {V} (f : string * V -> bool) (k : string) (d : odict V) :
  (forall v, In (k, v) d -> f (k, v) = false) ->
  OrderedDict.get k (filter f d) = None.
Proof.
  induction d as [|[k0 v0] d IH]; simpl; intros H; [reflexivity|].
  destruct (f (k0, v0)) eqn:Hf; simpl.
  - destruct (String.eqb_spec k k0).
    + subst k0. rewrite (H v0 (or_introl eq_refl)) in Hf. discriminate.
    + apply IH. auto.
  - apply IH. auto.
Qed.

Lemma get_by_name (cs : list constraint) (k : string) :
  if existsb (fun c => String.eqb (con_name c) k) cs
  then exists c, In c cs /\ con_name c = k /\
                 OrderedDict.get k (map (fun c => (con_name c, c)) cs) = Some c
  else OrderedDict.get k (map (fun c => (con_name c, c)) cs) = None.
Proof.
  induction cs as [|c cs IH]; simpl; [reflexivity|].
  rewrite (String.eqb_sym k (con_name c)).
  destruct (String.eqb_spec (con_name c) k); simpl.
  - exists c. auto.
  - destruct (existsb (fun c => String.eqb (con_name c) k) cs).
    + destruct IH as (c0 & Hin & Hname & Hget). exists c0. auto.
    + exact IH.
Qed.

(** A table created without the foreign keys [cs] and then given them
    back holds the foreign keys of the table. *)
Lemma deferred_fks_restored (cs : list constraint) (d : odict constraint)
  (k : string) :
  NoDup (OrderedDict.keys d) ->
  (forall c, In c cs -> In (con_name c, c) d) ->
  OrderedDict.get k
    (filter (fun kc => negb (existsb (fun c => String.eqb (con_name c) (fst kc))
                               cs)) d ++
     map (fun c => (con_name c, c)) cs)%list =
  OrderedDict.get k d.
Proof.
  intros Hnd Hcs. rewrite get_app. pose proof (get_by_name cs k) as Hk.
  destruct (existsb (fun c => String.eqb (con_name c) k) cs) eqn:Hex.
  - rewrite get_filter_none by (intros v _; simpl; now rewrite Hex).
    destruct Hk as (c & Hin & Hname & ->). symmetry.
    apply In_get; [exact Hnd|]. rewrite <- Hname. now apply Hcs.
  - rewrite get_filter_key by (intros v _; simpl; now rewrite Hex).
    rewrite Hk. now destruct (OrderedDict.get k d).
Qed.

(** Replaying [CREATE TABLE]s of tables with new, distinct names appends
    them to the database. *)
Lemma apply_creates (ts : list table) :
  forall db : database,
    NoDup (OrderedDict.keys (db_tables db) ++ map tbl_name ts) ->
    apply_operations (map CreateTable ts) db =
      inr {| db_tables :=
               (db_tables db ++ map (fun t => (tbl_name t, t)) ts)%list |}.
Proof.
  unfold apply_operations.
  induction ts as [|t ts IH]; intros db Hnd; simpl.
  - rewrite app_nil_r. now destruct db.
  - apply NoDup_remove in Hnd as Hk. destruct Hk as (_ & Hk).
    assert (Hfresh : ~ In (tbl_name t) (OrderedDict.keys (db_tables db))).
    { intros Hin. apply Hk, in_or_app. now left. }
    unfold add_table.
    destruct (OrderedDict.mem (tbl_name t) (db_tables db)) eqn:Hmem.
    { apply mem_of_key in Hmem. contradiction. }
    cbn [ebind]. rewrite set_fresh by exact Hfresh. rewrite IH.
    + cbn [db_tables]. now rewrite <- app_assoc.
    + cbn [db_tables]. rewrite keys_app. simpl. now rewrite <- app_assoc.
Qed.

(** Adding foreign keys with new, distinct names appends them. *)
Lemma apply_add_constraints (cs : list constraint) :
  forall t : table,
    NoDup (map con_name cs) ->
    (forall c, In c cs ->
       ~ In (con_name c) (OrderedDict.keys (tbl_constraints t))) ->
    apply_all_to_table (map AddConstraint cs) t =
      (inr tt,
       with_constraints
         (tbl_constraints t ++ map (fun c => (con_name c, c)) cs)%list t).
Proof.
  induction cs as [|c cs IH]; intros t Hnd Hfresh; simpl.
  - rewrite app_nil_r. unfold ret. f_equal. now destruct t.
  - inversion Hnd as [|? ? Hc Hnd']; subst.
    unfold bind. rewrite add_constraint_spec.
    destruct (OrderedDict.mem (con_name c) (tbl_constraints t)) eqn:Hmem.
    { apply mem_of_key in Hmem. exfalso. apply (Hfresh c); auto.
      now left. }
    rewrite set_fresh by (apply (Hfresh c); now left).
    rewrite IH.
    + unfold with_constraints. simpl. now rewrite <- app_assoc.
    + exact Hnd'.
    + intros c' Hc'. simpl. rewrite keys_app. simpl. intros Hin.
      apply in_app_or in Hin. destruct Hin as [Hin|[Hin|[]]].
      * apply (Hfresh c'); [now right | exact Hin].
      * apply Hc. rewrite Hin. now apply in_map.
Qed.

(** Replaying the queued [ALTER TABLE]s: each one gives its table the
    foreign keys it was created without, and touches no other table. *)
Lemma apply_alters (cycle : list (table * list constraint)) :
  forall db : database,
    NoDup (map (fun x => tbl_name (fst x)) cycle) ->
    (forall t cs, In (t, cs) cycle ->
       exists copy,
         OrderedDict.get (tbl_name t) (db_tables db) = Some copy /\
         NoDup (map con_name cs) /\
         forall c, In c cs ->
           ~ In (con_name c) (OrderedDict.keys (tbl_constraints copy))) ->
    exists db',
      apply_operations (map (fun x => add_fks (snd x) (fst x)) cycle) db =
        inr db' /\
      (forall n, ~ In n (map (fun x => tbl_name (fst x)) cycle) ->
         OrderedDict.get n (db_tables db') = OrderedDict.get n (db_tables db)) /\
      (forall t cs, In (t, cs) cycle ->
         exists copy,
           OrderedDict.get (tbl_name t) (db_tables db) = Some copy /\
           OrderedDict.get (tbl_name t) (db_tables db') =
             Some (with_constraints
                     (tbl_constraints copy ++
                      map (fun c => (con_name c, c)) cs)%list copy)).
Proof.
  unfold apply_operations.
  induction cycle as [|[t cs] cycle IH]; intros db Hnd Hcopies; simpl.
  - exists db. split; [reflexivity|]. split; [reflexivity|].
    intros t cs [].
  - inversion Hnd as [|? ? Hhead Hnd']; subst.
    destruct (Hcopies t cs (or_introl eq_refl)) as (copy & Hcopy & Hndc & Hfresh).
    rewrite Hcopy, (apply_add_constraints cs copy Hndc Hfresh).
    cbn [ebind].
    set (t1 := with_constraints
                 (tbl_constraints copy ++ map (fun c => (con_name c, c)) cs)%list
                 copy).
    set (db1 := {| db_tables := OrderedDict.set (tbl_name t) t1 (db_tables db) |}).
    assert (Hother : forall n, n <> tbl_name t ->
              OrderedDict.get n (db_tables db1) =
              OrderedDict.get n (db_tables db)).
    { intros n Hn. simpl. now apply get_set_other. }
    destruct (IH db1 Hnd') as (db' & Hrun & Hkeep & Hdone).
    { intros t' cs' Hin.
      destruct (Hcopies t' cs' (or_intror Hin)) as (copy' & Hc' & Hrest).
      exists copy'. split; [|exact Hrest].
      rewrite Hother; [exact Hc'|]. intros Heq. apply Hhead.
      rewrite <- Heq. apply in_map_iff. exists (t', cs'). auto. }
    exists db'. split; [exact Hrun|]. split.
    + intros n Hn. rewrite Hkeep by (intros Hin; apply Hn; now right).
      apply Hother. intros ->. apply Hn. now left.
    + intros t' cs' [Heq|Hin].
      * inversion Heq; subst t' cs'. exists copy. split; [exact Hcopy|].
        rewrite Hkeep by exact Hhead. simpl. apply get_set_same.
      * destruct (Hdone t' cs' Hin) as (copy' & Hc' & Hget).
        exists copy'. split; [|exact Hget].
        rewrite <- Hother; [exact Hc'|]. intros Heq. apply Hhead.
        rewrite <- Heq. apply in_map_iff. exists (t', cs'). auto.
Qed.

Lemma NoDup_app_disjoint {A} (l1 l2 : list A) (x : A) :
  NoDup (l1 ++ l2) -> In x l1 -> In x l2 -> False.
Proof.
  induction l1 as [|y l1 IH]; simpl; intros Hnd H1 H2; [contradiction|].
  inversion Hnd; subst. destruct H1 as [->|H1].
  - apply H3, in_or_app. now right.
  - now apply IH.
Qed.

(** X20.  Executing a plan made from nothing builds the target.  For a
    well-formed target, when [mygration( db_to )] returns a plan without
    errors, replaying its operations in order on an empty database
    succeeds, and the database it ends in holds exactly the tables of the
    target: each with its name, its columns and its indexes as the target
    has them, and with the same foreign keys under the same names (those
    that had to wait come last in their table). *)
Theorem plan_from_nothing_builds_the_target :
  forall (db_to : database) (p : plan) (ops : list operation),
    wf_database db_to ->
    mygration db_to None = inr p ->
    errors_1215 p = [] ->
    operations p = Some ops ->
    exists db',
      apply_operations ops empty_database = inr db' /\
      forall n,
        match OrderedDict.get n (db_tables db_to),
              OrderedDict.get n (db_tables db') with
        | Some t, Some t' => same_definitions t' t
        | None, None => True
        | _, _ => False
        end.
Proof.
  intros db_to p ops Hwf H Herrs Hops.
  destruct (process_checked_shape db_to None p ops Hwf H Herrs Hops)
    as (created & cycle & -> & Hperm & Htarget & Hcycle).
  cbn [OrderedDict.keys map filter app] in Hperm |- *.
  rewrite (filter_all (fun key => negb (OrderedDict.mem key []))) in Hperm
    by reflexivity.
  assert (Hnames : NoDup (map tbl_name created ++
                          map (fun x => tbl_name (fst x)) cycle)).
  { eapply Permutation_NoDup; [symmetry; exact Hperm | apply Hwf]. }
  set (ts := (created ++
              map (fun x => without_fks (snd x) (fst x)) cycle)%list).
  assert (Hts : map tbl_name ts =
                (map tbl_name created ++
                 map (fun x => tbl_name (fst x)) cycle)%list).
  { unfold ts. rewrite map_app, map_map. reflexivity. }
  set (db2 := {| db_tables := map (fun t => (tbl_name t, t)) ts |}).
  assert (Hkeys2 : OrderedDict.keys (db_tables db2) = map tbl_name ts).
  { unfold db2, OrderedDict.keys. simpl. rewrite map_map. reflexivity. }
  assert (Hrun1 : apply_operations (map CreateTable ts) empty_database =
                  inr db2).
  { rewrite apply_creates; [reflexivity|]. simpl. now rewrite Hts. }
  assert (Hget2 : forall t, In t ts ->
            OrderedDict.get (tbl_name t) (db_tables db2) = Some t).
  { intros t Ht. apply In_get; [rewrite Hkeys2, Hts; exact Hnames|].
    unfold db2. simpl. apply in_map_iff. exists t. auto. }
  destruct (apply_alters cycle db2) as (db' & Hrun2 & Hkeep & Hdone).
  { eapply NoDup_app_remove_l; eauto. }
  { intros t cs Hin. exists (without_fks cs t).
    destruct (Hcycle t cs Hin) as (_ & _ & Hndc & _).
    split; [|split; [exact Hndc|]].
    - apply (Hget2 (without_fks cs t)). unfold ts. apply in_or_app. right.
      apply in_map_iff. exists (t, cs). auto.
    - intros c Hc Hk. unfold without_fks in Hk. simpl in Hk.
      apply in_map_iff in Hk. destruct Hk as ([k c'] & Hk & Hf).
      simpl in Hk. subst k. apply filter_In in Hf. destruct Hf as (_ & Hf).
      apply negb_true_iff in Hf. simpl in Hf.
      assert (Hex : existsb (fun c0 => String.eqb (con_name c0) (con_name c))
                      cs = true).
      { apply existsb_exists. exists c. split; [exact Hc|].
        apply String.eqb_refl. }
      congruence. }
  exists db'. split.
  { change (map CreateTable created ++
            map (fun x => CreateTable (without_fks (snd x) (fst x))) cycle ++
            [] ++ map (fun x => add_fks (snd x) (fst x)) cycle)%list
      with (map CreateTable created ++
            map (fun x => CreateTable (without_fks (snd x) (fst x))) cycle ++
            map (fun x => add_fks (snd x) (fst x)) cycle)%list.
    rewrite app_assoc.
    replace (map CreateTable created ++
             map (fun x => CreateTable (without_fks (snd x) (fst x))) cycle)%list
      with (map CreateTable ts)
      by (unfold ts; now rewrite map_app, map_map).
    unfold apply_operations in *. rewrite efold_app, Hrun1. exact Hrun2. }
  intros n.
  destruct (in_dec string_dec n (map (fun x => tbl_name (fst x)) cycle))
    as [Hc|Hc].
  - apply in_map_iff in Hc. destruct Hc as ([t cs] & Hn & Hin).
    simpl in Hn. subst n.
    destruct (Hcycle t cs Hin) as (Ht & _ & _ & Hsub). rewrite Ht.
    destruct (Hdone t cs Hin) as (copy & Hcopy & ->).
    assert (Hcopy' : OrderedDict.get (tbl_name t) (db_tables db2) =
                     Some (without_fks cs t)).
    { apply (Hget2 (without_fks cs t)). unfold ts. apply in_or_app. right.
      apply in_map_iff. exists (t, cs). auto. }
    assert (copy = without_fks cs t) by congruence. subst copy.
    split; [reflexivity|]. split; [reflexivity|]. split; [reflexivity|].
    intros k. simpl. apply deferred_fks_restored; [|exact Hsub].
    destruct (wf_database_get _ _ _ Hwf Ht) as (_ & _ & Hnd & _). exact Hnd.
  - rewrite (Hkeep n Hc).
    destruct (in_dec string_dec n (map tbl_name created)) as [Hcr|Hcr].
    + apply in_map_iff in Hcr. destruct Hcr as (t & Hn & Hin). subst n.
      rewrite (Htarget t Hin).
      rewrite (Hget2 t) by (unfold ts; apply in_or_app; now left).
      repeat split; reflexivity.
    + assert (Hnone : OrderedDict.get n (db_tables db2) = None).
      { apply get_None. rewrite Hkeys2, Hts. intros Hin.
        apply in_app_or in Hin. tauto. }
      rewrite Hnone.
      destruct (OrderedDict.get n (db_tables db_to)) as [t|] eqn:Ht;
        [|exact I].
      assert (Hin : In n (map tbl_name created ++
                          map (fun x => tbl_name (fst x)) cycle)).
      { eapply Permutation_in; [symmetry; exact Hperm|].
        eapply In_keys, get_In; eauto. }
      apply in_app_or in Hin. tauto.
Qed.

Lemma plan_from_nothing_builds_the_target_witness :
  exists db',
    apply_operations
      [CreateTable accounts; CreateTable tasks_stripped;
       CreateTable repeating_tasks_stripped;
       AlterTable (mk_alter_table "tasks"
         [AddConstraint (fk "repeating_task_id_tasks_fk" "repeating_task_id"
                           "repeating_tasks" Cascade)]);
       AlterTable (mk_alter_table "repeating_tasks"
         [AddConstraint (fk "task_id_rts" "task_id" "tasks" Cascade)])]
      empty_database = inr db' /\
    forall n,
      match OrderedDict.get n (db_tables db_cyclic),
            OrderedDict.get n (db_tables db') with
      | Some t, Some t' => same_definitions t' t
      | None, None => True
      | _, _ => False
      end.
Proof.
  apply (plan_from_nothing_builds_the_target db_cyclic
           (mk_plan []
              (Some [CreateTable accounts; CreateTable tasks_stripped;
                     CreateTable repeating_tasks_stripped;
                     AlterTable (mk_alter_table "tasks"
                       [AddConstraint
                          (fk "repeating_task_id_tasks_fk" "repeating_task_id"
                             "repeating_tasks" Cascade)]);
                     AlterTable (mk_alter_table "repeating_tasks"
                       [AddConstraint
                          (fk "task_id_rts" "task_id" "tasks" Cascade)])]))).
  - apply wf_databaseb_sound. vm_compute. reflexivity.
  - vm_compute. reflexivity.
  - reflexivity.
  - reflexivity.
Defined.

(* ================================================================== *)
(** * Applying the diff of two tables *)

(** A loop of [to] whose body adds the operations [g key]. *)
Lemma efold_flat_map {B} (g : B -> list sub_operation)
  (f : alter_table -> B -> exn + alter_table) (l : list B) :
  (forall acc x, In x l -> f acc x = inr (fold_left add_operation (g x) acc)) ->
  forall acc,
    efold f l acc =
      inr (mk_alter_table (alt_table acc)
             (alt_operations acc ++ flat_map g l)).
Proof.
  induction l as [|x l IH]; intros Hf acc; simpl.
  - rewrite app_nil_r. now destruct acc.
  - rewrite (Hf acc x (or_introl eq_refl)). cbn [ebind].
    rewrite IH by (intros; apply Hf; now right).
    rewrite fold_add_operation. simpl. now rewrite <- app_assoc.
Qed.

Lemma getitem_Some {V} (d : odict V) (k : string) (v : V) :
  OrderedDict.get k d = Some v -> getitem d k = inr v.
Proof. intros H. unfold getitem. now rewrite H. Qed.

Lemma filter_key_get {V} (p : string -> bool) (d : odict V) (k : string) :
  In k (filter p (OrderedDict.keys d)) ->
  exists v, OrderedDict.get k d = Some v.
Proof.
  intros H. apply filter_In in H. destruct H as (H & _).
  destruct (getitem_of_key _ _ H) as (v & Hv). exists v.
  now apply getitem_get.
Qed.

Ltac flat_loop g :=
  match goal with
  | |- context [efold ?f ?l ?acc] =>
      let Hf := fresh "Hf" in
      assert (Hf : forall a x, In x l ->
                f a x = inr (fold_left add_operation (g x) a));
      [ intros a x Hx
      | rewrite (efold_flat_map g f l Hf acc); clear Hf;
        cbn [ebind alt_table alt_operations] ]
  end.

(** The unsplit diff is the one [alter_table] of [to_operations], or
    nothing when there is no operation. *)
Lemma to_flat_operations (self other : table) :
  to self other false =
    inr (Flat (match to_operations self other with
               | [] => []
               | ops => [mk_alter_table (tbl_name self) ops]
               end)).
Proof.
  unfold to, to_operations, _differences. cbv beta iota zeta.
  flat_loop (added_column_op other).
  { unfold added_column_op.
    destruct (filter_key_get _ _ _ Hx) as (c & Hc).
    rewrite Hc, (getitem_Some _ _ _ Hc). cbn [ebind].
    apply filter_In in Hx. destruct Hx as (Hx & _).
    now destruct (column_before_total other x Hx) as (pos & ->). }
  flat_loop (changed_op str_eq_column (tbl_columns self) (tbl_columns other)
               ChangeColumn).
  { unfold changed_op.
    destruct (filter_key_get _ _ _ Hx) as (c & Hc).
    apply filter_In in Hx. destruct Hx as (_ & Hx).
    apply mem_of_key, getitem_of_key in Hx. destruct Hx as (c' & Hc').
    rewrite Hc'. apply getitem_get in Hc'.
    rewrite Hc, Hc', (getitem_Some _ _ _ Hc). cbn [ebind].
    now destruct (str_eq_column c c'). }
  flat_loop (one_op (tbl_columns self) RemoveColumn).
  { unfold one_op. destruct (filter_key_get _ _ _ Hx) as (c & Hc).
    now rewrite Hc, (getitem_Some _ _ _ Hc). }
  flat_loop (one_op (tbl_indexes other) AddKey).
  { unfold one_op. destruct (filter_key_get _ _ _ Hx) as (c & Hc).
    now rewrite Hc, (getitem_Some _ _ _ Hc). }
  flat_loop (one_op (tbl_indexes self) RemoveKey).
  { unfold one_op. destruct (filter_key_get _ _ _ Hx) as (c & Hc).
    now rewrite Hc, (getitem_Some _ _ _ Hc). }
  flat_loop (changed_op str_eq_index (tbl_indexes self) (tbl_indexes other)
               ChangeKey).
  { unfold changed_op.
    destruct (filter_key_get _ _ _ Hx) as (c & Hc).
    apply filter_In in Hx. destruct Hx as (_ & Hx).
    apply mem_of_key, getitem_of_key in Hx. destruct Hx as (c' & Hc').
    rewrite Hc'. apply getitem_get in Hc'.
    rewrite Hc, Hc', (getitem_Some _ _ _ Hc). cbn [ebind].
    now destruct (str_eq_index c c'). }
  flat_loop (one_op (tbl_constraints self) RemoveConstraint).
  { unfold one_op. destruct (filter_key_get _ _ _ Hx) as (c & Hc).
    now rewrite Hc, (getitem_Some _ _ _ Hc). }
  flat_loop (one_op (tbl_constraints other) AddConstraint).
  { unfold one_op. destruct (filter_key_get _ _ _ Hx) as (c & Hc).
    now rewrite Hc, (getitem_Some _ _ _ Hc). }
  flat_loop (changed_op str_eq_constraint (tbl_constraints self)
               (tbl_constraints other) ChangeConstraint).
  { unfold changed_op.
    destruct (filter_key_get _ _ _ Hx) as (c & Hc).
    apply filter_In in Hx. destruct Hx as (_ & Hx).
    apply mem_of_key, getitem_of_key in Hx. destruct Hx as (c' & Hc').
    rewrite Hc'. apply getitem_get in Hc'.
    rewrite Hc, Hc', (getitem_Some _ _ _ Hc). cbn [ebind].
    now destruct (str_eq_constraint c c'). }
  rewrite !fold_add_operation. cbn [alt_table alt_operations app].
  unfold alter_truthy. cbn [alt_operations]. rewrite <- !app_assoc.
  f_equal. f_equal.
  match goal with
  | |- (if match ?l with _ => _ end then _ else _) = _ => set (L := l)
  end.
  clearbody L. now destruct L.
Qed.

Lemma in_list_app (k : string) (l1 l2 : list string) :
  in_list k (l1 ++ l2) = in_list k l1 || in_list k l2.
Proof. apply existsb_app. Qed.

Lemma in_list_false (k : string) (l : list string) :
  in_list k l = false <-> ~ In k l.
Proof.
  rewrite <- in_list_In. destruct (in_list k l); split; congruence.
Qed.

Section Synced.
Context {V : Type}.
Variables B A : odict V.

Lemma synced_start : NoDup (OrderedDict.keys A) -> synced B A A [].
Proof. intros H. split; [exact H | reflexivity]. Qed.

Lemma synced_step (d d' : odict V) (done : list string) (k : string) :
  synced B A d done ->
  NoDup (OrderedDict.keys d') ->
  (forall k', OrderedDict.get k' d' =
              if String.eqb k' k then OrderedDict.get k B
              else OrderedDict.get k' d) ->
  synced B A d' (done ++ [k]).
Proof.
  intros (_ & Hd) Hnd Hd'. split; [exact Hnd|]. intros k'.
  rewrite Hd', in_list_app. simpl. rewrite orb_false_r.
  destruct (String.eqb_spec k' k).
  - subst k'. now rewrite orb_true_r.
  - rewrite orb_false_r. apply Hd.
Qed.

Lemma synced_skip (d : odict V) (done : list string) (k : string) :
  synced B A d done ->
  OrderedDict.get k A = OrderedDict.get k B ->
  synced B A d (done ++ [k]).
Proof.
  intros (Hnd & Hd) Heq. split; [exact Hnd|]. intros k'.
  rewrite Hd, in_list_app. simpl. rewrite orb_false_r.
  destruct (String.eqb_spec k' k).
  - subst k'. rewrite orb_true_r. now destruct (in_list k done).
  - now rewrite orb_false_r.
Qed.

Lemma synced_final (d : odict V) (all : list string) :
  synced B A d all ->
  (forall k, ~ In k all -> OrderedDict.get k A = OrderedDict.get k B) ->
  forall k, OrderedDict.get k d = OrderedDict.get k B.
Proof.
  intros (_ & Hd) Hrest k. rewrite Hd.
  destruct (in_list k all) eqn:E; [reflexivity|].
  apply Hrest. now apply in_list_false.
Qed.

Lemma get_set (k k' : string) (v : V) (d : odict V) :
  OrderedDict.get k' (OrderedDict.set k v d) =
    if String.eqb k' k then Some v else OrderedDict.get k' d.
Proof.
  destruct (String.eqb_spec k' k).
  - subst. apply get_set_same.
  - now apply get_set_other.
Qed.

Lemma get_pop (k k' : string) (d : odict V) :
  NoDup (OrderedDict.keys d) ->
  OrderedDict.get k' (OrderedDict.pop k d) =
    if String.eqb k' k then None else OrderedDict.get k' d.
Proof.
  intros Hnd. destruct (String.eqb_spec k' k).
  - subst. apply get_None. now apply not_In_keys_pop.
  - now apply get_pop_other.
Qed.

Lemma get_insert (k k' : string) (v : V) (l1 l2 : odict V) :
  ~ In k (OrderedDict.keys (l1 ++ l2)%list) ->
  OrderedDict.get k' (l1 ++ (k, v) :: l2)%list =
    if String.eqb k' k then Some v else OrderedDict.get k' (l1 ++ l2)%list.
Proof.
  intros Hk. rewrite keys_app in Hk. rewrite !get_app. simpl.
  destruct (String.eqb_spec k' k).
  - subst k'.
    destruct (OrderedDict.get k l1) eqn:E; [|reflexivity].
    exfalso. apply Hk, in_or_app. left. eapply In_keys, get_In; eauto.
  - reflexivity.
Qed.

(** The keys [_differences] leaves out hold the same on both sides. *)
Lemma differences_rest (all : list string) (k : string) :
  (forall x, In x (OrderedDict.keys B) -> OrderedDict.mem x A = false ->
             In x all) ->
  (forall x, In x (OrderedDict.keys A) -> In x all) ->
  ~ In k all ->
  OrderedDict.get k A = OrderedDict.get k B.
Proof.
  intros HB HA Hk.
  destruct (OrderedDict.get k A) as [a|] eqn:Ea.
  - exfalso. apply Hk, HA. eapply In_keys, get_In; eauto.
  - destruct (OrderedDict.get k B) as [b|] eqn:Eb; [|reflexivity].
    exfalso. apply Hk, HB; [eapply In_keys, get_In; eauto|].
    unfold OrderedDict.mem. now rewrite Ea.
Qed.
End Synced.

Lemma apply_all_app (l1 l2 : list sub_operation) (t t1 : table) :
  apply_all_to_table l1 t = (inr tt, t1) ->
  apply_all_to_table (l1 ++ l2) t = apply_all_to_table l2 t1.
Proof.
  revert t. induction l1 as [|op l1 IH]; intros t H; simpl in *.
  - unfold ret in H. now inversion H.
  - unfold bind in *.
    destruct (apply_to_table op t) as [[e|[]] t0]; [discriminate|].
    now apply IH.
Qed.

(** Applying the operations a loop of [to] has added, key by key: [P]
    holds of the keys dealt with so far ([pre] before the loop) and the
    table. *)
Lemma apply_stage (g : string -> list sub_operation)
  (P : list string -> table -> Prop) (pre l0 : list string) :
  (forall done k rest t,
     l0 = (done ++ k :: rest)%list -> P (pre ++ done)%list t ->
     exists t', apply_all_to_table (g k) t = (inr tt, t') /\
                P (pre ++ done ++ [k])%list t') ->
  forall t, P pre t ->
  exists t', apply_all_to_table (flat_map g l0) t = (inr tt, t') /\
             P (pre ++ l0)%list t'.
Proof.
  intros Hstep.
  assert (H : forall rest done t,
            l0 = (done ++ rest)%list -> P (pre ++ done)%list t ->
            exists t', apply_all_to_table (flat_map g rest) t = (inr tt, t') /\
                       P (pre ++ l0)%list t').
  { induction rest as [|k rest IH]; intros done t Hl0 HP; simpl.
    - exists t. rewrite app_nil_r in Hl0. subst done. auto.
    - destruct (Hstep done k rest t Hl0 HP) as (t1 & H1 & HP1).
      destruct (IH (done ++ [k])%list t1) as (t' & H' & HP').
      + now rewrite <- app_assoc.
      + exact HP1.
      + exists t'. split; [|exact HP'].
        now rewrite (apply_all_app _ _ _ _ H1). }
  intros t HP. apply (H l0 [] t); [reflexivity|]. now rewrite app_nil_r.
Qed.

Lemma apply_one (op : sub_operation) (t t' : table) :
  apply_to_table op t = (inr tt, t') ->
  apply_all_to_table [op] t = (inr tt, t').
Proof. intros H. simpl. unfold bind, ret. now rewrite H. Qed.

Lemma NoDup_split_fresh (l done rest : list string) (k : string) :
  NoDup l -> l = (done ++ k :: rest)%list -> ~ In k done.
Proof.
  intros Hnd ->. apply NoDup_remove_2 in Hnd. intros H. apply Hnd.
  apply in_or_app. now left.
Qed.

Section DifferencesKeys.
Context {V : Type}.
Variables A B : odict V.

Lemma added_key (k : string) :
  In k (filter (fun key => negb (OrderedDict.mem key A)) (OrderedDict.keys B)) ->
  OrderedDict.get k A = None /\ exists v, OrderedDict.get k B = Some v.
Proof.
  intros H. destruct (filter_key_get _ _ _ H) as (v & Hv).
  apply filter_In in H. destruct H as (_ & H). apply negb_true_iff in H.
  unfold OrderedDict.mem in H. split; [|eauto].
  now destruct (OrderedDict.get k A).
Qed.

Lemma removed_key (k : string) :
  In k (filter (fun key => negb (OrderedDict.mem key B)) (OrderedDict.keys A)) ->
  OrderedDict.get k B = None /\ exists v, OrderedDict.get k A = Some v.
Proof.
  intros H. destruct (filter_key_get _ _ _ H) as (v & Hv).
  apply filter_In in H. destruct H as (_ & H). apply negb_true_iff in H.
  unfold OrderedDict.mem in H. split; [|eauto].
  now destruct (OrderedDict.get k B).
Qed.

Lemma overlap_key (k : string) :
  In k (filter (fun key => OrderedDict.mem key B) (OrderedDict.keys A)) ->
  exists a b, OrderedDict.get k A = Some a /\ OrderedDict.get k B = Some b.
Proof.
  intros H. destruct (filter_key_get _ _ _ H) as (a & Ha).
  apply filter_In in H. destruct H as (_ & H).
  unfold OrderedDict.mem in H.
  destruct (OrderedDict.get k B) as [b|]; [eauto | discriminate].
Qed.

Lemma differences_cover (all : list string) :
  incl (filter (fun key => negb (OrderedDict.mem key A)) (OrderedDict.keys B))
       all ->
  incl (filter (fun key => OrderedDict.mem key B) (OrderedDict.keys A)) all ->
  incl (filter (fun key => negb (OrderedDict.mem key B)) (OrderedDict.keys A))
       all ->
  forall k, ~ In k all -> OrderedDict.get k A = OrderedDict.get k B.
Proof.
  intros Hadd Hover Hrem k Hk. apply (differences_rest B A all); auto.
  - intros x Hx Hm. apply Hadd, filter_In. split; [exact Hx|].
    now rewrite Hm.
  - intros x Hx. destruct (OrderedDict.mem x B) eqn:Hm.
    + apply Hover, filter_In. auto.
    + apply Hrem, filter_In. split; [exact Hx|]. now rewrite Hm.
Qed.
End DifferencesKeys.

Lemma with_constraints_same (t : table) :
  with_constraints (tbl_constraints t) t = t.
Proof. now destruct t. Qed.

Lemma with_indexes_same (t : table) : with_indexes (tbl_indexes t) t = t.
Proof. now destruct t. Qed.

Lemma mem_get {V} (k : string) (d : odict V) :
  OrderedDict.mem k d = match OrderedDict.get k d with
                        | Some _ => true
                        | None => false
                        end.
Proof. reflexivity. Qed.

Lemma str_eq_constraint_eq (a b : constraint) :
  str_eq_constraint a b = true -> a = b.
Proof. unfold str_eq_constraint. now destruct (constraint_eq_dec a b). Qed.

Lemma str_eq_index_eq (a b : index) : str_eq_index a b = true -> a = b.
Proof. unfold str_eq_index. now destruct (index_eq_dec a b). Qed.

Lemma str_eq_column_eq (a b : column) : str_eq_column a b = true -> a = b.
Proof. unfold str_eq_column. now destruct (column_eq_dec a b). Qed.

(** The foreign-key operations of a diff, applied in the order of an
    unsplit [alter_table] (additions, changes, removals), turn the
    constraints of the table into those of the comparison table. *)
Lemma apply_constraint_operations (t0 : table) (B : odict constraint) :
  NoDup (OrderedDict.keys (tbl_constraints t0)) ->
  NoDup (OrderedDict.keys B) ->
  (forall k c, In (k, c) (tbl_constraints t0) -> con_name c = k) ->
  (forall k c, In (k, c) B -> con_name c = k) ->
  exists d,
    apply_all_to_table
      (flat_map (one_op B AddConstraint)
         (filter (fun key => negb (OrderedDict.mem key (tbl_constraints t0)))
            (OrderedDict.keys B)) ++
       flat_map (changed_op str_eq_constraint (tbl_constraints t0) B
                   ChangeConstraint)
         (filter (fun key => OrderedDict.mem key B)
            (OrderedDict.keys (tbl_constraints t0))) ++
       flat_map (one_op (tbl_constraints t0) RemoveConstraint)
         (filter (fun key => negb (OrderedDict.mem key B))
            (OrderedDict.keys (tbl_constraints t0))))%list t0 =
      (inr tt, with_constraints d t0) /\
    NoDup (OrderedDict.keys d) /\
    forall k, OrderedDict.get k d = OrderedDict.get k B.
Proof.
  intros HndA HndB HnA HnB.
  set (A := tbl_constraints t0) in *.
  set (added := filter (fun key => negb (OrderedDict.mem key A))
                  (OrderedDict.keys B)).
  set (overlap := filter (fun key => OrderedDict.mem key B)
                    (OrderedDict.keys A)).
  set (removed := filter (fun key => negb (OrderedDict.mem key B))
                    (OrderedDict.keys A)).
  set (P := fun (done : list string) (t : table) =>
              exists d, t = with_constraints d t0 /\ synced B A d done).
  destruct (apply_stage (one_op B AddConstraint) P [] added) with (t := t0)
    as (t1 & H1 & P1).
  { intros done k rest t Hl (d & -> & Hs). simpl in Hs |- *.
    assert (Hk : In k added) by (rewrite Hl; apply in_or_app; right; now left).
    destruct (added_key _ _ _ Hk) as (HA & c & HB).
    assert (Hfresh : ~ In k done).
    { eapply NoDup_split_fresh; [|exact Hl]. now apply NoDup_filter. }
    pose proof (HnB _ _ (get_In _ _ _ HB)) as Hname.
    unfold one_op. rewrite HB.
    exists (with_constraints (OrderedDict.set k c d) t0). split.
    - apply apply_one. simpl. rewrite add_constraint_spec. simpl.
      rewrite Hname, mem_get, (proj2 Hs k).
      rewrite (proj2 (in_list_false _ _) Hfresh), HA. reflexivity.
    - exists (OrderedDict.set k c d). split; [reflexivity|].
      apply (synced_step B A d); [exact Hs | apply NoDup_keys_set, Hs|].
      intros k'. now rewrite get_set, HB. }
  { exists A. split; [symmetry; apply with_constraints_same|].
    now apply synced_start. }
  destruct (apply_stage (changed_op str_eq_constraint A B ChangeConstraint)
              P ([] ++ added)%list overlap) with (t := t1)
    as (t2 & H2 & P2); [|exact P1|].
  { intros done k rest t Hl (d & -> & Hs).
    assert (Hk : In k overlap) by (rewrite Hl; apply in_or_app; right; now left).
    destruct (overlap_key _ _ _ Hk) as (a & b & HA & HB).
    pose proof (HnB _ _ (get_In _ _ _ HB)) as Hname.
    unfold changed_op. rewrite HA, HB. rewrite app_assoc.
    destruct (str_eq_constraint a b) eqn:Hsame.
    - apply str_eq_constraint_eq in Hsame. subst b.
      exists (with_constraints d t0). split; [reflexivity|].
      exists d. split; [reflexivity|]. apply synced_skip; [exact Hs|].
      congruence.
    - exists (with_constraints (OrderedDict.set k b d) t0). split.
      + apply apply_one. simpl. rewrite change_constraint_spec. simpl.
        rewrite Hname, mem_get, (proj2 Hs k), HA, HB.
        now destruct (in_list k _).
      + exists (OrderedDict.set k b d). split; [reflexivity|].
        apply (synced_step B A d); [exact Hs | apply NoDup_keys_set, Hs|].
        intros k'. now rewrite get_set, HB. }
  destruct (apply_stage (one_op A RemoveConstraint)
              P (([] ++ added) ++ overlap)%list removed) with (t := t2)
    as (t3 & H3 & P3); [|exact P2|].
  { intros done k rest t Hl (d & -> & Hs).
    assert (Hk : In k removed) by (rewrite Hl; apply in_or_app; right; now left).
    destruct (removed_key _ _ _ Hk) as (HB & a & HA).
    pose proof (HnA _ _ (get_In _ _ _ HA)) as Hname.
    assert (Hfresh : ~ In k ((([] ++ added) ++ overlap) ++ done)).
    { simpl. intros Hin. apply in_app_or in Hin. destruct Hin as [Hin|Hin].
      - apply in_app_or in Hin. destruct Hin as [Hin|Hin].
        + destruct (added_key _ _ _ Hin) as (HA' & _). congruence.
        + destruct (overlap_key _ _ _ Hin) as (_ & b & _ & HB'). congruence.
      - revert Hin. eapply NoDup_split_fresh; [|exact Hl].
        now apply NoDup_filter. }
    unfold one_op. rewrite HA. rewrite app_assoc.
    exists (with_constraints (OrderedDict.pop k d) t0). split.
    - apply apply_one. simpl. rewrite remove_constraint_spec. simpl.
      rewrite Hname, mem_get, (proj2 Hs k).
      rewrite (proj2 (in_list_false _ _) Hfresh), HA. reflexivity.
    - exists (OrderedDict.pop k d). split; [reflexivity|].
      apply (synced_step B A d);
        [exact Hs | apply NoDup_keys_pop, Hs|].
      intros k'. rewrite get_pop by apply Hs. now rewrite HB. }
  destruct P3 as (d & -> & Hs). exists d.
  split; [|split; [apply Hs|]].
  - rewrite (apply_all_app _ _ _ _ H1), (apply_all_app _ _ _ _ H2). exact H3.
  - apply (synced_final B A d _ Hs).
    apply differences_cover; intros x Hx; simpl.
    + apply in_or_app. left. apply in_or_app. now left.
    + apply in_or_app. left. apply in_or_app. now right.
    + apply in_or_app. now right.
Qed.

(** The key operations of a diff (additions, removals, changes), applied
    to a table whose set of indexed columns is not built, turn its indexes
    into those of the comparison table. *)
Lemma apply_key_operations (t0 : table) (B : odict index) :
  tbl_indexed_columns t0 = None ->
  NoDup (OrderedDict.keys (tbl_indexes t0)) ->
  NoDup (OrderedDict.keys B) ->
  (forall k i, In (k, i) (tbl_indexes t0) -> idx_name i = k) ->
  (forall k i, In (k, i) B -> idx_name i = k) ->
  exists d,
    apply_all_to_table
      (flat_map (one_op B AddKey)
         (filter (fun key => negb (OrderedDict.mem key (tbl_indexes t0)))
            (OrderedDict.keys B)) ++
       flat_map (one_op (tbl_indexes t0) RemoveKey)
         (filter (fun key => negb (OrderedDict.mem key B))
            (OrderedDict.keys (tbl_indexes t0))) ++
       flat_map (changed_op str_eq_index (tbl_indexes t0) B ChangeKey)
         (filter (fun key => OrderedDict.mem key B)
            (OrderedDict.keys (tbl_indexes t0))))%list t0 =
      (inr tt, with_indexes d t0) /\
    NoDup (OrderedDict.keys d) /\
    forall k, OrderedDict.get k d = OrderedDict.get k B.
Proof.
  intros Hcache HndA HndB HnA HnB.
  set (A := tbl_indexes t0) in *.
  set (added := filter (fun key => negb (OrderedDict.mem key A))
                  (OrderedDict.keys B)).
  set (overlap := filter (fun key => OrderedDict.mem key B)
                    (OrderedDict.keys A)).
  set (removed := filter (fun key => negb (OrderedDict.mem key B))
                    (OrderedDict.keys A)).
  set (P := fun (done : list string) (t : table) =>
              exists d, t = with_indexes d t0 /\ synced B A d done).
  destruct (apply_stage (one_op B AddKey) P [] added) with (t := t0)
    as (t1 & H1 & P1).
  { intros done k rest t Hl (d & -> & Hs). simpl in Hs |- *.
    assert (Hk : In k added) by (rewrite Hl; apply in_or_app; right; now left).
    destruct (added_key _ _ _ Hk) as (HA & c & HB).
    assert (Hfresh : ~ In k done).
    { eapply NoDup_split_fresh; [|exact Hl]. now apply NoDup_filter. }
    pose proof (HnB _ _ (get_In _ _ _ HB)) as Hname.
    unfold one_op. rewrite HB.
    exists (with_indexes (OrderedDict.set k c d) t0). split.
    - apply apply_one. simpl. rewrite add_key_uncached by exact Hcache.
      simpl. rewrite Hname, mem_get, (proj2 Hs k).
      rewrite (proj2 (in_list_false _ _) Hfresh), HA. reflexivity.
    - exists (OrderedDict.set k c d). split; [reflexivity|].
      apply (synced_step B A d); [exact Hs | apply NoDup_keys_set, Hs|].
      intros k'. now rewrite get_set, HB. }
  { exists A. split; [symmetry; apply with_indexes_same|].
    now apply synced_start. }
  destruct (apply_stage (one_op A RemoveKey)
              P ([] ++ added)%list removed) with (t := t1)
    as (t2 & H2 & P2); [|exact P1|].
  { intros done k rest t Hl (d & -> & Hs).
    assert (Hk : In k removed) by (rewrite Hl; apply in_or_app; right; now left).
    destruct (removed_key _ _ _ Hk) as (HB & a & HA).
    pose proof (HnA _ _ (get_In _ _ _ HA)) as Hname.
    assert (Hfresh : ~ In k (([] ++ added) ++ done)).
    { simpl. intros Hin. apply in_app_or in Hin. destruct Hin as [Hin|Hin].
      - destruct (added_key _ _ _ Hin) as (HA' & _). congruence.
      - revert Hin. eapply NoDup_split_fresh; [|exact Hl].
        now apply NoDup_filter. }
    unfold one_op. rewrite HA. rewrite app_assoc.
    exists (with_indexes (OrderedDict.pop k d) t0). split.
    - apply apply_one. simpl. rewrite remove_key_uncached by exact Hcache.
      simpl. rewrite Hname, mem_get, (proj2 Hs k).
      rewrite (proj2 (in_list_false _ _) Hfresh), HA. reflexivity.
    - exists (OrderedDict.pop k d). split; [reflexivity|].
      apply (synced_step B A d);
        [exact Hs | apply NoDup_keys_pop, Hs|].
      intros k'. rewrite get_pop by apply Hs. now rewrite HB. }
  destruct (apply_stage (changed_op str_eq_index A B ChangeKey)
              P (([] ++ added) ++ removed)%list overlap) with (t := t2)
    as (t3 & H3 & P3); [|exact P2|].
  { intros done k rest t Hl (d & -> & Hs).
    assert (Hk : In k overlap) by (rewrite Hl; apply in_or_app; right; now left).
    destruct (overlap_key _ _ _ Hk) as (a & b & HA & HB).
    pose proof (HnB _ _ (get_In _ _ _ HB)) as Hname.
    unfold changed_op. rewrite HA, HB. rewrite app_assoc.
    destruct (str_eq_index a b) eqn:Hsame.
    - apply str_eq_index_eq in Hsame. subst b.
      exists (with_indexes d t0). split; [reflexivity|].
      exists d. split; [reflexivity|]. apply synced_skip; [exact Hs|].
      congruence.
    - exists (with_indexes (OrderedDict.set k b d) t0). split.
      + apply apply_one. simpl. rewrite change_key_uncached by exact Hcache.
        simpl. rewrite Hname, mem_get, (proj2 Hs k), HA, HB.
        now destruct (in_list k _).
      + exists (OrderedDict.set k b d). split; [reflexivity|].
        apply (synced_step B A d); [exact Hs | apply NoDup_keys_set, Hs|].
        intros k'. now rewrite get_set, HB. }
  destruct P3 as (d & -> & Hs). exists d.
  split; [|split; [apply Hs|]].
  - rewrite (apply_all_app _ _ _ _ H1), (apply_all_app _ _ _ _ H2). exact H3.
  - apply (synced_final B A d _ Hs).
    apply differences_cover; intros x Hx; simpl.
    + apply in_or_app. left. apply in_or_app. now left.
    + apply in_or_app. now right.
    + apply in_or_app. left. apply in_or_app. now right.
Qed.

Lemma split_unique (k : string) (x1 : list string) :
  forall x2 y1 y2 : list string,
    NoDup (x1 ++ k :: y1) ->
    (x1 ++ k :: y1 = x2 ++ k :: y2)%list ->
    x1 = x2.
Proof.
  induction x1 as [|a x1 IH]; intros x2 y1 y2 Hnd Heq.
  - destruct x2 as [|b x2]; [reflexivity|].
    simpl in Heq. inversion Heq; subst. inversion Hnd; subst.
    exfalso. apply H1, in_or_app. right. now left.
  - destruct x2 as [|b x2]; simpl in Heq; inversion Heq; subst.
    + inversion Hnd; subst. exfalso. apply H1, in_or_app. right. now left.
    + f_equal. inversion Hnd; subst. eapply IH; eauto.
Qed.

(** The column that stands before a new column in the comparison table
    is, when its turn comes, a column of the table being brought in
    line. *)
Lemma column_before_present (A B d : odict column) (done rest : list string)
  (k before : string) :
  NoDup (OrderedDict.keys B) ->
  filter (fun key => negb (OrderedDict.mem key A)) (OrderedDict.keys B) =
    (done ++ k :: rest)%list ->
  synced B A d done ->
  (exists l1 l2, OrderedDict.keys B = (l1 ++ before :: k :: l2)%list) ->
  In before (OrderedDict.keys d).
Proof.
  intros HndB Hl (_ & Hd) (l1 & l2 & Hkeys).
  assert (HB : In before (OrderedDict.keys B)).
  { rewrite Hkeys. apply in_or_app. right. now left. }
  apply mem_of_key in HB. rewrite mem_get in HB.
  apply mem_of_key. rewrite mem_get, Hd.
  destruct (in_list before done) eqn:Hdone; [exact HB|].
  destruct (OrderedDict.get before A) eqn:HA; [reflexivity|].
  exfalso. apply in_list_false in Hdone. apply Hdone.
  assert (Hk : negb (OrderedDict.mem k A) = true).
  { assert (Hin : In k (filter (fun key => negb (OrderedDict.mem key A))
                          (OrderedDict.keys B)))
      by (rewrite Hl; apply in_or_app; right; now left).
    apply filter_In in Hin. apply Hin. }
  rewrite Hkeys, filter_app in Hl. simpl in Hl.
  rewrite mem_get, HA, Hk in Hl. simpl in Hl.
  change (filter (fun key => negb (OrderedDict.mem key A)) l1 ++
          before :: k :: filter (fun key => negb (OrderedDict.mem key A)) l2)%list
    with (filter (fun key => negb (OrderedDict.mem key A)) l1 ++
          [before] ++
          k :: filter (fun key => negb (OrderedDict.mem key A)) l2)%list in Hl.
  rewrite app_assoc in Hl.
  apply split_unique in Hl.
  - rewrite <- Hl. apply in_or_app. right. now left.
  - rewrite <- app_assoc. simpl.
    assert (Hnd : NoDup (filter (fun key => negb (OrderedDict.mem key A))
                           (l1 ++ before :: k :: l2)))
      by (rewrite <- Hkeys; now apply NoDup_filter).
    rewrite filter_app in Hnd. simpl in Hnd.
    now rewrite mem_get, HA, Hk in Hnd.
Qed.

(** [ADD COLUMN] on a table without a column of that name, at a position
    that exists: the column is there afterwards, and the others are as
    they were. *)
Lemma add_column_effect (c : column) (pos : position) (d : odict column)
  (t0 : table) :
  NoDup (OrderedDict.keys d) ->
  ~ In (col_name c) (OrderedDict.keys d) ->
  (forall before, pos = PosAfter before ->
     before = "" \/ In before (OrderedDict.keys d)) ->
  exists d',
    apply_to_table (AddColumn c pos) (with_columns d t0) =
      (inr tt, with_columns d' t0) /\
    NoDup (OrderedDict.keys d') /\
    forall k', OrderedDict.get k' d' =
               if String.eqb k' (col_name c) then Some c
               else OrderedDict.get k' d.
Proof.
  intros Hnd Hfresh Hpos.
  destruct (add_column c pos (with_columns d t0)) as [[e|b] t'] eqn:E.
  - exfalso.
    assert (Hraise : exists e t', add_column c pos (with_columns d t0) =
                                  (inl e, t')) by eauto.
    apply add_column_raises_iff in Hraise. simpl in Hraise.
    destruct Hraise as [Hmem|(Hnot & HT & Hnone)].
    + apply mem_of_key in Hmem. contradiction.
    + destruct pos as [| |before]; simpl in Hnot, HT; try discriminate.
      apply String.eqb_neq in Hnot.
      destruct (Hpos before eq_refl) as [->|Hin]; [congruence|].
      specialize (Hnone before Hin). simpl in Hnone.
      now rewrite String.eqb_refl in Hnone.
  - destruct (add_column_returns c pos (with_columns d t0) t' b Hnd E)
      as (_ & _ & l1 & l2 & Hd & -> & _).
    simpl in Hd. subst d.
    exists (l1 ++ (col_name c, c) :: l2)%list. split; [|split].
    + simpl. unfold bind, ret. rewrite E. reflexivity.
    + rewrite keys_app in *. simpl. now apply NoDup_insert_fresh.
    + intros k'. now apply get_insert.
Qed.

(** The column operations of a diff (additions at their positions,
    changes, removals) turn the columns of the table into those of the
    comparison table. *)
Lemma apply_column_operations (t0 other : table) :
  NoDup (OrderedDict.keys (tbl_columns t0)) ->
  NoDup (OrderedDict.keys (tbl_columns other)) ->
  (forall k c, In (k, c) (tbl_columns t0) -> col_name c = k) ->
  (forall k c, In (k, c) (tbl_columns other) -> col_name c = k) ->
  exists d,
    apply_all_to_table
      (flat_map (added_column_op other)
         (filter (fun key => negb (OrderedDict.mem key (tbl_columns t0)))
            (OrderedDict.keys (tbl_columns other))) ++
       flat_map (changed_op str_eq_column (tbl_columns t0)
                   (tbl_columns other) ChangeColumn)
         (filter (fun key => OrderedDict.mem key (tbl_columns other))
            (OrderedDict.keys (tbl_columns t0))) ++
       flat_map (one_op (tbl_columns t0) RemoveColumn)
         (filter (fun key => negb (OrderedDict.mem key (tbl_columns other)))
            (OrderedDict.keys (tbl_columns t0))))%list t0 =
      (inr tt, with_columns d t0) /\
    NoDup (OrderedDict.keys d) /\
    forall k, OrderedDict.get k d = OrderedDict.get k (tbl_columns other).
Proof.
  intros HndA HndB HnA HnB.
  set (A := tbl_columns t0) in *. set (B := tbl_columns other) in *.
  set (added := filter (fun key => negb (OrderedDict.mem key A))
                  (OrderedDict.keys B)).
  set (overlap := filter (fun key => OrderedDict.mem key B)
                    (OrderedDict.keys A)).
  set (removed := filter (fun key => negb (OrderedDict.mem key B))
                    (OrderedDict.keys A)).
  set (P := fun (done : list string) (t : table) =>
              exists d, t = with_columns d t0 /\ synced B A d done).
  destruct (apply_stage (added_column_op other) P [] added) with (t := t0)
    as (t1 & H1 & P1).
  { intros done k rest t Hl (d & -> & Hs). simpl in Hs |- *.
    assert (Hk : In k added) by (rewrite Hl; apply in_or_app; right; now left).
    destruct (added_key _ _ _ Hk) as (HA & c & HB).
    assert (Hfresh : ~ In k done).
    { eapply NoDup_split_fresh; [|exact Hl]. now apply NoDup_filter. }
    pose proof (HnB _ _ (get_In _ _ _ HB)) as Hname.
    assert (HkB : In k (OrderedDict.keys (tbl_columns other)))
      by (eapply In_keys, get_In; exact HB).
    destruct (column_before_total other k HkB) as (pos & Hpos).
    pose proof (column_before_cases other k) as Hcases.
    cbv zeta in Hcases. rewrite Hpos in Hcases.
    unfold added_column_op. fold B. rewrite HB, Hpos.
    destruct (add_column_effect c pos d t0) as (d' & Happly & Hnd' & Hget).
    - apply Hs.
    - rewrite Hname. intros Hin. apply mem_of_key in Hin.
      rewrite mem_get, (proj2 Hs k) in Hin.
      rewrite (proj2 (in_list_false _ _) Hfresh), HA in Hin. discriminate.
    - intros before ->. right.
      destruct Hcases as (l1 & l2 & Hkeys & _).
      eapply (column_before_present A B); eauto.
    - exists (with_columns d' t0). split; [now apply apply_one|].
      exists d'. split; [reflexivity|].
      apply (synced_step B A d); [exact Hs | exact Hnd'|].
      intros k'. rewrite Hget, Hname, HB. reflexivity. }
  { exists A. split; [symmetry; apply with_columns_same|].
    now apply synced_start. }
  destruct (apply_stage (changed_op str_eq_column A B ChangeColumn)
              P ([] ++ added)%list overlap) with (t := t1)
    as (t2 & H2 & P2); [|exact P1|].
  { intros done k rest t Hl (d & -> & Hs).
    assert (Hk : In k overlap) by (rewrite Hl; apply in_or_app; right; now left).
    destruct (overlap_key _ _ _ Hk) as (a & b & HA & HB).
    pose proof (HnB _ _ (get_In _ _ _ HB)) as Hname.
    unfold changed_op. rewrite HA, HB. rewrite app_assoc.
    destruct (str_eq_column a b) eqn:Hsame.
    - apply str_eq_column_eq in Hsame. subst b.
      exists (with_columns d t0). split; [reflexivity|].
      exists d. split; [reflexivity|]. apply synced_skip; [exact Hs|].
      congruence.
    - exists (with_columns (OrderedDict.set k b d) t0). split.
      + apply apply_one. simpl. rewrite change_column_spec. simpl.
        rewrite Hname, mem_get, (proj2 Hs k), HA, HB.
        now destruct (in_list k _).
      + exists (OrderedDict.set k b d). split; [reflexivity|].
        apply (synced_step B A d); [exact Hs | apply NoDup_keys_set, Hs|].
        intros k'. now rewrite get_set, HB. }
  destruct (apply_stage (one_op A RemoveColumn)
              P (([] ++ added) ++ overlap)%list removed) with (t := t2)
    as (t3 & H3 & P3); [|exact P2|].
  { intros done k rest t Hl (d & -> & Hs).
    assert (Hk : In k removed) by (rewrite Hl; apply in_or_app; right; now left).
    destruct (removed_key _ _ _ Hk) as (HB & a & HA).
    pose proof (HnA _ _ (get_In _ _ _ HA)) as Hname.
    assert (Hfresh : ~ In k ((([] ++ added) ++ overlap) ++ done)).
    { simpl. intros Hin. apply in_app_or in Hin. destruct Hin as [Hin|Hin].
      - apply in_app_or in Hin. destruct Hin as [Hin|Hin].
        + destruct (added_key _ _ _ Hin) as (HA' & _). congruence.
        + destruct (overlap_key _ _ _ Hin) as (_ & b & _ & HB'). congruence.
      - revert Hin. eapply NoDup_split_fresh; [|exact Hl].
        now apply NoDup_filter. }
    unfold one_op. rewrite HA. rewrite app_assoc.
    exists (with_columns (OrderedDict.pop k d) t0). split.
    - apply apply_one. simpl. rewrite remove_column_spec. simpl.
      rewrite Hname, mem_get, (proj2 Hs k).
      rewrite (proj2 (in_list_false _ _) Hfresh), HA. reflexivity.
    - exists (OrderedDict.pop k d). split; [reflexivity|].
      apply (synced_step B A d);
        [exact Hs | apply NoDup_keys_pop, Hs|].
      intros k'. rewrite get_pop by apply Hs. now rewrite HB. }
  destruct P3 as (d & -> & Hs). exists d.
  split; [|split; [apply Hs|]].
  - rewrite (apply_all_app _ _ _ _ H1), (apply_all_app _ _ _ _ H2). exact H3.
  - apply (synced_final B A d _ Hs).
    apply differences_cover; intros x Hx; simpl.
    + apply in_or_app. left. apply in_or_app. now left.
    + apply in_or_app. left. apply in_or_app. now right.
    + apply in_or_app. now right.
Qed.

Lemma to_flat_empty (self other : table) :
  (forall k, OrderedDict.get k (tbl_columns self) =
             OrderedDict.get k (tbl_columns other)) ->
  (forall k, OrderedDict.get k (tbl_indexes self) =
             OrderedDict.get k (tbl_indexes other)) ->
  (forall k, OrderedDict.get k (tbl_constraints self) =
             OrderedDict.get k (tbl_constraints other)) ->
  to self other false = inr (Flat []).
Proof.
  intros Hc Hi Hf.
  destruct (to_parts self other)
    as (primary & constraints & removed & _ & _ & _ & H).
  pose proof (to_same_mappings self other Hc Hi Hf) as Hsplit.
  rewrite (H true) in Hsplit. rewrite (H false).
  unfold truthy_key, alter_truthy in Hsplit. simpl in Hsplit.
  destruct primary; [|discriminate].
  destruct constraints; [|discriminate].
  destruct removed; [|discriminate]. reflexivity.
Qed.

(** X21.  The promise of [to]'s docstring.  For two tables in which each
    column, index and constraint is filed once and under its name, the
    first with its set of indexed columns not built: applying the
    operations of [self.to( other )] to [self], in order, never raises,
    and brings [self] in line with [other]: afterwards it holds the
    columns, indexes and constraints of [other] under the same names, and
    its diff with [other] is empty. *)
Theorem to_then_apply_reaches_comparison_table :
  forall self other : table,
    well_keyed self ->
    well_keyed other ->
    tbl_indexed_columns self = None ->
    exists (ops : list sub_operation) (self' : table),
      to self other false =
        inr (Flat (match ops with
                   | [] => []
                   | _ => [mk_alter_table (tbl_name self) ops]
                   end)) /\
      apply_all_to_table ops self = (inr tt, self') /\
      (forall k, OrderedDict.get k (tbl_columns self') =
                 OrderedDict.get k (tbl_columns other)) /\
      (forall k, OrderedDict.get k (tbl_indexes self') =
                 OrderedDict.get k (tbl_indexes other)) /\
      (forall k, OrderedDict.get k (tbl_constraints self') =
                 OrderedDict.get k (tbl_constraints other)) /\
      to self' other false = inr (Flat []).
Proof.
  intros self other (Hc1 & Hi1 & Hf1 & Hcn1 & Hin1 & Hfn1)
    (Hc2 & Hi2 & Hf2 & Hcn2 & Hin2 & Hfn2) Hcache.
  destruct (apply_column_operations self other Hc1 Hc2 Hcn1 Hcn2)
    as (dc & Hrun1 & _ & Hcols).
  destruct (apply_key_operations (with_columns dc self) (tbl_indexes other)
              Hcache Hi1 Hi2 Hin1 Hin2) as (di & Hrun2 & _ & Hidx).
  destruct (apply_constraint_operations
              (with_indexes di (with_columns dc self))
              (tbl_constraints other) Hf1 Hf2 Hfn1 Hfn2)
    as (df & Hrun3 & _ & Hcons).
  cbn [tbl_indexes tbl_constraints with_columns with_indexes] in Hrun2, Hrun3.
  exists (to_operations self other),
         (with_constraints df (with_indexes di (with_columns dc self))).
  split; [|split; [|split; [|split; [|split]]]].
  - rewrite to_flat_operations. now destruct (to_operations self other).
  - unfold to_operations, _differences. cbv beta iota zeta.
    rewrite !app_assoc. rewrite <- !app_assoc.
    rewrite (app_assoc (flat_map (added_column_op other) _)).
    rewrite (app_assoc (_ ++ _)%list (flat_map (one_op (tbl_columns self) _) _)).
    rewrite <- (app_assoc (flat_map (added_column_op other) _)).
    rewrite (apply_all_app _ _ _ _ Hrun1).
    rewrite (app_assoc (flat_map (one_op (tbl_indexes other) AddKey) _)).
    rewrite (app_assoc (_ ++ _)%list (flat_map (changed_op str_eq_index _ _ _) _)).
    rewrite <- (app_assoc (flat_map (one_op (tbl_indexes other) AddKey) _)).
    rewrite (apply_all_app _ _ _ _ Hrun2).
    exact Hrun3.
  - exact Hcols.
  - exact Hidx.
  - exact Hcons.
  - now apply to_flat_empty.
Qed.

Ltac filed_under_name :=
  let k := fresh "k" in
  let c := fresh "c" in
  let H := fresh "H" in
  intros k c H; simpl in H;
  repeat (destruct H as [H|H]; [inversion H; reflexivity|]);
  contradiction.

Lemma to_then_apply_reaches_comparison_table_witness :
  exists (ops : list sub_operation) (self' : table),
    to tasks_s5_from tasks_with_subject false =
      inr (Flat (match ops with
                 | [] => []
                 | _ => [mk_alter_table (tbl_name tasks_s5_from) ops]
                 end)) /\
    apply_all_to_table ops tasks_s5_from = (inr tt, self') /\
    (forall k, OrderedDict.get k (tbl_columns self') =
               OrderedDict.get k (tbl_columns tasks_with_subject)) /\
    (forall k, OrderedDict.get k (tbl_indexes self') =
               OrderedDict.get k (tbl_indexes tasks_with_subject)) /\
    (forall k, OrderedDict.get k (tbl_constraints self') =
               OrderedDict.get k (tbl_constraints tasks_with_subject)) /\
    to self' tasks_with_subject false = inr (Flat []).
Proof.
  apply (to_then_apply_reaches_comparison_table tasks_s5_from
           tasks_with_subject).
  - split; [apply nodupb_NoDup; reflexivity|].
    split; [apply nodupb_NoDup; reflexivity|].
    split; [apply nodupb_NoDup; reflexivity|].
    split; [filed_under_name|]. split; filed_under_name.
  - split; [apply nodupb_NoDup; reflexivity|].
    split; [apply nodupb_NoDup; reflexivity|].
    split; [apply nodupb_NoDup; reflexivity|].
    split; [filed_under_name|]. split; filed_under_name.
  - reflexivity.
Defined.
